(** * pChop: prefix-ranged, recovery-augmented symbolic execution kernel

    A shallow embedding of the parts of [lib/Core/Executor.cpp],
    [lib/Core/Searcher.cpp] and [include/klee/ExecutionState.h] that carry the
    forking, ranging, offloading and recovery protocol, together with the
    properties of that code.

    Conventions.
    - An [ExecutionState*] is an address ([ptr]); the objects live in a store
      ([heap]) so that the aliasing of the C++ code is kept.
    - [unsigned] fields are [N]; where the code increments one, the 32-bit
      wrap-around is written out.
    - A call that aborts ([assert], [report_fatal_error]), reads outside a
      buffer, dereferences a null pointer, leaves a non-void function without
      [return], or does not terminate yields [Fail] with the reason. *)

From stdpp Require Import gmap strings list fin_maps.
From Stdlib Require Import Ascii NArith ZArith Lia.

Local Open Scope N_scope.

(** ** Abnormal termination *)

Inductive Err :=
| AssertionFailure   (* assert(...) failed *)
| FatalError         (* llvm::report_fatal_error / llvm_unreachable *)
| OutOfBounds        (* read or write outside a vector or a buffer *)
| NullDereference    (* use of a null or dangling ExecutionState* *)
| MissingReturn      (* control reached the end of a non-void function *)
| NoTermination.     (* the C++ loop does not terminate *)

Inductive Res (A : Type) :=
| Ok (a : A)
| Fail (e : Err).
Arguments Ok {A} a.
Arguments Fail {A} e.

#[global] Instance Res_ret : MRet Res := fun A a => Ok a.
#[global] Instance Res_bind : MBind Res := fun A B f m =>
  match m with
  | Ok a => f a
  | Fail e => Fail e
  end.

Definition assert (b : bool) : Res unit :=
  if b then Ok tt else Fail AssertionFailure.

Definition is_Ok {A} (r : Res A) : Prop :=
  match r with Ok _ => True | Fail _ => False end.

(** ** Expressions

    Modelled from the spec: [klee/Expr.h] is not part of the sources at hand.
    Only the distinction the executor itself makes is kept: an expression is a
    [ConstantExpr] or it is not, and [Expr::createIsZero] builds the negation
    (folding constants). *)

Inductive Expr :=
| ConstantExpr (v : Z)
| SymbolicExpr (id : N)
| IsZeroExpr (e : Expr)
| EqExpr (a b : Expr).

#[global] Instance Expr_eq_dec : EqDecision Expr.
Proof. solve_decision. Defined.

Definition isConstantExpr (e : Expr) : bool :=
  match e with ConstantExpr _ => true | _ => false end.

Definition createIsZero (e : Expr) : Expr :=
  match e with
  | ConstantExpr v => ConstantExpr (if (v =? 0)%Z then 1 else 0)
  | _ => IsZeroExpr e
  end.

(** ** ExecutionState.h *)

(** An [ExecutionState*]. *)
Abbreviation ptr := nat (only parsing).

Definition NORMAL_STATE : N := 1.     (* 1 << 0 *)
Definition RECOVERY_STATE : N := 2.   (* 1 << 1 *)

Record Snapshot := {
  snap_state : ptr;          (* ref<ExecutionState> state *)
  snap_f : N                 (* llvm::Function *f *)
}.

Record RecoveryInfo := {
  loadInst : N;
  loadAddr : N;
  loadSize : N;
  ri_f : N;
  sliceId : N;
  ri_snapshot : Snapshot;
  snapshotIndex : N;
  subId : N
}.

Record WrittenAddressInfo := {
  maxSize : N;
  wa_snapshotIndex : N
}.

Inductive Priority := PRIORITY_LOW | PRIORITY_HIGH.

(** Modelled from the spec: [AddressSpace] and [ObjectState]
    ([lib/Core/AddressSpace.h], [Memory.h]) are not part of the sources at
    hand.  An address space maps memory objects to per-object stores; a store
    records the value written at each offset. *)
Definition ObjectState := gmap N Expr.
Abbreviation AddressSpace := (gmap N ObjectState).

(** [AllocationRecord] ([klee/AllocationRecord.h]) is only copied by the code
    modelled here; its content is an association from allocation contexts to
    memory objects. *)
Definition AllocationRecord := list (N * N).

Record ExecutionState := {
  type : N;
  (* normal state properties *)
  suspendStatus : bool;
  snapshots : list Snapshot;
  recoveryState : option ptr;
  blockingLoadStatus : bool;
  recoveredLoads : gset N;
  allocationRecord : AllocationRecord;
  guidingConstraints : list Expr;
  writtenAddresses : gmap N WrittenAddressInfo;
  pendingRecoveryInfos : list RecoveryInfo;
  recoveryCache : gmap (N * N) (gmap N (option Expr));
  (* recovery state properties *)
  exitInst : option N;
  dependentState : option ptr;
  originatingState : option ptr;
  recoveryInfo : option RecoveryInfo;
  guidingAllocationRecord : AllocationRecord;
  level : N;
  priority : Priority;
  (* public members *)
  pc : N;
  prevPC : N;
  addressSpace : AddressSpace;
  constraints : list Expr;
  depth : N;
  actDepth : N;
  prefixes : list (string * N);
  branchHist : list ascii;
  forkDisabled : bool
}.

Definition isNormalState (s : ExecutionState) : bool :=
  negb (N.land (type s) NORMAL_STATE =? 0).

Definition isRecoveryState (s : ExecutionState) : bool :=
  negb (N.land (type s) RECOVERY_STATE =? 0).

Definition isSuspended (s : ExecutionState) : bool := suspendStatus s.

(** [depth++] on an [unsigned]. *)
Definition incr32 (n : N) : N := (n + 1) mod 2 ^ 32.

(** A prefix is a [char*] to a [malloc]ed block that holds exactly the
    characters of the string, paired with its length.  The code also reads
    such a block one or more characters past its end (for instance
    [removeFalsePrefixes] at [depth] equal to the prefix length).  C++ leaves
    that read undefined; the model lets it return an unspecified byte,
    [oob_byte s i], so that every statement holds whatever is found there. *)
Class UnspecifiedBytes := oob_byte : string → nat → ascii.

Definition prefixAt {UB : UnspecifiedBytes} (p : string * N) (d : N) : ascii :=
  match String.get (N.to_nat d) p.1 with
  | Some c => c
  | None => oob_byte p.1 (N.to_nat d)
  end.

Definition shallIRange (s : ExecutionState) : bool :=
  match prefixes s with
  | [] => false
  | ps => existsb (fun p => depth s <? p.2) ps
  end.

(** The [for] loop of [branchToTake] over [prefixes[1..]]: [Some 2] when it
    returns from inside the loop, [None] when it runs to its end. *)
Fixpoint branchToTake_loop {UB : UnspecifiedBytes} (p0 : string * N)
    (rest : list (string * N)) (d : N) : Res (option Z) :=
  match rest with
  | [] => Ok None
  | px :: rest' =>
      let cx := prefixAt px d in
      let c0 := prefixAt p0 d in
      if negb (Ascii.eqb cx c0) then
        _ ← assert (negb (Ascii.eqb cx "2" && Ascii.eqb cx "3"));
        _ ← assert (negb (Ascii.eqb c0 "2" && Ascii.eqb c0 "3"));
        Ok (Some 2%Z)
      else branchToTake_loop p0 rest' d
  end.

(** [int branchToTake(bool& forkAndSuspend)]: the returned pair is the
    function's value and the value left in [forkAndSuspend]. *)
Definition branchToTake {UB : UnspecifiedBytes} (s : ExecutionState)
    : Res (Z * bool) :=
  match prefixes s with
  | [] => Fail OutOfBounds
  | p0 :: rest =>
      _ ← assert (depth s <? p0.2);
      r ← branchToTake_loop p0 rest (depth s);
      match r with
      | Some v => Ok (v, false)
      | None =>
          let c0 := prefixAt p0 (depth s) in
          if Ascii.eqb c0 "0" then Ok (0%Z, true)
          else if Ascii.eqb c0 "1" then Ok (1%Z, true)
          else if Ascii.eqb c0 "2" then Ok (0%Z, false)
          else if Ascii.eqb c0 "3" then Ok (1%Z, false)
          else Fail MissingReturn
      end
  end.

Definition digit (c : ascii) : bool :=
  Ascii.eqb c "0" || Ascii.eqb c "1" || Ascii.eqb c "2" || Ascii.eqb c "3".

(** *** Field updates

    C++ assigns to one member at a time; [set_f v s] is [s] with member [f]
    replaced by [v]. *)

Definition set_type v (s : ExecutionState) : ExecutionState :=
  {| type := v; suspendStatus := suspendStatus s; snapshots := snapshots s;
     recoveryState := recoveryState s;
     blockingLoadStatus := blockingLoadStatus s;
     recoveredLoads := recoveredLoads s;
     allocationRecord := allocationRecord s;
     guidingConstraints := guidingConstraints s;
     writtenAddresses := writtenAddresses s;
     pendingRecoveryInfos := pendingRecoveryInfos s;
     recoveryCache := recoveryCache s; exitInst := exitInst s;
     dependentState := dependentState s;
     originatingState := originatingState s; recoveryInfo := recoveryInfo s;
     guidingAllocationRecord := guidingAllocationRecord s; level := level s;
     priority := priority s; pc := pc s; prevPC := prevPC s;
     addressSpace := addressSpace s; constraints := constraints s;
     depth := depth s; actDepth := actDepth s; prefixes := prefixes s;
     branchHist := branchHist s; forkDisabled := forkDisabled s |}.

Definition set_suspendStatus v (s : ExecutionState) : ExecutionState :=
  {| type := type s; suspendStatus := v; snapshots := snapshots s;
     recoveryState := recoveryState s;
     blockingLoadStatus := blockingLoadStatus s;
     recoveredLoads := recoveredLoads s;
     allocationRecord := allocationRecord s;
     guidingConstraints := guidingConstraints s;
     writtenAddresses := writtenAddresses s;
     pendingRecoveryInfos := pendingRecoveryInfos s;
     recoveryCache := recoveryCache s; exitInst := exitInst s;
     dependentState := dependentState s;
     originatingState := originatingState s; recoveryInfo := recoveryInfo s;
     guidingAllocationRecord := guidingAllocationRecord s; level := level s;
     priority := priority s; pc := pc s; prevPC := prevPC s;
     addressSpace := addressSpace s; constraints := constraints s;
     depth := depth s; actDepth := actDepth s; prefixes := prefixes s;
     branchHist := branchHist s; forkDisabled := forkDisabled s |}.

Definition set_recoveryState v (s : ExecutionState) : ExecutionState :=
  {| type := type s; suspendStatus := suspendStatus s;
     snapshots := snapshots s; recoveryState := v;
     blockingLoadStatus := blockingLoadStatus s;
     recoveredLoads := recoveredLoads s;
     allocationRecord := allocationRecord s;
     guidingConstraints := guidingConstraints s;
     writtenAddresses := writtenAddresses s;
     pendingRecoveryInfos := pendingRecoveryInfos s;
     recoveryCache := recoveryCache s; exitInst := exitInst s;
     dependentState := dependentState s;
     originatingState := originatingState s; recoveryInfo := recoveryInfo s;
     guidingAllocationRecord := guidingAllocationRecord s; level := level s;
     priority := priority s; pc := pc s; prevPC := prevPC s;
     addressSpace := addressSpace s; constraints := constraints s;
     depth := depth s; actDepth := actDepth s; prefixes := prefixes s;
     branchHist := branchHist s; forkDisabled := forkDisabled s |}.

Definition set_blockingLoadStatus v (s : ExecutionState) : ExecutionState :=
  {| type := type s; suspendStatus := suspendStatus s;
     snapshots := snapshots s; recoveryState := recoveryState s;
     blockingLoadStatus := v; recoveredLoads := recoveredLoads s;
     allocationRecord := allocationRecord s;
     guidingConstraints := guidingConstraints s;
     writtenAddresses := writtenAddresses s;
     pendingRecoveryInfos := pendingRecoveryInfos s;
     recoveryCache := recoveryCache s; exitInst := exitInst s;
     dependentState := dependentState s;
     originatingState := originatingState s; recoveryInfo := recoveryInfo s;
     guidingAllocationRecord := guidingAllocationRecord s; level := level s;
     priority := priority s; pc := pc s; prevPC := prevPC s;
     addressSpace := addressSpace s; constraints := constraints s;
     depth := depth s; actDepth := actDepth s; prefixes := prefixes s;
     branchHist := branchHist s; forkDisabled := forkDisabled s |}.

Definition set_recoveredLoads v (s : ExecutionState) : ExecutionState :=
  {| type := type s; suspendStatus := suspendStatus s;
     snapshots := snapshots s; recoveryState := recoveryState s;
     blockingLoadStatus := blockingLoadStatus s; recoveredLoads := v;
     allocationRecord := allocationRecord s;
     guidingConstraints := guidingConstraints s;
     writtenAddresses := writtenAddresses s;
     pendingRecoveryInfos := pendingRecoveryInfos s;
     recoveryCache := recoveryCache s; exitInst := exitInst s;
     dependentState := dependentState s;
     originatingState := originatingState s; recoveryInfo := recoveryInfo s;
     guidingAllocationRecord := guidingAllocationRecord s; level := level s;
     priority := priority s; pc := pc s; prevPC := prevPC s;
     addressSpace := addressSpace s; constraints := constraints s;
     depth := depth s; actDepth := actDepth s; prefixes := prefixes s;
     branchHist := branchHist s; forkDisabled := forkDisabled s |}.

Definition set_allocationRecord v (s : ExecutionState) : ExecutionState :=
  {| type := type s; suspendStatus := suspendStatus s;
     snapshots := snapshots s; recoveryState := recoveryState s;
     blockingLoadStatus := blockingLoadStatus s;
     recoveredLoads := recoveredLoads s; allocationRecord := v;
     guidingConstraints := guidingConstraints s;
     writtenAddresses := writtenAddresses s;
     pendingRecoveryInfos := pendingRecoveryInfos s;
     recoveryCache := recoveryCache s; exitInst := exitInst s;
     dependentState := dependentState s;
     originatingState := originatingState s; recoveryInfo := recoveryInfo s;
     guidingAllocationRecord := guidingAllocationRecord s; level := level s;
     priority := priority s; pc := pc s; prevPC := prevPC s;
     addressSpace := addressSpace s; constraints := constraints s;
     depth := depth s; actDepth := actDepth s; prefixes := prefixes s;
     branchHist := branchHist s; forkDisabled := forkDisabled s |}.

Definition set_guidingConstraints v (s : ExecutionState) : ExecutionState :=
  {| type := type s; suspendStatus := suspendStatus s;
     snapshots := snapshots s; recoveryState := recoveryState s;
     blockingLoadStatus := blockingLoadStatus s;
     recoveredLoads := recoveredLoads s;
     allocationRecord := allocationRecord s; guidingConstraints := v;
     writtenAddresses := writtenAddresses s;
     pendingRecoveryInfos := pendingRecoveryInfos s;
     recoveryCache := recoveryCache s; exitInst := exitInst s;
     dependentState := dependentState s;
     originatingState := originatingState s; recoveryInfo := recoveryInfo s;
     guidingAllocationRecord := guidingAllocationRecord s; level := level s;
     priority := priority s; pc := pc s; prevPC := prevPC s;
     addressSpace := addressSpace s; constraints := constraints s;
     depth := depth s; actDepth := actDepth s; prefixes := prefixes s;
     branchHist := branchHist s; forkDisabled := forkDisabled s |}.

Definition set_writtenAddresses v (s : ExecutionState) : ExecutionState :=
  {| type := type s; suspendStatus := suspendStatus s;
     snapshots := snapshots s; recoveryState := recoveryState s;
     blockingLoadStatus := blockingLoadStatus s;
     recoveredLoads := recoveredLoads s;
     allocationRecord := allocationRecord s;
     guidingConstraints := guidingConstraints s; writtenAddresses := v;
     pendingRecoveryInfos := pendingRecoveryInfos s;
     recoveryCache := recoveryCache s; exitInst := exitInst s;
     dependentState := dependentState s;
     originatingState := originatingState s; recoveryInfo := recoveryInfo s;
     guidingAllocationRecord := guidingAllocationRecord s; level := level s;
     priority := priority s; pc := pc s; prevPC := prevPC s;
     addressSpace := addressSpace s; constraints := constraints s;
     depth := depth s; actDepth := actDepth s; prefixes := prefixes s;
     branchHist := branchHist s; forkDisabled := forkDisabled s |}.

Definition set_pendingRecoveryInfos v (s : ExecutionState) : ExecutionState :=
  {| type := type s; suspendStatus := suspendStatus s;
     snapshots := snapshots s; recoveryState := recoveryState s;
     blockingLoadStatus := blockingLoadStatus s;
     recoveredLoads := recoveredLoads s;
     allocationRecord := allocationRecord s;
     guidingConstraints := guidingConstraints s;
     writtenAddresses := writtenAddresses s; pendingRecoveryInfos := v;
     recoveryCache := recoveryCache s; exitInst := exitInst s;
     dependentState := dependentState s;
     originatingState := originatingState s; recoveryInfo := recoveryInfo s;
     guidingAllocationRecord := guidingAllocationRecord s; level := level s;
     priority := priority s; pc := pc s; prevPC := prevPC s;
     addressSpace := addressSpace s; constraints := constraints s;
     depth := depth s; actDepth := actDepth s; prefixes := prefixes s;
     branchHist := branchHist s; forkDisabled := forkDisabled s |}.

Definition set_recoveryCache v (s : ExecutionState) : ExecutionState :=
  {| type := type s; suspendStatus := suspendStatus s;
     snapshots := snapshots s; recoveryState := recoveryState s;
     blockingLoadStatus := blockingLoadStatus s;
     recoveredLoads := recoveredLoads s;
     allocationRecord := allocationRecord s;
     guidingConstraints := guidingConstraints s;
     writtenAddresses := writtenAddresses s;
     pendingRecoveryInfos := pendingRecoveryInfos s; recoveryCache := v;
     exitInst := exitInst s; dependentState := dependentState s;
     originatingState := originatingState s; recoveryInfo := recoveryInfo s;
     guidingAllocationRecord := guidingAllocationRecord s; level := level s;
     priority := priority s; pc := pc s; prevPC := prevPC s;
     addressSpace := addressSpace s; constraints := constraints s;
     depth := depth s; actDepth := actDepth s; prefixes := prefixes s;
     branchHist := branchHist s; forkDisabled := forkDisabled s |}.

Definition set_exitInst v (s : ExecutionState) : ExecutionState :=
  {| type := type s; suspendStatus := suspendStatus s;
     snapshots := snapshots s; recoveryState := recoveryState s;
     blockingLoadStatus := blockingLoadStatus s;
     recoveredLoads := recoveredLoads s;
     allocationRecord := allocationRecord s;
     guidingConstraints := guidingConstraints s;
     writtenAddresses := writtenAddresses s;
     pendingRecoveryInfos := pendingRecoveryInfos s;
     recoveryCache := recoveryCache s; exitInst := v;
     dependentState := dependentState s;
     originatingState := originatingState s; recoveryInfo := recoveryInfo s;
     guidingAllocationRecord := guidingAllocationRecord s; level := level s;
     priority := priority s; pc := pc s; prevPC := prevPC s;
     addressSpace := addressSpace s; constraints := constraints s;
     depth := depth s; actDepth := actDepth s; prefixes := prefixes s;
     branchHist := branchHist s; forkDisabled := forkDisabled s |}.

Definition set_dependentState v (s : ExecutionState) : ExecutionState :=
  {| type := type s; suspendStatus := suspendStatus s;
     snapshots := snapshots s; recoveryState := recoveryState s;
     blockingLoadStatus := blockingLoadStatus s;
     recoveredLoads := recoveredLoads s;
     allocationRecord := allocationRecord s;
     guidingConstraints := guidingConstraints s;
     writtenAddresses := writtenAddresses s;
     pendingRecoveryInfos := pendingRecoveryInfos s;
     recoveryCache := recoveryCache s; exitInst := exitInst s;
     dependentState := v; originatingState := originatingState s;
     recoveryInfo := recoveryInfo s;
     guidingAllocationRecord := guidingAllocationRecord s; level := level s;
     priority := priority s; pc := pc s; prevPC := prevPC s;
     addressSpace := addressSpace s; constraints := constraints s;
     depth := depth s; actDepth := actDepth s; prefixes := prefixes s;
     branchHist := branchHist s; forkDisabled := forkDisabled s |}.

Definition set_originatingState v (s : ExecutionState) : ExecutionState :=
  {| type := type s; suspendStatus := suspendStatus s;
     snapshots := snapshots s; recoveryState := recoveryState s;
     blockingLoadStatus := blockingLoadStatus s;
     recoveredLoads := recoveredLoads s;
     allocationRecord := allocationRecord s;
     guidingConstraints := guidingConstraints s;
     writtenAddresses := writtenAddresses s;
     pendingRecoveryInfos := pendingRecoveryInfos s;
     recoveryCache := recoveryCache s; exitInst := exitInst s;
     dependentState := dependentState s; originatingState := v;
     recoveryInfo := recoveryInfo s;
     guidingAllocationRecord := guidingAllocationRecord s; level := level s;
     priority := priority s; pc := pc s; prevPC := prevPC s;
     addressSpace := addressSpace s; constraints := constraints s;
     depth := depth s; actDepth := actDepth s; prefixes := prefixes s;
     branchHist := branchHist s; forkDisabled := forkDisabled s |}.

Definition set_recoveryInfo v (s : ExecutionState) : ExecutionState :=
  {| type := type s; suspendStatus := suspendStatus s;
     snapshots := snapshots s; recoveryState := recoveryState s;
     blockingLoadStatus := blockingLoadStatus s;
     recoveredLoads := recoveredLoads s;
     allocationRecord := allocationRecord s;
     guidingConstraints := guidingConstraints s;
     writtenAddresses := writtenAddresses s;
     pendingRecoveryInfos := pendingRecoveryInfos s;
     recoveryCache := recoveryCache s; exitInst := exitInst s;
     dependentState := dependentState s;
     originatingState := originatingState s; recoveryInfo := v;
     guidingAllocationRecord := guidingAllocationRecord s; level := level s;
     priority := priority s; pc := pc s; prevPC := prevPC s;
     addressSpace := addressSpace s; constraints := constraints s;
     depth := depth s; actDepth := actDepth s; prefixes := prefixes s;
     branchHist := branchHist s; forkDisabled := forkDisabled s |}.

Definition set_guidingAllocationRecord v (s : ExecutionState) : ExecutionState :=
  {| type := type s; suspendStatus := suspendStatus s;
     snapshots := snapshots s; recoveryState := recoveryState s;
     blockingLoadStatus := blockingLoadStatus s;
     recoveredLoads := recoveredLoads s;
     allocationRecord := allocationRecord s;
     guidingConstraints := guidingConstraints s;
     writtenAddresses := writtenAddresses s;
     pendingRecoveryInfos := pendingRecoveryInfos s;
     recoveryCache := recoveryCache s; exitInst := exitInst s;
     dependentState := dependentState s;
     originatingState := originatingState s; recoveryInfo := recoveryInfo s;
     guidingAllocationRecord := v; level := level s; priority := priority s;
     pc := pc s; prevPC := prevPC s; addressSpace := addressSpace s;
     constraints := constraints s; depth := depth s; actDepth := actDepth s;
     prefixes := prefixes s; branchHist := branchHist s;
     forkDisabled := forkDisabled s |}.

Definition set_level v (s : ExecutionState) : ExecutionState :=
  {| type := type s; suspendStatus := suspendStatus s;
     snapshots := snapshots s; recoveryState := recoveryState s;
     blockingLoadStatus := blockingLoadStatus s;
     recoveredLoads := recoveredLoads s;
     allocationRecord := allocationRecord s;
     guidingConstraints := guidingConstraints s;
     writtenAddresses := writtenAddresses s;
     pendingRecoveryInfos := pendingRecoveryInfos s;
     recoveryCache := recoveryCache s; exitInst := exitInst s;
     dependentState := dependentState s;
     originatingState := originatingState s; recoveryInfo := recoveryInfo s;
     guidingAllocationRecord := guidingAllocationRecord s; level := v;
     priority := priority s; pc := pc s; prevPC := prevPC s;
     addressSpace := addressSpace s; constraints := constraints s;
     depth := depth s; actDepth := actDepth s; prefixes := prefixes s;
     branchHist := branchHist s; forkDisabled := forkDisabled s |}.

Definition set_priority v (s : ExecutionState) : ExecutionState :=
  {| type := type s; suspendStatus := suspendStatus s;
     snapshots := snapshots s; recoveryState := recoveryState s;
     blockingLoadStatus := blockingLoadStatus s;
     recoveredLoads := recoveredLoads s;
     allocationRecord := allocationRecord s;
     guidingConstraints := guidingConstraints s;
     writtenAddresses := writtenAddresses s;
     pendingRecoveryInfos := pendingRecoveryInfos s;
     recoveryCache := recoveryCache s; exitInst := exitInst s;
     dependentState := dependentState s;
     originatingState := originatingState s; recoveryInfo := recoveryInfo s;
     guidingAllocationRecord := guidingAllocationRecord s; level := level s;
     priority := v; pc := pc s; prevPC := prevPC s;
     addressSpace := addressSpace s; constraints := constraints s;
     depth := depth s; actDepth := actDepth s; prefixes := prefixes s;
     branchHist := branchHist s; forkDisabled := forkDisabled s |}.

Definition set_pc v (s : ExecutionState) : ExecutionState :=
  {| type := type s; suspendStatus := suspendStatus s;
     snapshots := snapshots s; recoveryState := recoveryState s;
     blockingLoadStatus := blockingLoadStatus s;
     recoveredLoads := recoveredLoads s;
     allocationRecord := allocationRecord s;
     guidingConstraints := guidingConstraints s;
     writtenAddresses := writtenAddresses s;
     pendingRecoveryInfos := pendingRecoveryInfos s;
     recoveryCache := recoveryCache s; exitInst := exitInst s;
     dependentState := dependentState s;
     originatingState := originatingState s; recoveryInfo := recoveryInfo s;
     guidingAllocationRecord := guidingAllocationRecord s; level := level s;
     priority := priority s; pc := v; prevPC := prevPC s;
     addressSpace := addressSpace s; constraints := constraints s;
     depth := depth s; actDepth := actDepth s; prefixes := prefixes s;
     branchHist := branchHist s; forkDisabled := forkDisabled s |}.

Definition set_addressSpace v (s : ExecutionState) : ExecutionState :=
  {| type := type s; suspendStatus := suspendStatus s;
     snapshots := snapshots s; recoveryState := recoveryState s;
     blockingLoadStatus := blockingLoadStatus s;
     recoveredLoads := recoveredLoads s;
     allocationRecord := allocationRecord s;
     guidingConstraints := guidingConstraints s;
     writtenAddresses := writtenAddresses s;
     pendingRecoveryInfos := pendingRecoveryInfos s;
     recoveryCache := recoveryCache s; exitInst := exitInst s;
     dependentState := dependentState s;
     originatingState := originatingState s; recoveryInfo := recoveryInfo s;
     guidingAllocationRecord := guidingAllocationRecord s; level := level s;
     priority := priority s; pc := pc s; prevPC := prevPC s;
     addressSpace := v; constraints := constraints s; depth := depth s;
     actDepth := actDepth s; prefixes := prefixes s;
     branchHist := branchHist s; forkDisabled := forkDisabled s |}.

Definition set_constraints v (s : ExecutionState) : ExecutionState :=
  {| type := type s; suspendStatus := suspendStatus s;
     snapshots := snapshots s; recoveryState := recoveryState s;
     blockingLoadStatus := blockingLoadStatus s;
     recoveredLoads := recoveredLoads s;
     allocationRecord := allocationRecord s;
     guidingConstraints := guidingConstraints s;
     writtenAddresses := writtenAddresses s;
     pendingRecoveryInfos := pendingRecoveryInfos s;
     recoveryCache := recoveryCache s; exitInst := exitInst s;
     dependentState := dependentState s;
     originatingState := originatingState s; recoveryInfo := recoveryInfo s;
     guidingAllocationRecord := guidingAllocationRecord s; level := level s;
     priority := priority s; pc := pc s; prevPC := prevPC s;
     addressSpace := addressSpace s; constraints := v; depth := depth s;
     actDepth := actDepth s; prefixes := prefixes s;
     branchHist := branchHist s; forkDisabled := forkDisabled s |}.

Definition set_depth v (s : ExecutionState) : ExecutionState :=
  {| type := type s; suspendStatus := suspendStatus s;
     snapshots := snapshots s; recoveryState := recoveryState s;
     blockingLoadStatus := blockingLoadStatus s;
     recoveredLoads := recoveredLoads s;
     allocationRecord := allocationRecord s;
     guidingConstraints := guidingConstraints s;
     writtenAddresses := writtenAddresses s;
     pendingRecoveryInfos := pendingRecoveryInfos s;
     recoveryCache := recoveryCache s; exitInst := exitInst s;
     dependentState := dependentState s;
     originatingState := originatingState s; recoveryInfo := recoveryInfo s;
     guidingAllocationRecord := guidingAllocationRecord s; level := level s;
     priority := priority s; pc := pc s; prevPC := prevPC s;
     addressSpace := addressSpace s; constraints := constraints s;
     depth := v; actDepth := actDepth s; prefixes := prefixes s;
     branchHist := branchHist s; forkDisabled := forkDisabled s |}.

Definition set_prefixes v (s : ExecutionState) : ExecutionState :=
  {| type := type s; suspendStatus := suspendStatus s;
     snapshots := snapshots s; recoveryState := recoveryState s;
     blockingLoadStatus := blockingLoadStatus s;
     recoveredLoads := recoveredLoads s;
     allocationRecord := allocationRecord s;
     guidingConstraints := guidingConstraints s;
     writtenAddresses := writtenAddresses s;
     pendingRecoveryInfos := pendingRecoveryInfos s;
     recoveryCache := recoveryCache s; exitInst := exitInst s;
     dependentState := dependentState s;
     originatingState := originatingState s; recoveryInfo := recoveryInfo s;
     guidingAllocationRecord := guidingAllocationRecord s; level := level s;
     priority := priority s; pc := pc s; prevPC := prevPC s;
     addressSpace := addressSpace s; constraints := constraints s;
     depth := depth s; actDepth := actDepth s; prefixes := v;
     branchHist := branchHist s; forkDisabled := forkDisabled s |}.

Definition set_branchHist v (s : ExecutionState) : ExecutionState :=
  {| type := type s; suspendStatus := suspendStatus s;
     snapshots := snapshots s; recoveryState := recoveryState s;
     blockingLoadStatus := blockingLoadStatus s;
     recoveredLoads := recoveredLoads s;
     allocationRecord := allocationRecord s;
     guidingConstraints := guidingConstraints s;
     writtenAddresses := writtenAddresses s;
     pendingRecoveryInfos := pendingRecoveryInfos s;
     recoveryCache := recoveryCache s; exitInst := exitInst s;
     dependentState := dependentState s;
     originatingState := originatingState s; recoveryInfo := recoveryInfo s;
     guidingAllocationRecord := guidingAllocationRecord s; level := level s;
     priority := priority s; pc := pc s; prevPC := prevPC s;
     addressSpace := addressSpace s; constraints := constraints s;
     depth := depth s; actDepth := actDepth s; prefixes := prefixes s;
     branchHist := v; forkDisabled := forkDisabled s |}.

(** *** Member functions of [ExecutionState] *)

Definition setSuspended (s : ExecutionState) : Res ExecutionState :=
  _ ← assert (isNormalState s); Ok (set_suspendStatus true s).

Definition setResumed (s : ExecutionState) : Res ExecutionState :=
  _ ← assert (isNormalState s); Ok (set_suspendStatus false s).

Definition getSnapshots (s : ExecutionState) : Res (list Snapshot) :=
  _ ← assert (isNormalState s); Ok (snapshots s).

Definition setRecoveryState (r : option ptr) (rIsRecovery : bool)
    (s : ExecutionState) : Res ExecutionState :=
  _ ← assert (isNormalState s);
  _ ← (if r is Some _ then assert rIsRecovery else Ok tt);
  Ok (set_recoveryState r s).

Definition markLoadAsUnrecovered (s : ExecutionState) : Res ExecutionState :=
  _ ← assert (isNormalState s); Ok (set_blockingLoadStatus false s).

Definition markLoadAsRecovered (s : ExecutionState) : Res ExecutionState :=
  _ ← assert (isNormalState s); Ok (set_blockingLoadStatus true s).

Definition addRecoveredAddress (a : N) (s : ExecutionState)
    : Res ExecutionState :=
  _ ← assert (isNormalState s);
  Ok (set_recoveredLoads ({[a]} ∪ recoveredLoads s) s).

Definition clearRecoveredAddresses (s : ExecutionState) : Res ExecutionState :=
  _ ← assert (isNormalState s); Ok (set_recoveredLoads ∅ s).

Definition getDependentState (s : ExecutionState) : Res (option ptr) :=
  _ ← assert (isRecoveryState s); Ok (dependentState s).

Definition setDependentState (d : ptr) (dIsNormal : bool)
    (s : ExecutionState) : Res ExecutionState :=
  _ ← assert (isRecoveryState s);
  _ ← assert dIsNormal;
  Ok (set_dependentState (Some d) s).

Definition getOriginatingState (s : ExecutionState) : Res (option ptr) :=
  _ ← assert (isRecoveryState s); Ok (originatingState s).

Definition setOriginatingState (o : ptr) (oIsNormal : bool)
    (s : ExecutionState) : Res ExecutionState :=
  _ ← assert (isRecoveryState s);
  _ ← assert oIsNormal;
  Ok (set_originatingState (Some o) s).

Definition getRecoveryInfo (s : ExecutionState) : Res (option RecoveryInfo) :=
  _ ← assert (isRecoveryState s); Ok (recoveryInfo s).

Definition getAllocationRecord (s : ExecutionState) : Res AllocationRecord :=
  _ ← assert (isNormalState s); Ok (allocationRecord s).

Definition setAllocationRecord (r : AllocationRecord) (s : ExecutionState)
    : Res ExecutionState :=
  _ ← assert (isNormalState s); Ok (set_allocationRecord r s).

Definition setGuidingAllocationRecord (r : AllocationRecord)
    (s : ExecutionState) : Res ExecutionState :=
  _ ← assert (isRecoveryState s); Ok (set_guidingAllocationRecord r s).

(** [guidingConstraints] is a [std::set]: inserting a member again changes
    nothing.  The list keeps insertion order, not the order of
    [Expr::compare]. *)
Definition addGuidingConstraint (e : Expr) (s : ExecutionState)
    : Res ExecutionState :=
  _ ← assert (isNormalState s);
  Ok (if decide (e ∈ guidingConstraints s) then s
      else set_guidingConstraints (guidingConstraints s ++ [e]) s).

(** Modelled from the spec: [ConstraintManager::addConstraint]
    ([klee/Constraints.h] is not part of the sources at hand) appends to the
    ordered path constraints. *)
Definition ConstraintManager_addConstraint (e : Expr) (cs : list Expr)
    : list Expr := cs ++ [e].

(** [ExecutionState::addConstraint]. *)
Definition state_addConstraint (e : Expr) (s : ExecutionState)
    : Res ExecutionState :=
  let s1 := set_constraints (ConstraintManager_addConstraint e (constraints s)) s in
  if isNormalState s1 && negb (isRecoveryState s1) then
    sn ← getSnapshots s1;
    if negb (bool_decide (sn = [])) then addGuidingConstraint e s1 else Ok s1
  else Ok s1.

Definition getWrittenAddressInfo (address loadSz : N) (s : ExecutionState)
    : Res (bool * option WrittenAddressInfo) :=
  _ ← assert (isNormalState s);
  match writtenAddresses s !! address with
  | None => Ok (false, None)
  | Some i => Ok (loadSz <=? maxSize i, Some i)
  end.

Definition getStartingIndex (address size : N) (s : ExecutionState) : Res N :=
  r ← getWrittenAddressInfo address size s;
  match r with
  | (true, Some info) => Ok (wa_snapshotIndex info + 1)
  | _ => Ok 0
  end.

Definition hasPendingRecoveryInfo (s : ExecutionState) : bool :=
  negb (bool_decide (pendingRecoveryInfos s = [])).

(** [getPendingRecoveryInfo]: [front()] then [pop_front()]; on an empty list
    both are undefined. *)
Definition getPendingRecoveryInfo (s : ExecutionState)
    : Res (RecoveryInfo * ExecutionState) :=
  match pendingRecoveryInfos s with
  | [] => Fail OutOfBounds
  | ri :: rest => Ok (ri, set_pendingRecoveryInfos rest s)
  end.

Definition getRecoveryCache (s : ExecutionState)
    : Res (gmap (N * N) (gmap N (option Expr))) :=
  _ ← assert (isNormalState s); Ok (recoveryCache s).

Definition setRecoveryCache (c : gmap (N * N) (gmap N (option Expr)))
    (s : ExecutionState) : Res ExecutionState :=
  _ ← assert (isNormalState s); Ok (set_recoveryCache c s).

(** [updateRecoveredValue]: [recoveryCache[key][address] = expr]; a null
    [ref<Expr>] is [None]. *)
Definition updateRecoveredValue (index slice address : N) (expr : option Expr)
    (s : ExecutionState) : ExecutionState :=
  let valuesCache := default ∅ (recoveryCache s !! (index, slice)) in
  set_recoveryCache
    (<[(index, slice) := <[address := expr]> valuesCache]> (recoveryCache s)) s.

(** [getRecoveredValue]: [None] when the function returns [false], otherwise
    the cached [ref<Expr>] (possibly null). *)
Definition getRecoveredValue (index slice address : N) (s : ExecutionState)
    : option (option Expr) :=
  match recoveryCache s !! (index, slice) with
  | None => None
  | Some valuesCache => valuesCache !! address
  end.

(** [removeFalsePrefixes] / [removeTruePrefixes]: with more than one prefix
    the loop erases every prefix whose character at [depth] is [c]; with
    exactly one prefix, [pop_back] removes it under the same test. *)
Definition removePrefixes {UB : UnspecifiedBytes} (c : ascii) (s : ExecutionState)
    : ExecutionState :=
  set_prefixes
    (filter (λ p, Ascii.eqb (prefixAt p (depth s)) c = false) (prefixes s)) s.

Definition removeFalsePrefixes {UB : UnspecifiedBytes} := removePrefixes "1".
Definition removeTruePrefixes {UB : UnspecifiedBytes} := removePrefixes "0".

Definition clearPrefixes (s : ExecutionState) : ExecutionState :=
  set_prefixes [] s.

(** ** Searcher.h / Searcher.cpp *)

Definition Heap := gmap ptr ExecutionState.

Definition deref (h : gmap ptr ExecutionState) (p : ptr) : Res ExecutionState :=
  match h !! p with
  | Some s => Ok s
  | None => Fail NullDereference
  end.

(** The strategy interface.  [searcher_update h s current added removed] is
    [s->update(current, added, removed)]; [h] gives access to the states the
    pointers refer to. *)
Class Searcher (S : Type) := {
  searcher_selectState : S → Res ptr;
  searcher_update :
    gmap ptr ExecutionState → S → option ptr → list ptr → list ptr → Res S;
  searcher_getSize : S → nat
}.

(** [std::find] followed by [erase(it)]: the first occurrence goes. *)
Fixpoint erase_first (p : ptr) (l : list ptr) : option (list ptr) :=
  match l with
  | [] => None
  | q :: r =>
      if bool_decide (p = q) then Some r
      else r' ← erase_first p r; Some (q :: r')
  end.

(** *** DFSSearcher *)

Definition DFSSearcher := list ptr.

Definition DFS_selectState (s : DFSSearcher) : Res ptr :=
  match last s with
  | Some p => Ok p
  | None => Fail OutOfBounds
  end.

Definition DFS_remove (s : DFSSearcher) (es : ptr) : Res DFSSearcher :=
  match last s with
  | None => Fail OutOfBounds
  | Some b =>
      if bool_decide (es = b) then Ok (removelast s)
      else match erase_first es s with
           | Some s' => Ok s'
           | None => Fail AssertionFailure
           end
  end.

Definition DFS_update (h : gmap ptr ExecutionState) (s : DFSSearcher)
    (current : option ptr) (addedStates removedStates : list ptr)
    : Res DFSSearcher :=
  foldl (λ acc es, s' ← acc; DFS_remove s' es) (Ok (s ++ addedStates))
        removedStates.

#[global] Instance DFS_Searcher : Searcher DFSSearcher := {|
  searcher_selectState := DFS_selectState;
  searcher_update := DFS_update;
  searcher_getSize := length
|}.

(** *** BFSSearcher

    [depthMap] holds [int], [depthStatesMap] is keyed by [unsigned int] and
    [actDepth] is [unsigned]; for depths below [2^31] the conversions between
    them are identities, and all three are [N] here. *)

Record BFSSearcher := {
  bfs_states : list ptr;
  depthMap : gmap ptr N;
  depthStatesMap : gmap N (list ptr);
  currentMinDepth : N
}.

Definition BFS_init : BFSSearcher :=
  {| bfs_states := []; depthMap := ∅; depthStatesMap := ∅;
     currentMinDepth := 0 |}.

Definition BFS_selectState (s : BFSSearcher) : Res ptr :=
  match depthStatesMap s !! currentMinDepth s with
  | None => Fail AssertionFailure
  | Some [] => Fail OutOfBounds
  | Some (p :: _) => Ok p
  end.

Definition BFS_insertIntoDepthStateMap (h : gmap ptr ExecutionState)
    (s : BFSSearcher) (current : ptr) : Res BFSSearcher :=
  st ← deref h current;
  let states1 :=
    if decide (current ∈ bfs_states s) then bfs_states s
    else bfs_states s ++ [current] in
  let depth := actDepth st in
  let min1 :=
    if bool_decide (size (depthMap s) = 0%nat) then actDepth st
    else currentMinDepth s in
  let depthMap1 := <[current := depth]> (depthMap s) in
  match depthStatesMap s !! depth with
  | None =>
      Ok {| bfs_states := states1; depthMap := depthMap1;
            depthStatesMap := <[depth := [current]]> (depthStatesMap s);
            currentMinDepth :=
              if actDepth st <? min1 then actDepth st else min1 |}
  | Some listofStates =>
      Ok {| bfs_states := states1; depthMap := depthMap1;
            depthStatesMap :=
              <[depth := listofStates ++ [current]]> (depthStatesMap s);
            currentMinDepth := min1 |}
  end.

(** [while(depthStatesMap.find(tryDepth) == end) tryDepth++;].  Beyond the
    largest key the search cannot succeed, and the loop runs on. *)
Fixpoint BFS_tryDepth (m : gmap N (list ptr)) (tryDepth : N) (fuel : nat)
    : Res N :=
  match fuel with
  | O => Fail NoTermination
  | S fuel' =>
      match m !! tryDepth with
      | Some _ => Ok tryDepth
      | None => BFS_tryDepth m (tryDepth + 1) fuel'
      end
  end.

Definition maxKey (m : gmap N (list ptr)) : N :=
  map_fold (λ k _ acc, N.max k acc) 0 m.

Definition BFS_removeFromDepthStateMap (h : gmap ptr ExecutionState)
    (s : BFSSearcher) (current : ptr) : Res BFSSearcher :=
  match erase_first current (bfs_states s) with
  | None => Fail AssertionFailure
  | Some states1 =>
      (* [depthMap[current]] default-constructs a missing entry *)
      let oldDepth := default 0 (depthMap s !! current) in
      _ ← deref h current;       (* int depth = current->actDepth; *)
      match depthStatesMap s !! oldDepth with
      | None => Fail AssertionFailure
      | Some listofStates =>
          match erase_first current listofStates with
          | None => Fail AssertionFailure
          | Some [] =>
              let m1 := delete oldDepth (depthStatesMap s) in
              min1 ←
                (if oldDepth =? currentMinDepth s then
                   BFS_tryDepth m1 (currentMinDepth s + 1)
                     (S (N.to_nat (maxKey m1 - (currentMinDepth s + 1))))
                 else Ok (currentMinDepth s));
              Ok {| bfs_states := states1;
                    depthMap := delete current (depthMap s);
                    depthStatesMap := m1;
                    currentMinDepth := min1 |}
          | Some l1 =>
              Ok {| bfs_states := states1;
                    depthMap := delete current (depthMap s);
                    depthStatesMap := <[oldDepth := l1]> (depthStatesMap s);
                    currentMinDepth := currentMinDepth s |}
          end
      end
  end.

Definition BFS_updateDepthStateMap (h : gmap ptr ExecutionState)
    (s : BFSSearcher) (current : ptr) (oldDepth : N) : Res BFSSearcher :=
  st ← deref h current;
  let newDepth := actDepth st in
  match depthStatesMap s !! oldDepth with
  | None => Fail AssertionFailure
  | Some listofStates =>
      match erase_first current listofStates with
      | None => Fail AssertionFailure
      | Some [] =>
          BFS_insertIntoDepthStateMap h
            {| bfs_states := bfs_states s; depthMap := depthMap s;
               depthStatesMap := delete oldDepth (depthStatesMap s);
               currentMinDepth :=
                 if currentMinDepth s <=? oldDepth then newDepth
                 else currentMinDepth s |}
            current
      | Some l1 =>
          BFS_insertIntoDepthStateMap h
            {| bfs_states := bfs_states s; depthMap := depthMap s;
               depthStatesMap := <[oldDepth := l1]> (depthStatesMap s);
               currentMinDepth := currentMinDepth s |}
            current
      end
  end.

Definition BFS_update (h : gmap ptr ExecutionState) (s : BFSSearcher)
    (current : option ptr) (addedStates removedStates : list ptr)
    : Res BFSSearcher :=
  s1 ←
    match current with
    | None => Ok s
    | Some c =>
        match depthMap s !! c with
        | None => Ok s
        | Some d =>
            st ← deref h c;
            if negb (d =? actDepth st) then
              s' ← BFS_updateDepthStateMap h s c d;
              Ok {| bfs_states := bfs_states s';
                    depthMap := <[c := actDepth st]> (depthMap s');
                    depthStatesMap := depthStatesMap s';
                    currentMinDepth := currentMinDepth s' |}
            else Ok s
        end
    end;
  s2 ← foldl (λ acc es, s' ← acc; BFS_removeFromDepthStateMap h s' es)
             (Ok s1) removedStates;
  foldl (λ acc es, s' ← acc; BFS_insertIntoDepthStateMap h s' es)
        (Ok s2) addedStates.

#[global] Instance BFS_Searcher : Searcher BFSSearcher := {|
  searcher_selectState := BFS_selectState;
  searcher_update := BFS_update;
  searcher_getSize := λ s, length (bfs_states s)
|}.

(** ** PrefixTree.h / PrefixTree.cpp *)

(** A [Node*]; [PTNull] is [nullptr]. *)
Inductive PrefixTree :=
| PTNull
| PTNode (left right : PrefixTree).

Definition orNewNode (t : PrefixTree) : PrefixTree :=
  match t with
  | PTNull => PTNode PTNull PTNull
  | _ => t
  end.

Fixpoint addToTree (inPath : list ascii) (current : PrefixTree) : PrefixTree :=
  match inPath, current with
  | c :: rest, PTNode l r =>
      if Ascii.eqb c "0" then PTNode (addToTree rest (orNewNode l)) r
      else PTNode l (addToTree rest (orNewNode r))
  | _, _ => current
  end.

(** ** Executor.h / Executor.cpp *)

Inductive Validity := Solver_True | Solver_False | Solver_Unknown.

(** What the modelled functions read but never write: the rank of the
    process, command-line options, the memory-pressure flag, and the two
    external collaborators (solver and random number generator).
    [solver_evaluate st e] is [None] when [solver->evaluate] reports failure.
    KLEE's seeding mode ([seedMap]) and the static fork-percentage heuristics
    at the head of [fork] are outside the model: no state has seeds and the
    [MaxStatic*Pct] options keep their default [1.0]. *)
Record Config := {
  coreId : N;
  replayPath : option (list bool);
  replayKTest : bool;
  MaxMemoryInhibit : bool;
  atMemoryLimit : bool;
  inhibitForking : bool;
  MaxForks : N;
  solver_evaluate : ExecutionState → Expr → option Validity;
  theRNG_getBool : nat → bool
}.

Definition START_PREFIX_TASK : N := 0.
Definition KILL : N := 1.
Definition OFFLOAD : N := 3.
Definition OFFLOAD_RESP : N := 4.

(** [std::set<ExecutionState*>]: iteration is in ascending address order. *)
Fixpoint set_insert (p : ptr) (l : list ptr) : list ptr :=
  match l with
  | [] => [p]
  | q :: r =>
      if (p <? q)%nat then p :: l
      else if (p =? q)%nat then l
      else q :: set_insert p r
  end.

Definition set_erase (p : ptr) (l : list ptr) : list ptr :=
  filter (λ q, q ≠ p) l.

Section Executor.
Context {S : Type} {SS : Searcher S} {UB : UnspecifiedBytes}.

Record Executor := {
  heap : gmap ptr ExecutionState;
  states : list ptr;
  searcher : S;
  addedStates : list ptr;
  removedStates : list ptr;
  rangingSuspendedStates : list ptr;
  suspendedStates : list ptr;
  resumedStates : list ptr;
  nonRecoveryStates : gset ptr;
  prefixSuspendedStatesMap : gmap string ptr;
  prefixTree : PrefixTree;
  haltExecution : bool;
  haltFromMaster : bool;
  ready2Offload : bool;
  waiting4OffloadReq : bool;
  replayPosition : nat;
  forks : N;                            (* stats::forks *)
  rngPos : nat;                         (* draws taken from theRNG *)
  mpiInbox : list (N * list ascii);     (* pending messages from the master *)
  mpiSent : list (N * list ascii);      (* messages sent to the master *)
  config : Config
}.

Definition with_heap v (ex : Executor) : Executor :=
  {| heap := v; states := states ex; searcher := searcher ex;
     addedStates := addedStates ex; removedStates := removedStates ex;
     rangingSuspendedStates := rangingSuspendedStates ex;
     suspendedStates := suspendedStates ex;
     resumedStates := resumedStates ex;
     nonRecoveryStates := nonRecoveryStates ex;
     prefixSuspendedStatesMap := prefixSuspendedStatesMap ex;
     prefixTree := prefixTree ex; haltExecution := haltExecution ex;
     haltFromMaster := haltFromMaster ex; ready2Offload := ready2Offload ex;
     waiting4OffloadReq := waiting4OffloadReq ex;
     replayPosition := replayPosition ex; forks := forks ex;
     rngPos := rngPos ex; mpiInbox := mpiInbox ex; mpiSent := mpiSent ex;
     config := config ex |}.

Definition with_states v (ex : Executor) : Executor :=
  {| heap := heap ex; states := v; searcher := searcher ex;
     addedStates := addedStates ex; removedStates := removedStates ex;
     rangingSuspendedStates := rangingSuspendedStates ex;
     suspendedStates := suspendedStates ex;
     resumedStates := resumedStates ex;
     nonRecoveryStates := nonRecoveryStates ex;
     prefixSuspendedStatesMap := prefixSuspendedStatesMap ex;
     prefixTree := prefixTree ex; haltExecution := haltExecution ex;
     haltFromMaster := haltFromMaster ex; ready2Offload := ready2Offload ex;
     waiting4OffloadReq := waiting4OffloadReq ex;
     replayPosition := replayPosition ex; forks := forks ex;
     rngPos := rngPos ex; mpiInbox := mpiInbox ex; mpiSent := mpiSent ex;
     config := config ex |}.

Definition with_searcher v (ex : Executor) : Executor :=
  {| heap := heap ex; states := states ex; searcher := v;
     addedStates := addedStates ex; removedStates := removedStates ex;
     rangingSuspendedStates := rangingSuspendedStates ex;
     suspendedStates := suspendedStates ex;
     resumedStates := resumedStates ex;
     nonRecoveryStates := nonRecoveryStates ex;
     prefixSuspendedStatesMap := prefixSuspendedStatesMap ex;
     prefixTree := prefixTree ex; haltExecution := haltExecution ex;
     haltFromMaster := haltFromMaster ex; ready2Offload := ready2Offload ex;
     waiting4OffloadReq := waiting4OffloadReq ex;
     replayPosition := replayPosition ex; forks := forks ex;
     rngPos := rngPos ex; mpiInbox := mpiInbox ex; mpiSent := mpiSent ex;
     config := config ex |}.

Definition with_addedStates v (ex : Executor) : Executor :=
  {| heap := heap ex; states := states ex; searcher := searcher ex;
     addedStates := v; removedStates := removedStates ex;
     rangingSuspendedStates := rangingSuspendedStates ex;
     suspendedStates := suspendedStates ex;
     resumedStates := resumedStates ex;
     nonRecoveryStates := nonRecoveryStates ex;
     prefixSuspendedStatesMap := prefixSuspendedStatesMap ex;
     prefixTree := prefixTree ex; haltExecution := haltExecution ex;
     haltFromMaster := haltFromMaster ex; ready2Offload := ready2Offload ex;
     waiting4OffloadReq := waiting4OffloadReq ex;
     replayPosition := replayPosition ex; forks := forks ex;
     rngPos := rngPos ex; mpiInbox := mpiInbox ex; mpiSent := mpiSent ex;
     config := config ex |}.

Definition with_removedStates v (ex : Executor) : Executor :=
  {| heap := heap ex; states := states ex; searcher := searcher ex;
     addedStates := addedStates ex; removedStates := v;
     rangingSuspendedStates := rangingSuspendedStates ex;
     suspendedStates := suspendedStates ex;
     resumedStates := resumedStates ex;
     nonRecoveryStates := nonRecoveryStates ex;
     prefixSuspendedStatesMap := prefixSuspendedStatesMap ex;
     prefixTree := prefixTree ex; haltExecution := haltExecution ex;
     haltFromMaster := haltFromMaster ex; ready2Offload := ready2Offload ex;
     waiting4OffloadReq := waiting4OffloadReq ex;
     replayPosition := replayPosition ex; forks := forks ex;
     rngPos := rngPos ex; mpiInbox := mpiInbox ex; mpiSent := mpiSent ex;
     config := config ex |}.

Definition with_rangingSuspendedStates v (ex : Executor) : Executor :=
  {| heap := heap ex; states := states ex; searcher := searcher ex;
     addedStates := addedStates ex; removedStates := removedStates ex;
     rangingSuspendedStates := v; suspendedStates := suspendedStates ex;
     resumedStates := resumedStates ex;
     nonRecoveryStates := nonRecoveryStates ex;
     prefixSuspendedStatesMap := prefixSuspendedStatesMap ex;
     prefixTree := prefixTree ex; haltExecution := haltExecution ex;
     haltFromMaster := haltFromMaster ex; ready2Offload := ready2Offload ex;
     waiting4OffloadReq := waiting4OffloadReq ex;
     replayPosition := replayPosition ex; forks := forks ex;
     rngPos := rngPos ex; mpiInbox := mpiInbox ex; mpiSent := mpiSent ex;
     config := config ex |}.

Definition with_suspendedStates v (ex : Executor) : Executor :=
  {| heap := heap ex; states := states ex; searcher := searcher ex;
     addedStates := addedStates ex; removedStates := removedStates ex;
     rangingSuspendedStates := rangingSuspendedStates ex;
     suspendedStates := v; resumedStates := resumedStates ex;
     nonRecoveryStates := nonRecoveryStates ex;
     prefixSuspendedStatesMap := prefixSuspendedStatesMap ex;
     prefixTree := prefixTree ex; haltExecution := haltExecution ex;
     haltFromMaster := haltFromMaster ex; ready2Offload := ready2Offload ex;
     waiting4OffloadReq := waiting4OffloadReq ex;
     replayPosition := replayPosition ex; forks := forks ex;
     rngPos := rngPos ex; mpiInbox := mpiInbox ex; mpiSent := mpiSent ex;
     config := config ex |}.

Definition with_resumedStates v (ex : Executor) : Executor :=
  {| heap := heap ex; states := states ex; searcher := searcher ex;
     addedStates := addedStates ex; removedStates := removedStates ex;
     rangingSuspendedStates := rangingSuspendedStates ex;
     suspendedStates := suspendedStates ex; resumedStates := v;
     nonRecoveryStates := nonRecoveryStates ex;
     prefixSuspendedStatesMap := prefixSuspendedStatesMap ex;
     prefixTree := prefixTree ex; haltExecution := haltExecution ex;
     haltFromMaster := haltFromMaster ex; ready2Offload := ready2Offload ex;
     waiting4OffloadReq := waiting4OffloadReq ex;
     replayPosition := replayPosition ex; forks := forks ex;
     rngPos := rngPos ex; mpiInbox := mpiInbox ex; mpiSent := mpiSent ex;
     config := config ex |}.

Definition with_nonRecoveryStates v (ex : Executor) : Executor :=
  {| heap := heap ex; states := states ex; searcher := searcher ex;
     addedStates := addedStates ex; removedStates := removedStates ex;
     rangingSuspendedStates := rangingSuspendedStates ex;
     suspendedStates := suspendedStates ex;
     resumedStates := resumedStates ex; nonRecoveryStates := v;
     prefixSuspendedStatesMap := prefixSuspendedStatesMap ex;
     prefixTree := prefixTree ex; haltExecution := haltExecution ex;
     haltFromMaster := haltFromMaster ex; ready2Offload := ready2Offload ex;
     waiting4OffloadReq := waiting4OffloadReq ex;
     replayPosition := replayPosition ex; forks := forks ex;
     rngPos := rngPos ex; mpiInbox := mpiInbox ex; mpiSent := mpiSent ex;
     config := config ex |}.

Definition with_prefixSuspendedStatesMap v (ex : Executor) : Executor :=
  {| heap := heap ex; states := states ex; searcher := searcher ex;
     addedStates := addedStates ex; removedStates := removedStates ex;
     rangingSuspendedStates := rangingSuspendedStates ex;
     suspendedStates := suspendedStates ex;
     resumedStates := resumedStates ex;
     nonRecoveryStates := nonRecoveryStates ex;
     prefixSuspendedStatesMap := v; prefixTree := prefixTree ex;
     haltExecution := haltExecution ex; haltFromMaster := haltFromMaster ex;
     ready2Offload := ready2Offload ex;
     waiting4OffloadReq := waiting4OffloadReq ex;
     replayPosition := replayPosition ex; forks := forks ex;
     rngPos := rngPos ex; mpiInbox := mpiInbox ex; mpiSent := mpiSent ex;
     config := config ex |}.

Definition with_prefixTree v (ex : Executor) : Executor :=
  {| heap := heap ex; states := states ex; searcher := searcher ex;
     addedStates := addedStates ex; removedStates := removedStates ex;
     rangingSuspendedStates := rangingSuspendedStates ex;
     suspendedStates := suspendedStates ex;
     resumedStates := resumedStates ex;
     nonRecoveryStates := nonRecoveryStates ex;
     prefixSuspendedStatesMap := prefixSuspendedStatesMap ex;
     prefixTree := v; haltExecution := haltExecution ex;
     haltFromMaster := haltFromMaster ex; ready2Offload := ready2Offload ex;
     waiting4OffloadReq := waiting4OffloadReq ex;
     replayPosition := replayPosition ex; forks := forks ex;
     rngPos := rngPos ex; mpiInbox := mpiInbox ex; mpiSent := mpiSent ex;
     config := config ex |}.

Definition with_haltExecution v (ex : Executor) : Executor :=
  {| heap := heap ex; states := states ex; searcher := searcher ex;
     addedStates := addedStates ex; removedStates := removedStates ex;
     rangingSuspendedStates := rangingSuspendedStates ex;
     suspendedStates := suspendedStates ex;
     resumedStates := resumedStates ex;
     nonRecoveryStates := nonRecoveryStates ex;
     prefixSuspendedStatesMap := prefixSuspendedStatesMap ex;
     prefixTree := prefixTree ex; haltExecution := v;
     haltFromMaster := haltFromMaster ex; ready2Offload := ready2Offload ex;
     waiting4OffloadReq := waiting4OffloadReq ex;
     replayPosition := replayPosition ex; forks := forks ex;
     rngPos := rngPos ex; mpiInbox := mpiInbox ex; mpiSent := mpiSent ex;
     config := config ex |}.

Definition with_haltFromMaster v (ex : Executor) : Executor :=
  {| heap := heap ex; states := states ex; searcher := searcher ex;
     addedStates := addedStates ex; removedStates := removedStates ex;
     rangingSuspendedStates := rangingSuspendedStates ex;
     suspendedStates := suspendedStates ex;
     resumedStates := resumedStates ex;
     nonRecoveryStates := nonRecoveryStates ex;
     prefixSuspendedStatesMap := prefixSuspendedStatesMap ex;
     prefixTree := prefixTree ex; haltExecution := haltExecution ex;
     haltFromMaster := v; ready2Offload := ready2Offload ex;
     waiting4OffloadReq := waiting4OffloadReq ex;
     replayPosition := replayPosition ex; forks := forks ex;
     rngPos := rngPos ex; mpiInbox := mpiInbox ex; mpiSent := mpiSent ex;
     config := config ex |}.

Definition with_waiting4OffloadReq v (ex : Executor) : Executor :=
  {| heap := heap ex; states := states ex; searcher := searcher ex;
     addedStates := addedStates ex; removedStates := removedStates ex;
     rangingSuspendedStates := rangingSuspendedStates ex;
     suspendedStates := suspendedStates ex;
     resumedStates := resumedStates ex;
     nonRecoveryStates := nonRecoveryStates ex;
     prefixSuspendedStatesMap := prefixSuspendedStatesMap ex;
     prefixTree := prefixTree ex; haltExecution := haltExecution ex;
     haltFromMaster := haltFromMaster ex; ready2Offload := ready2Offload ex;
     waiting4OffloadReq := v; replayPosition := replayPosition ex;
     forks := forks ex; rngPos := rngPos ex; mpiInbox := mpiInbox ex;
     mpiSent := mpiSent ex; config := config ex |}.

Definition with_replayPosition v (ex : Executor) : Executor :=
  {| heap := heap ex; states := states ex; searcher := searcher ex;
     addedStates := addedStates ex; removedStates := removedStates ex;
     rangingSuspendedStates := rangingSuspendedStates ex;
     suspendedStates := suspendedStates ex;
     resumedStates := resumedStates ex;
     nonRecoveryStates := nonRecoveryStates ex;
     prefixSuspendedStatesMap := prefixSuspendedStatesMap ex;
     prefixTree := prefixTree ex; haltExecution := haltExecution ex;
     haltFromMaster := haltFromMaster ex; ready2Offload := ready2Offload ex;
     waiting4OffloadReq := waiting4OffloadReq ex; replayPosition := v;
     forks := forks ex; rngPos := rngPos ex; mpiInbox := mpiInbox ex;
     mpiSent := mpiSent ex; config := config ex |}.

Definition with_forks v (ex : Executor) : Executor :=
  {| heap := heap ex; states := states ex; searcher := searcher ex;
     addedStates := addedStates ex; removedStates := removedStates ex;
     rangingSuspendedStates := rangingSuspendedStates ex;
     suspendedStates := suspendedStates ex;
     resumedStates := resumedStates ex;
     nonRecoveryStates := nonRecoveryStates ex;
     prefixSuspendedStatesMap := prefixSuspendedStatesMap ex;
     prefixTree := prefixTree ex; haltExecution := haltExecution ex;
     haltFromMaster := haltFromMaster ex; ready2Offload := ready2Offload ex;
     waiting4OffloadReq := waiting4OffloadReq ex;
     replayPosition := replayPosition ex; forks := v; rngPos := rngPos ex;
     mpiInbox := mpiInbox ex; mpiSent := mpiSent ex; config := config ex |}.

Definition with_rngPos v (ex : Executor) : Executor :=
  {| heap := heap ex; states := states ex; searcher := searcher ex;
     addedStates := addedStates ex; removedStates := removedStates ex;
     rangingSuspendedStates := rangingSuspendedStates ex;
     suspendedStates := suspendedStates ex;
     resumedStates := resumedStates ex;
     nonRecoveryStates := nonRecoveryStates ex;
     prefixSuspendedStatesMap := prefixSuspendedStatesMap ex;
     prefixTree := prefixTree ex; haltExecution := haltExecution ex;
     haltFromMaster := haltFromMaster ex; ready2Offload := ready2Offload ex;
     waiting4OffloadReq := waiting4OffloadReq ex;
     replayPosition := replayPosition ex; forks := forks ex; rngPos := v;
     mpiInbox := mpiInbox ex; mpiSent := mpiSent ex; config := config ex |}.

Definition with_mpiInbox v (ex : Executor) : Executor :=
  {| heap := heap ex; states := states ex; searcher := searcher ex;
     addedStates := addedStates ex; removedStates := removedStates ex;
     rangingSuspendedStates := rangingSuspendedStates ex;
     suspendedStates := suspendedStates ex;
     resumedStates := resumedStates ex;
     nonRecoveryStates := nonRecoveryStates ex;
     prefixSuspendedStatesMap := prefixSuspendedStatesMap ex;
     prefixTree := prefixTree ex; haltExecution := haltExecution ex;
     haltFromMaster := haltFromMaster ex; ready2Offload := ready2Offload ex;
     waiting4OffloadReq := waiting4OffloadReq ex;
     replayPosition := replayPosition ex; forks := forks ex;
     rngPos := rngPos ex; mpiInbox := v; mpiSent := mpiSent ex;
     config := config ex |}.

Definition with_mpiSent v (ex : Executor) : Executor :=
  {| heap := heap ex; states := states ex; searcher := searcher ex;
     addedStates := addedStates ex; removedStates := removedStates ex;
     rangingSuspendedStates := rangingSuspendedStates ex;
     suspendedStates := suspendedStates ex;
     resumedStates := resumedStates ex;
     nonRecoveryStates := nonRecoveryStates ex;
     prefixSuspendedStatesMap := prefixSuspendedStatesMap ex;
     prefixTree := prefixTree ex; haltExecution := haltExecution ex;
     haltFromMaster := haltFromMaster ex; ready2Offload := ready2Offload ex;
     waiting4OffloadReq := waiting4OffloadReq ex;
     replayPosition := replayPosition ex; forks := forks ex;
     rngPos := rngPos ex; mpiInbox := mpiInbox ex; mpiSent := v;
     config := config ex |}.

Definition StatePair : Type := option ptr * option ptr.

Definition store (p : ptr) (s : ExecutionState) (ex : Executor) : Executor :=
  with_heap (<[p := s]> (heap ex)) ex.

(** [new ExecutionState(s)]: the address is one not in use. *)
Definition new_state (s : ExecutionState) (ex : Executor) : ptr * Executor :=
  let q := fresh (dom (heap ex)) in (q, store q s ex).

(** Modelled from the spec: [ExecutionState::branch] and the copy constructor
    ([lib/Core/ExecutionState.cpp] is not part of the sources at hand) clone
    the state; the clone has the same members. *)
Definition ExecutionState_branch (s : ExecutionState) : ExecutionState := s.
Definition ExecutionState_copy (s : ExecutionState) : ExecutionState := s.

(** *** Termination *)

Definition terminateState (ex : Executor) (state : ptr) : Res Executor :=
  st ← deref (heap ex) state;
  let ex1 := with_nonRecoveryStates (nonRecoveryStates ex ∖ {[state]}) ex in
  match erase_first state (addedStates ex1) with
  | None =>
      Ok (with_removedStates (removedStates ex1 ++ [state])
            (store state (set_pc (prevPC st) st) ex1))
  | Some added' =>
      (* never reached searcher, just delete immediately *)
      Ok (with_heap (delete state (heap ex1)) (with_addedStates added' ex1))
  end.

Fixpoint terminateStateRecursively_loop (fuel : nat) (ex : Executor)
    (current : ptr) : Res Executor :=
  match fuel with
  | O => Fail NoTermination
  | Datatypes.S fuel' =>
      st ← deref (heap ex) current;
      next ← (if isRecoveryState st then
                d ← getDependentState st;
                match d with
                | Some n => Ok (Some n)
                | None => Fail AssertionFailure
                end
              else Ok None);
      ex1 ← terminateState ex current;
      match next with
      | Some n => terminateStateRecursively_loop fuel' ex1 n
      | None => Ok ex1
      end
  end.

(** A chain of dependent states that is longer than the number of live
    states revisits one of them, and the C++ loop never leaves it. *)
Definition chainFuel (ex : Executor) : nat := Datatypes.S (size (heap ex)).

Definition terminateStateRecursively (ex : Executor) (state : ptr)
    : Res Executor :=
  terminateStateRecursively_loop (chainFuel ex) ex state.

(** [terminateStateEarly]; writing the test case is outside the model. *)
Definition terminateStateEarly (ex : Executor) (state : ptr) : Res Executor :=
  st ← deref (heap ex) state;
  if isRecoveryState st then terminateStateRecursively ex state
  else terminateState ex state.

(** *** Constraints *)

(** [Executor::addConstraint]; implied-value concretization ([ivcEnabled])
    is outside the model. *)
Definition addConstraint (ex : Executor) (state : ptr) (condition : Expr)
    : Res Executor :=
  match condition with
  | ConstantExpr v =>
      if (v =? 1)%Z then Ok ex else Fail FatalError
  | _ =>
      st ← deref (heap ex) state;
      st' ← state_addConstraint condition st;
      Ok (store state st' ex)
  end.

Definition mergeConstraints (ex : Executor) (dependent : ptr)
    (condition : Expr) : Res Executor :=
  st ← deref (heap ex) dependent;
  _ ← assert (isNormalState st);
  addConstraint ex dependent condition.

Fixpoint mergeConstraintsForAll_loop (fuel : nat) (ex : Executor) (next : ptr)
    (condition : Expr) : Res Executor :=
  match fuel with
  | O => Fail NoTermination
  | Datatypes.S fuel' =>
      ex1 ← mergeConstraints ex next condition;
      nst ← deref (heap ex1) next;
      if isRecoveryState nst then
        d ← getDependentState nst;
        match d with
        | Some n => mergeConstraintsForAll_loop fuel' ex1 n condition
        | None => Ok ex1
        end
      else Ok ex1
  end.

Definition mergeConstraintsForAll (ex : Executor) (recovery : ptr)
    (condition : Expr) : Res Executor :=
  rst ← deref (heap ex) recovery;
  d ← getDependentState rst;
  match d with
  | None => Fail NullDereference
  | Some next =>
      ex1 ← mergeConstraintsForAll_loop (chainFuel ex) ex next condition;
      (* add the guiding constraints only to the originating state *)
      rst1 ← deref (heap ex1) recovery;
      o ← getOriginatingState rst1;
      match o with
      | None => Fail NullDereference
      | Some orig =>
          ost ← deref (heap ex1) orig;
          ost' ← addGuidingConstraint condition ost;
          Ok (store orig ost' ex1)
      end
  end.

(** *** Forking *)

(** [depth++] together with [branchHist.push_back(c)]. *)
Definition recordBranch (c : ascii) (s : ExecutionState) : ExecutionState :=
  set_branchHist (branchHist s ++ [c]) (set_depth (incr32 (depth s)) s).

Definition modify (p : ptr) (f : ExecutionState → ExecutionState)
    (ex : Executor) : Res Executor :=
  st ← deref (heap ex) p; Ok (store p (f st) ex).

(** First loop of [forkDependentStates]: clone the chain of dependent
    states, linking each clone to the clone below it.  The result carries
    [forkedOriginatingState]. *)
Fixpoint forkDependentStates_fork (fuel : nat) (ex : Executor)
    (current prevForked : ptr) : Res (Executor * option ptr) :=
  match fuel with
  | O => Fail NoTermination
  | Datatypes.S fuel' =>
      cst ← deref (heap ex) current;
      let fst := ExecutionState_copy cst in
      let '(forked, ex1) := new_state fst ex in
      _ ← assert (isSuspended fst);
      pst ← deref (heap ex1) prevForked;
      fst1 ← setRecoveryState (Some prevForked) (isRecoveryState pst) fst;
      let ex2 := store forked fst1 ex1 in
      pst1 ← deref (heap ex2) prevForked;
      pst2 ← setDependentState forked (isNormalState fst1) pst1;
      let ex3 := store prevForked pst2 ex2 in
      cst1 ← deref (heap ex3) current;
      if isRecoveryState cst1 then
        d ← getDependentState cst1;
        match d with
        | Some next => forkDependentStates_fork fuel' ex3 next forked
        | None => Ok (ex3, None)
        end
      else Ok (ex3, Some forked)
  end.

(** Second loop of [forkDependentStates]: update the originating state of
    the forked recovery states. *)
Fixpoint forkDependentStates_originating (fuel : nat) (ex : Executor)
    (current : ptr) (forkedOriginatingState : option ptr) : Res Executor :=
  match fuel with
  | O => Fail NoTermination
  | Datatypes.S fuel' =>
      cst ← deref (heap ex) current;
      if isRecoveryState cst then
        match forkedOriginatingState with
        | None => Fail NullDereference
        | Some o =>
            ost ← deref (heap ex) o;
            cst1 ← setOriginatingState o (isNormalState ost) cst;
            let ex1 := store current cst1 ex in
            d ← getDependentState cst1;
            match d with
            | Some next =>
                forkDependentStates_originating fuel' ex1 next
                  forkedOriginatingState
            | None => Ok ex1
            end
        end
      else Ok ex
  end.

Definition forkDependentStates (ex : Executor) (trueState falseState : ptr)
    : Res Executor :=
  tst ← deref (heap ex) trueState;
  d ← getDependentState tst;
  match d with
  | None => Fail NullDereference
  | Some current =>
      '(ex1, forkedOriginatingState) ←
        forkDependentStates_fork (chainFuel ex) ex current falseState;
      forkDependentStates_originating (chainFuel ex1) ex1 falseState
        forkedOriginatingState
  end.

Definition replicateBranchHist (ex : Executor) (state recState : ptr)
    : Res Executor :=
  st ← deref (heap ex) state;
  rst ← deref (heap ex) recState;
  _ ← assert (depth rst <=? depth st);
  let hist :=
    branchHist rst ++ drop (length (branchHist rst)) (branchHist st) in
  Ok (store recState
        (set_prefixes (prefixes st)
           (set_depth (depth st) (set_branchHist hist rst))) ex).

(** [solver->evaluate(current, condition, res)] with the handling of a
    solver failure: [inr ex'] when [fork] gives up and returns
    [StatePair(0, 0)]. *)
Definition fork_evaluate (ex : Executor) (current : ptr) (condition : Expr)
    : Res (Validity + Executor) :=
  st ← deref (heap ex) current;
  match solver_evaluate (config ex) st condition with
  | Some res => Ok (inl res)
  | None =>
      ex1 ← terminateStateEarly (store current (set_pc (prevPC st) st) ex)
              current;
      Ok (inr ex1)
  end.

(** First part of [fork]: where [res] and [forkAndSuspend] come from.  The
    master ([coreId == 0]) always asks the solver; a worker whose state is
    ranging takes them from [branchToTake] unless the fork is internal.
    ([ENABLE_LOGGING] is [false], so the logging statements, one of which
    calls [branchToTake], are dead code.) *)
Definition fork_direction (ex : Executor) (current : ptr) (condition : Expr)
    (isInternal : bool) : Res ((Validity * bool) + Executor) :=
  st ← deref (heap ex) current;
  if (coreId (config ex) =? 0) || negb (shallIRange st) || isInternal then
    r ← fork_evaluate ex current condition;
    match r with
    | inl res => Ok (inl (res, false))
    | inr ex1 => Ok (inr ex1)
    end
  else
    '(solverRes, forkAndSuspend) ← branchToTake st;
    let res :=
      if (solverRes =? 0)%Z then Solver_True
      else if (solverRes =? 1)%Z then Solver_False
      else Solver_Unknown in
    Ok (inl (res, forkAndSuspend)).

Definition forkingInhibited (ex : Executor) (st : ExecutionState) : bool :=
  (MaxMemoryInhibit (config ex) && atMemoryLimit (config ex))
  || forkDisabled st
  || inhibitForking (config ex)
  || (negb (MaxForks (config ex) =? 2 ^ 32 - 1)
      && (MaxForks (config ex) <=? forks ex)).

(** Second part of [fork] ([if (!isSeeding) ...]): replay of a recorded path,
    and the random commitment to one side when forking is inhibited. *)
Definition fork_commit (ex : Executor) (current : ptr) (condition : Expr)
    (isInternal : bool) (res : Validity) : Res (Validity * Executor) :=
  match replayPath (config ex), isInternal with
  | Some path, false =>
      match path !! replayPosition ex with
      | None => Fail AssertionFailure
      | Some branch =>
          let ex1 := with_replayPosition (Datatypes.S (replayPosition ex)) ex in
          match res with
          | Solver_True => _ ← assert branch; Ok (res, ex1)
          | Solver_False => _ ← assert (negb branch); Ok (res, ex1)
          | Solver_Unknown =>
              if branch then
                ex2 ← addConstraint ex1 current condition;
                Ok (Solver_True, ex2)
              else
                ex2 ← addConstraint ex1 current (createIsZero condition);
                Ok (Solver_False, ex2)
          end
      end
  | _, _ =>
      match res with
      | Solver_Unknown =>
          _ ← assert (negb (replayKTest (config ex)));
          st ← deref (heap ex) current;
          if forkingInhibited ex st then
            let ex1 := with_rngPos (Datatypes.S (rngPos ex)) ex in
            if theRNG_getBool (config ex) (rngPos ex) then
              ex2 ← addConstraint ex1 current condition;
              Ok (Solver_True, ex2)
            else
              ex2 ← addConstraint ex1 current (createIsZero condition);
              Ok (Solver_False, ex2)
          else Ok (res, ex)
      | _ => Ok (res, ex)
      end
  end.

(** The part shared by the three forking branches of [fork], from
    [if (!isInternal)] to the propagation into a recovery chain. *)
Definition fork_children (ex : Executor) (trueState falseState : ptr)
    (recoveryParent recoverySibling : ptr) (condition : Expr)
    (isInternal : bool) : Res Executor :=
  ex1 ← (if isInternal then Ok ex
         else
           ex' ← modify trueState (recordBranch "0") ex;
           modify falseState (recordBranch "1") ex');
  ex2 ← addConstraint ex1 trueState condition;
  ex3 ← addConstraint ex2 falseState (createIsZero condition);
  pst ← deref (heap ex3) recoveryParent;
  if isRecoveryState pst then
    ex4 ← forkDependentStates ex3 recoveryParent recoverySibling;
    (* propagate constraints if required *)
    ex5 ← mergeConstraintsForAll ex4 trueState condition;
    mergeConstraintsForAll ex5 falseState (createIsZero condition)
  else Ok ex3.

(** [current.branch()] and the bookkeeping on [nonRecoveryStates]. *)
Definition fork_sibling (ex : Executor) (current : ptr) : Res (ptr * Executor) :=
  st ← deref (heap ex) current;
  let sibling := ExecutionState_branch st in
  let '(q, ex1) := new_state sibling ex in
  Ok (q,
      if isRecoveryState sibling then ex1
      else with_nonRecoveryStates ({[q]} ∪ nonRecoveryStates ex1) ex1).

(** Last part of [fork]: the three branches on [res].  The process tree and
    the path writers are outside the model. *)
Definition fork_branch (ex : Executor) (current : ptr) (condition : Expr)
    (isInternal : bool) (res : Validity) (forkAndSuspend : bool)
    : Res (StatePair * Executor) :=
  match res with
  | Solver_True =>
      if forkAndSuspend then
        '(falseState, ex1) ← fork_sibling ex current;
        ex2 ← fork_children ex1 current falseState current falseState
                condition isInternal;
        (* Just putting the false state in suspended queue *)
        Ok ((Some current, Some falseState),
            with_rangingSuspendedStates
              (rangingSuspendedStates ex2 ++ [falseState]) ex2)
      else
        ex1 ← (if isInternal then Ok ex
               else modify current (recordBranch "2") ex);
        Ok ((Some current, None), ex1)
  | Solver_False =>
      if forkAndSuspend then
        let ex0 := with_forks (forks ex + 1) ex in
        '(trueState, ex1) ← fork_sibling ex0 current;
        ex2 ← fork_children ex1 trueState current current trueState
                condition isInternal;
        (* Just putting the true state in suspended mode *)
        Ok ((Some trueState, Some current),
            with_rangingSuspendedStates
              (rangingSuspendedStates ex2 ++ [trueState]) ex2)
      else
        ex1 ← (if isInternal then Ok ex
               else modify current (recordBranch "3") ex);
        Ok ((None, Some current), ex1)
  | Solver_Unknown =>
      let ex0 := with_forks (forks ex + 1) ex in
      '(falseState, ex1) ← fork_sibling ex0 current;
      let ex2 := with_addedStates (addedStates ex1 ++ [falseState]) ex1 in
      ex3 ← (if coreId (config ex) =? 0 then Ok ex2
             else
               ex' ← modify current removeFalsePrefixes ex2;
               modify falseState removeTruePrefixes ex');
      ex4 ← fork_children ex3 current falseState current falseState
              condition isInternal;
      Ok ((Some current, Some falseState), ex4)
  end.

(** [Executor::fork(current, condition, isInternal)]. *)
Definition fork (ex : Executor) (current : ptr) (condition : Expr)
    (isInternal : bool) : Res (StatePair * Executor) :=
  d ← fork_direction ex current condition isInternal;
  match d with
  | inr ex1 => Ok ((None, None), ex1)
  | inl (res, forkAndSuspend) =>
      '(res1, ex1) ← fork_commit ex current condition isInternal res;
      fork_branch ex1 current condition isInternal res1 forkAndSuspend
  end.

(** First loop of [Executor::branch] on the path without fork limit: one
    sibling per further condition, each split off the state created last.
    When the state is ranging the siblings are not put on [addedStates] at
    this point.  Returns [result]. *)
Fixpoint branch_siblings (n : nat) (ranging : bool) (ex : Executor)
    (result : list ptr) : Res (list ptr * Executor) :=
  match n with
  | O => Ok (result, ex)
  | Datatypes.S n' =>
      match last result with
      | None => Fail OutOfBounds
      | Some es =>
          '(ns, ex1) ← fork_sibling ex es;
          let ex2 :=
            if ranging then ex1
            else with_addedStates (addedStates ex1 ++ [ns]) ex1 in
          ex3 ← modify es (recordBranch "0") ex2;
          ex4 ← modify ns (recordBranch "1") ex3;
          branch_siblings n' ranging ex4 (result ++ [ns])
      end
  end.

(** *** Offloading *)

Definition mapRes {A B} (f : A → Res B) : list A → Res (list B) :=
  fix go l :=
    match l with
    | [] => Ok []
    | a :: r => b ← f a; bs ← go r; Ok (b :: bs)
    end.

(** The states of [states], in iteration order, that are not suspended. *)
Fixpoint notSuspended (h : gmap ptr ExecutionState) (l : list ptr)
    : Res (list ptr) :=
  match l with
  | [] => Ok []
  | p :: r =>
      st ← deref h p;
      rest ← notSuspended h r;
      Ok (if isSuspended st then rest else p :: rest)
  end.

(** [minSize] over [offloadVec[0..]]. *)
Definition minHistSize (h : gmap ptr ExecutionState) (offloadVec : list ptr)
    : Res nat :=
  match offloadVec with
  | [] => Fail OutOfBounds
  | p0 :: rest =>
      st0 ← deref h p0;
      sizes ← mapRes (λ p, st ← deref h p; Ok (length (branchHist st))) rest;
      Ok (foldl (λ m n, if (n <? m)%nat then n else m)
                (length (branchHist st0)) sizes)
  end.

(** [int offloadFromStatesVector(std::vector<ExecutionState*>& offloadVec)].
    [minSize] is an uninitialised local; on the path that never assigns it
    the function returns whatever it holds, here [junk].  (The running
    minimum kept by the first loop is overwritten on every path that uses
    it.) *)
Definition offloadFromStatesVector (junk : nat) (ex : Executor)
    : Res (nat * list ptr) :=
  if negb (haltExecution ex) && negb (haltFromMaster ex) && ready2Offload ex
  then
    _ ← assert (bool_decide (removedStates ex = []));
    offloadVec ← notSuspended (heap ex) (states ex);
    if (length offloadVec <? 4)%nat then Ok (0%nat, [])
    else
      let numStates2Offload :=
        if (64 <? length offloadVec)%nat then 16%nat
        else (length offloadVec / 4)%nat in
      let offloadVec1 := take numStates2Offload offloadVec in
      minSize ← minHistSize (heap ex) offloadVec1;
      Ok (minSize, offloadVec1)
  else Ok (junk, []).

(** [branchHist[x]] on a [std::vector]. *)
Definition histAt (hist : list ascii) (x : nat) : Res ascii :=
  match hist !! x with
  | Some c => Ok c
  | None => Fail OutOfBounds
  end.

(** Inner loop of the common-prefix computation: does every other history
    carry [val] at position [x]?  It stops at the first mismatch. *)
Fixpoint allMatch (val : ascii) (others : list (list ascii)) (x : nat)
    : Res bool :=
  match others with
  | [] => Ok true
  | h :: rest =>
      c ← histAt h x;
      if Ascii.eqb c val then allMatch val rest x else Ok false
  end.

(** The loop of [newCheck2Offload] that builds [commonPref]; [fuel] counts
    the iterations left ([minSize - x]). *)
Fixpoint commonPref_loop (hist0 : list ascii) (others : list (list ascii))
    (x fuel : nat) : Res (list ascii) :=
  match fuel with
  | O => Ok []
  | Datatypes.S fuel' =>
      val ← histAt hist0 x;
      allMatch val others x ≫= λ matched : bool,
      if matched then
        rest ← commonPref_loop hist0 others (Datatypes.S x) fuel';
        Ok (val :: rest)
      else Ok []
  end.

(** [commonPref] after the second loop: the common prefix, then for every
    state a ['-'] and what its history has beyond the common prefix. *)
Definition combinedPrefix (commonPref : list ascii) (hists : list (list ascii))
    : list ascii :=
  commonPref
  ++ concat (map (λ h, "-"%char :: drop (length commonPref) h) hists).

(** The loop of [newCheck2Offload] over [states2Offload] after the reply
    was sent. *)
Fixpoint surrender (ex : Executor) (states2Offload : list ptr) : Res Executor :=
  match states2Offload with
  | [] => Ok ex
  | p :: rest =>
      _ ← assert (bool_decide (p ∈ states ex));
      let ex1 := with_states (set_erase p (states ex)) ex in
      let ex2 :=
        with_rangingSuspendedStates (rangingSuspendedStates ex1 ++ [p]) ex1 in
      let ex3 :=
        match erase_first p (removedStates ex2) with
        | Some removed' => with_removedStates removed' ex2
        | None => ex2
        end in
      surrender ex3 rest
  end.

(** [Executor::newCheck2Offload].  [MPI_Iprobe] finds the message at the head
    of [mpiInbox], if any; [MPI_Recv] takes it; [MPI_Send] appends to
    [mpiSent]. *)
Definition newCheck2Offload (junk : nat) (ex : Executor) : Res Executor :=
  let ex0 := with_waiting4OffloadReq true ex in
  match mpiInbox ex0 with
  | [] => Ok ex0
  | (tag, _) :: inbox' =>
      if tag =? OFFLOAD then
        let ex1 := with_mpiInbox inbox' ex0 in
        '(minSize, states2Offload) ← offloadFromStatesVector junk ex1;
        match states2Offload with
        | _ :: _ =>
            hists ← mapRes (λ p, st ← deref (heap ex1) p; Ok (branchHist st))
                         states2Offload;
            commonPref ← commonPref_loop (default [] (head hists))
                            (tail hists) 0 minSize;
            let pkt2Send := combinedPrefix commonPref hists in
            let ex2 :=
              with_mpiSent (mpiSent ex1 ++ [(OFFLOAD_RESP, pkt2Send)]) ex1 in
            s' ← searcher_update (heap ex2) (searcher ex2) None []
                   states2Offload;
            ex3 ← surrender (with_searcher s' ex2) states2Offload;
            Ok (with_waiting4OffloadReq false ex3)
        | [] =>
            let ex2 :=
              with_mpiSent (mpiSent ex1 ++ [(OFFLOAD_RESP, ["x"%char])]) ex1 in
            Ok (with_waiting4OffloadReq false ex2)
        end
      else if tag =? KILL then
        Ok (with_haltFromMaster true
              (with_haltExecution true (with_mpiInbox inbox' ex0)))
      else Ok ex0
  end.

(** Canonical form of a branch history: ['2'] and ['3'] become ['0'] and
    ['1'], ['-'] is dropped. *)
Fixpoint canonicalPath (hist : list ascii) : list ascii :=
  match hist with
  | [] => []
  | dd :: rest =>
      if Ascii.eqb dd "2" then "0"%char :: canonicalPath rest
      else if Ascii.eqb dd "3" then "1"%char :: canonicalPath rest
      else if Ascii.eqb dd "-" then canonicalPath rest
      else dd :: canonicalPath rest
  end.

(** The loop of [updateStates] that files the states of
    [rangingSuspendedStates] in the prefix-suspended map and the prefix tree.
    [std::map::insert] keeps an entry that is already there. *)
Fixpoint fileSuspended (ex : Executor) (l : list ptr) : Res Executor :=
  match l with
  | [] => Ok ex
  | p :: rest =>
      st ← deref (heap ex) p;
      let recvP := canonicalPath (branchHist st) in
      let ex1 := store p (clearPrefixes st) ex in
      let path := String.string_of_list_ascii recvP in
      let ex2 :=
        match prefixSuspendedStatesMap ex1 !! path with
        | Some _ => ex1
        | None =>
            with_prefixSuspendedStatesMap
              (<[path := p]> (prefixSuspendedStatesMap ex1)) ex1
        end in
      fileSuspended (with_prefixTree (addToTree recvP (prefixTree ex2)) ex2)
        rest
  end.

(** The loop of [updateStates] over [removedStates]. *)
Fixpoint deleteRemoved (ex : Executor) (l : list ptr) : Res Executor :=
  match l with
  | [] => Ok ex
  | es :: rest =>
      if bool_decide (es ∈ states ex) then
        deleteRemoved
          (with_heap (delete es (heap ex))
             (with_states (set_erase es (states ex)) ex)) rest
      else
        st ← deref (heap ex) es;
        _ ← assert (isNormalState st && isSuspended st);
        deleteRemoved ex rest
  end.

(** [filteredStates] of [updateStates]: the removed states without the
    suspended normal states. *)
Fixpoint filterRemoved (h : gmap ptr ExecutionState) (l : list ptr)
    : Res (list ptr) :=
  match l with
  | [] => Ok []
  | p :: r =>
      st ← deref h p;
      rest ← filterRemoved h r;
      Ok (if isNormalState st && isSuspended st then rest else p :: rest)
  end.

(** [Executor::updateStates(current)] with a searcher in place.  The seed map
    and the process tree are outside the model. *)
Definition updateStates (enableLB : bool) (junk : nat) (ex : Executor)
    (current : option ptr) : Res Executor :=
  (* we don't want to pass suspended states to the searcher *)
  filteredStates ← filterRemoved (heap ex) (removedStates ex);
  s1 ← searcher_update (heap ex) (searcher ex) current (addedStates ex)
         filteredStates;
  (* handle suspended states, then resumed states *)
  s2 ← foldl (λ acc p, s ← acc; searcher_update (heap ex) s None [] [p])
             (Ok s1) (suspendedStates ex);
  s3 ← foldl (λ acc p, s ← acc; searcher_update (heap ex) s None [p] [])
             (Ok s2) (resumedStates ex);
  let ex1 :=
    with_resumedStates [] (with_suspendedStates [] (with_searcher s3 ex)) in
  let ex2 := with_states (foldl (λ l p, set_insert p l) (states ex1)
                                (addedStates ex1)) ex1 in
  ex3 ← fileSuspended ex2 (rangingSuspendedStates ex2);
  let ex4 := with_rangingSuspendedStates [] (with_addedStates [] ex3) in
  ex5 ← deleteRemoved ex4 (removedStates ex4);
  let ex6 := with_removedStates [] ex5 in
  if enableLB then newCheck2Offload junk ex6 else Ok ex6.

(** *** Recovery *)

Definition suspendState (ex : Executor) (state : ptr) : Res Executor :=
  st ← deref (heap ex) state;
  st' ← setSuspended st;
  Ok (with_nonRecoveryStates (nonRecoveryStates ex ∖ {[state]})
        (with_suspendedStates (suspendedStates ex ++ [state])
           (store state st' ex))).

Definition resumeState (ex : Executor) (state : ptr) (implicitlyCreated : bool)
    (recState : ptr) : Res Executor :=
  st ← deref (heap ex) state;
  let ex1 :=
    if isRecoveryState st then ex
    else with_nonRecoveryStates ({[state]} ∪ nonRecoveryStates ex) ex in
  st1 ← setResumed st;
  st2 ← setRecoveryState None false st1;
  st3 ← markLoadAsUnrecovered st2;
  let ex2 := store state st3 ex1 in
  let ex3 :=
    if implicitlyCreated then
      with_addedStates (addedStates ex2 ++ [state]) ex2
    else with_resumedStates (resumedStates ex2 ++ [state]) ex2 in
  _ ← getAllocationRecord st3;           (* ...getAllocationRecord().dump() *)
  replicateBranchHist ex3 recState state.

(** The configuration of a recovery state that is cloned from a snapshot
    other than the first. *)
Definition initNormalRecovery (dep : ExecutionState) (r : ExecutionState)
    : Res ExecutionState :=
  let r0 := set_type (N.lor NORMAL_STATE RECOVERY_STATE) r in
  r1 ← setResumed r0;
  r2 ← setRecoveryState None false r1;
  r3 ← markLoadAsRecovered r2;
  r4 ← clearRecoveredAddresses r3;
  cache ← getRecoveryCache dep;
  r5 ← setRecoveryCache cache r4;
  record ← getAllocationRecord dep;
  r6 ← setAllocationRecord record r5;
  _ ← assert (isNormalState r6);          (* getGuidingConstraints() *)
  _ ← assert (bool_decide (guidingConstraints r6 = []));
  _ ← assert (bool_decide (pendingRecoveryInfos r6 = []));
  Ok r6.

Definition startRecoveryState (ex : Executor) (state : ptr)
    (ri : RecoveryInfo) : Res Executor :=
  snapshotState ← deref (heap ex) (snap_state (ri_snapshot ri));
  st ← deref (heap ex) state;
  (* initialize recovery state *)
  let r := ExecutionState_copy snapshotState in
  r1 ← (if snapshotIndex ri =? 0 then Ok (set_type RECOVERY_STATE r)
        else initNormalRecovery st r);
  (* set exit instruction *)
  _ ← assert (isRecoveryState r1);
  let r2 := set_exitInst (Some (pc snapshotState)) r1 in
  (* set dependent state *)
  r3 ← setDependentState state (isNormalState st) r2;
  (* set originating state *)
  originatingState ←
    (if isRecoveryState st then getOriginatingState st else Ok (Some state));
  match originatingState with
  | None => Fail NullDereference
  | Some orig =>
      ost ← deref (heap ex) orig;
      r4 ← setOriginatingState orig (isNormalState ost) r3;
      (* set recovery information *)
      _ ← assert (isRecoveryState r4);
      let r5 := set_recoveryInfo (Some ri) r4 in
      (* pass allocation record to recovery state *)
      record ← getAllocationRecord st;
      r6 ← setGuidingAllocationRecord record r5;
      (* recursion level *)
      let r7 :=
        set_level (if isRecoveryState st then incr32 (level st) else 0) r6 in
      let '(recoveryState, ex1) := new_state r7 ex in
      (* add the guiding constraints to the recovery state *)
      _ ← assert (isNormalState ost);
      ex2 ← foldl (λ acc c, e ← acc; addConstraint e recoveryState c)
                  (Ok ex1) (guidingConstraints ost);
      ex3 ← modify recoveryState (λ s, set_pc (prevPC s) s) ex2;
      (* link the current state to it's recovery state *)
      st1 ← deref (heap ex3) state;
      rst ← deref (heap ex3) recoveryState;
      st2 ← setRecoveryState (Some recoveryState) (isRecoveryState rst) st1;
      let ex4 := store state st2 ex3 in
      (* add the recovery state to the searcher *)
      rst1 ← deref (heap ex4) recoveryState;
      _ ← assert (isRecoveryState rst1);
      let ex5 :=
        with_addedStates (addedStates ex4 ++ [recoveryState])
          (store recoveryState (set_priority PRIORITY_HIGH rst1) ex4) in
      (* create new branch hist *)
      replicateBranchHist ex5 state recoveryState
  end.

Definition notifyDependentState (ex : Executor) (recoveryState : ptr)
    : Res Executor :=
  rst ← deref (heap ex) recoveryState;
  d ← getDependentState rst;
  match d with
  | None => Fail NullDereference
  | Some dependentState =>
      ex1 ←
        (if isNormalState rst then
           record ← getAllocationRecord rst;
           dst ← deref (heap ex) dependentState;
           dst' ← setAllocationRecord record dst;
           Ok (store dependentState dst' ex)
         else Ok ex);
      resumeState ex1 dependentState
        (negb (bool_decide (dependentState ∈ states ex1))) recoveryState
  end.

Definition onRecoveryStateExit (ex : Executor) (state : ptr) : Res Executor :=
  st ← deref (heap ex) state;
  d ← getDependentState st;
  match d with
  | None => Fail NullDereference
  | Some dependentState =>
      dst ← deref (heap ex) dependentState;
      ex1 ←
        (* check if we need to run another recovery state *)
        (if hasPendingRecoveryInfo dst then
           '(ri, dst') ← getPendingRecoveryInfo dst;
           ex' ← replicateBranchHist (store dependentState dst' ex) state
                   dependentState;
           startRecoveryState ex' dependentState ri
         else notifyDependentState ex state);
      terminateState ex1 state
  end.

(** [ConstantExpr::getZExtValue()] into a [uint64_t]. *)
Definition getZExtValue (v : Z) : N := Z.to_N (v mod 2 ^ 64).

(** [Executor::onRecoveryStateWrite(state, address, mo, offset, value)];
    [mo] is the key of the memory object in an address space. *)
Definition onRecoveryStateWrite (ex : Executor) (state : ptr) (address : Expr)
    (mo : N) (offset value : Expr) : Res Executor :=
  match address, offset with
  | ConstantExpr a, ConstantExpr o =>
      st ← deref (heap ex) state;
      let storeAddr := getZExtValue a in
      i ← getRecoveryInfo st;
      match i with
      | None => Fail NullDereference
      | Some ri =>
          if negb (storeAddr =? loadAddr ri) then Ok ex
          else
            (* copy data to dependent state... *)
            d ← getDependentState st;
            match d with
            | None => Fail NullDereference
            | Some dependentState =>
                dst ← deref (heap ex) dependentState;
                match addressSpace dst !! mo with
                | None => Fail NullDereference
                | Some os =>
                    let wos := <[getZExtValue o := value]> os in
                    let dst1 :=
                      set_addressSpace (<[mo := wos]> (addressSpace dst)) dst in
                    Ok (store dependentState
                          (updateRecoveredValue (snapshotIndex ri) (sliceId ri)
                             storeAddr (Some value) dst1) ex)
                end
            end
      end
  | _, _ => Ok ex
  end.





End Executor.

(** * Further parts of the code

    The remaining functions of [PrefixTree.cpp], [Searcher.cpp],
    [UserSearcher.cpp], [ExecutionState.h] and [Executor.cpp] that the
    protocol above relies on. *)

(** ** PrefixTree.cpp *)

(** [PrefixTree::getPathToResume(inPath, outPath, log)]: the characters the
    walk appends to [outPath].  The walk starts at the root and only steps
    to a child that is there, so [current] is never [nullptr]. *)
Fixpoint getPathToResume (inPath : list ascii) (current : PrefixTree)
    : list ascii :=
  match inPath, current with
  | c :: rest, PTNode l r =>
      if Ascii.eqb c "0" then
        match l with
        | PTNull => []
        | PTNode _ _ => "0"%char :: getPathToResume rest l
        end
      else
        match r with
        | PTNull => []
        | PTNode _ _ => "1"%char :: getPathToResume rest r
        end
  | _, _ => []
  end.

(** ** ExecutionState.h, continued *)

(** [addPrefix(inPrefix, length)]. *)
Definition addPrefix (inPrefix : string) (len : N) (s : ExecutionState)
    : ExecutionState :=
  set_prefixes (prefixes s ++ [(inPrefix, len)]) s.

(** ** Executor.cpp: a prefix task arrives *)

(** [dashLoc]: the positions of ['-'] in the received message. *)
Fixpoint dashLocFrom (x : nat) (recv_prefix : list ascii) : list nat :=
  match recv_prefix with
  | [] => []
  | c :: rest =>
      if Ascii.eqb c "-" then x :: dashLocFrom (Datatypes.S x) rest
      else dashLocFrom (Datatypes.S x) rest
  end.

Definition dashLoc (recv_prefix : list ascii) : list nat :=
  dashLocFrom 0 recv_prefix.

(** The characters up to the next ['-'] or the end of the message. *)
Fixpoint untilDash (l : list ascii) : list ascii :=
  match l with
  | [] => []
  | c :: rest => if Ascii.eqb c "-" then [] else c :: untilDash rest
  end.

(** [recvP] for the dash at position [d]: the characters before the first
    dash, then those after [d] up to the next dash. *)
Definition receivedPrefix (recv_prefix : list ascii) (dashLoc0 d : nat)
    : list ascii :=
  take dashLoc0 recv_prefix ++ untilDash (drop (Datatypes.S d) recv_prefix).

(** The prefixes the loop over [dashLoc] builds, one per dash. *)
Definition receivedPrefixes (recv_prefix : list ascii) : list (list ascii) :=
  match dashLoc recv_prefix with
  | [] => []
  | dashLoc0 :: _ =>
      map (receivedPrefix recv_prefix dashLoc0) (dashLoc recv_prefix)
  end.

(** The members of the executor that only a prefix task sets. *)
Record PrefixBounds := {
  lowerBound : list ascii;
  upperBound : list ascii;
  enablePathPrefixFilter : bool;
  prefixDepth : N
}.

Section PrefixTask.
Context {S : Type} {SS : Searcher S}.

(** One round of the loop over [dashLoc]: find the suspended state for
    [recvP], give it the prefix and note it in [rangingResumedStates] and
    [resumePaths]. *)
Definition resumeForPrefix (acc : Executor (S := S) * list ptr * list string)
    (recvP : list ascii) : Res (Executor (S := S) * list ptr * list string) :=
  let '(ex, rangingResumedStates, resumePaths) := acc in
  (* converting it to 101010... format *)
  let resP := canonicalPath recvP in
  let prefixToResume := getPathToResume resP (prefixTree ex) in
  let resumePath := String.string_of_list_ascii prefixToResume in
  match prefixSuspendedStatesMap ex !! resumePath with
  | None => Fail AssertionFailure
  | Some resumedState =>
      st ← deref (heap ex) resumedState;
      let stPref := String.string_of_list_ascii recvP in
      let ex1 :=
        store resumedState (addPrefix stPref (N.of_nat (length recvP)) st) ex in
      if bool_decide (resumedState ∈ rangingResumedStates) then
        Ok (ex1, rangingResumedStates, resumePaths)
      else
        Ok (ex1, rangingResumedStates ++ [resumedState],
            resumePaths ++ [resumePath])
  end.

(** The branch of [Executor::run] for a [START_PREFIX_TASK] message, from
    the point where [MPI_Recv] has delivered [recv_prefix]. *)
Definition startPrefixTask (ex : Executor (S := S)) (recv_prefix : list ascii)
    : Res (PrefixBounds * Executor (S := S)) :=
  let bounds :=
    {| lowerBound := recv_prefix; upperBound := recv_prefix;
       enablePathPrefixFilter := true;
       prefixDepth := N.of_nat (length recv_prefix) |} in
  '(ex1, rangingResumedStates, resumePaths) ←
    foldl (λ acc recvP, a ← acc; resumeForPrefix a recvP) (Ok (ex, [], []))
          (receivedPrefixes recv_prefix);
  let states1 := foldl (λ l p, set_insert p l) (states ex1)
                       rangingResumedStates in
  s1 ← searcher_update (heap ex1) (searcher ex1) None states1 [];
  let map1 := foldl (λ m path, delete path m) (prefixSuspendedStatesMap ex1)
                    resumePaths in
  Ok (bounds,
      with_prefixSuspendedStatesMap map1
        (with_searcher s1 (with_states states1 ex1))).

End PrefixTask.

(** ** ExecutionState.h: snapshots, written addresses, recovered loads *)

Definition isResumed (s : ExecutionState) : bool := negb (isSuspended s).

Definition getCurrentSnapshotIndex (s : ExecutionState) : Res N :=
  _ ← assert (isNormalState s);
  _ ← assert (negb (bool_decide (snapshots s = [])));
  Ok (N.of_nat (length (snapshots s) - 1)).

Definition isBlockingLoadRecovered (s : ExecutionState) : Res bool :=
  _ ← assert (isNormalState s); Ok (blockingLoadStatus s).

Definition isAddressRecovered (address : N) (s : ExecutionState) : Res bool :=
  _ ← assert (isNormalState s);
  Ok (bool_decide (address ∈ recoveredLoads s)).

(** [addWrittenAddress]: [writtenAddresses[address]] makes a zeroed entry
    when there is none. *)
Definition addWrittenAddress (address size snapshotIndex : N)
    (s : ExecutionState) : Res ExecutionState :=
  _ ← assert (isNormalState s);
  let info :=
    default {| maxSize := 0; wa_snapshotIndex := 0 |}
            (writtenAddresses s !! address) in
  let maxSize1 := if maxSize info <? size then size else maxSize info in
  Ok (set_writtenAddresses
        (<[address := {| maxSize := maxSize1;
                         wa_snapshotIndex := snapshotIndex |}]>
           (writtenAddresses s)) s).

Definition isInDependentMode (s : ExecutionState) : Res bool :=
  _ ← assert (isNormalState s);
  sn ← getSnapshots s;
  Ok (negb (bool_decide (sn = []))).

(** ** Executor.cpp: reads and writes of a normal state *)

(** [Expr::Bool], the width of a one-bit value. *)
Definition Expr_Bool : N := 1.

(** [Executor::onNormalStateWrite(state, address, value)].  The opcode of
    [state.prevPC], its [mayOverride] flag and the width of [value] are
    given by [isStore], [mayOverride] and [width]. *)
Definition onNormalStateWrite (isStore mayOverride : bool) (width : N)
    (address : Expr) (s : ExecutionState) : Res ExecutionState :=
  dependent ← isInDependentMode s;
  if negb dependent then Ok s
  else if negb isStore then Ok s
  else if negb mayOverride then Ok s
  else
    match address with
    | ConstantExpr a =>
        let concreteAddress := getZExtValue a in
        sizeInBytes ←
          (if width =? Expr_Bool then Ok 1
           else
             _ ← assert (width / 8 * 8 =? width);
             Ok (width / 8));
        index ← getCurrentSnapshotIndex s;
        addWrittenAddress concreteAddress sizeInBytes index s
    | _ => Fail AssertionFailure
    end.

(** [Executor::onNormalStateRead(state, address, width)]. *)
Definition onNormalStateRead (address : Expr) (s : ExecutionState)
    : Res ExecutionState :=
  dependent ← isInDependentMode s;
  if negb dependent then Ok s
  else
    recovered ← isBlockingLoadRecovered s;
    if (recovered : bool) then Ok s
    else
      match address with
      | ConstantExpr a =>
          (* update recovered loads *)
          s1 ← addRecoveredAddress (getZExtValue a) s;
          markLoadAsRecovered s1
      | _ => Fail AssertionFailure
      end.

(** [Executor::isRecoveryRequired(state, ki)] from the point where the
    address of the load is resolved to the constant [address] and [size] is
    the number of bytes loaded. *)
Definition isRecoveryRequired (address size : N) (s : ExecutionState)
    : Res (bool * ExecutionState) :=
  (* check if already recovered *)
  recovered ← isAddressRecovered address s;
  if (recovered : bool) then Ok (false, s)
  else
    (* check if someone has written to this location *)
    r ← getWrittenAddressInfo address size s;
    match r with
    | (true, Some info) =>
        index ← getCurrentSnapshotIndex s;
        if index =? wa_snapshotIndex info then
          s1 ← markLoadAsUnrecovered s;
          Ok (false, s1)
        else Ok (true, s)
    | _ => Ok (true, s)        (* this address was not overriden *)
    end.

(** [Executor::isMayBlockingLoad(state, ki)]; [mayBlock] and [hasNoUses]
    are [ki->mayBlock] and [ki->inst->hasNUses(0)]. *)
Definition isMayBlockingLoad (mayBlock hasNoUses : bool) (address size : N)
    (s : ExecutionState) : Res (bool * ExecutionState) :=
  if negb mayBlock then Ok (false, s)
  else if hasNoUses then Ok (false, s)
  else isRecoveryRequired address size s.

(** ** Searcher.h / Searcher.cpp: SplittedSearcher *)

(** [Searcher::empty()]. *)
Class SearcherEmpty (S : Type) := searcher_empty : S → bool.

#[global] Instance DFS_empty : SearcherEmpty DFSSearcher :=
  λ s, bool_decide (s = []).

#[global] Instance BFS_empty : SearcherEmpty BFSSearcher :=
  λ s, bool_decide (bfs_states s = []).

Record SplittedSearcher (B R : Type) := {
  baseSearcher : B;
  recoverySearcher : R;
  ratio : N
}.
Arguments baseSearcher {B R} _.
Arguments recoverySearcher {B R} _.
Arguments ratio {B R} _.

(** The two loops of [SplittedSearcher::update] that split a vector of
    states: result [(originating, recovery)]. *)
Definition splitStates (h : gmap ptr ExecutionState) (l : list ptr)
    : Res (list ptr * list ptr) :=
  foldl (λ acc es,
           '(originating, recovery) ← acc;
           st ← deref h es;
           if isRecoveryState st then Ok (originating, recovery ++ [es])
           else Ok (originating ++ [es], recovery))
        (Ok ([], [])) l.

Section Splitted.
Context {B R : Type} {SB : Searcher B} {SR : Searcher R}
        {EB : SearcherEmpty B} {ER : SearcherEmpty R}.

(** [SplittedSearcher::selectState]; [rnd] is the value [theRNG.getInt32()]
    gives when it is drawn. *)
Definition Splitted_selectState (rnd : N) (s : SplittedSearcher B R)
    : Res ptr :=
  if searcher_empty (baseSearcher s) then
    (* the recovery states are supposed to be not empty *)
    searcher_selectState (recoverySearcher s)
  else if searcher_empty (recoverySearcher s) then
    (* the base searcher is supposed to be not empty *)
    searcher_selectState (baseSearcher s)
  else if rnd mod 100 <? ratio s then
    searcher_selectState (recoverySearcher s)
  else searcher_selectState (baseSearcher s).

Definition Splitted_update (h : gmap ptr ExecutionState)
    (s : SplittedSearcher B R) (current : option ptr)
    (addedStates removedStates : list ptr) : Res (SplittedSearcher B R) :=
  '(addedOriginatingStates, addedRecoveryStates) ← splitStates h addedStates;
  '(removedOriginatingStates, removedRecoveryStates) ←
    splitStates h removedStates;
  currentIsRecovery ←
    match current with
    | Some c => st ← deref h c; Ok (Some (isRecoveryState st))
    | None => Ok None
    end;
  b1 ← searcher_update h (baseSearcher s)
         (if currentIsRecovery is Some true then None else current)
         addedOriginatingStates removedOriginatingStates;
  r1 ← searcher_update h (recoverySearcher s)
         (if currentIsRecovery is Some false then None else current)
         addedRecoveryStates removedRecoveryStates;
  Ok {| baseSearcher := b1; recoverySearcher := r1; ratio := ratio s |}.

Definition Splitted_empty (s : SplittedSearcher B R) : bool :=
  searcher_empty (baseSearcher s) && searcher_empty (recoverySearcher s).

Definition Splitted_getSize (s : SplittedSearcher B R) : nat :=
  searcher_getSize (baseSearcher s) + searcher_getSize (recoverySearcher s).

End Splitted.

Definition set_snapshots v (s : ExecutionState) : ExecutionState :=
  {| type := type s; suspendStatus := suspendStatus s; snapshots := v;
     recoveryState := recoveryState s;
     blockingLoadStatus := blockingLoadStatus s;
     recoveredLoads := recoveredLoads s;
     allocationRecord := allocationRecord s;
     guidingConstraints := guidingConstraints s;
     writtenAddresses := writtenAddresses s;
     pendingRecoveryInfos := pendingRecoveryInfos s;
     recoveryCache := recoveryCache s; exitInst := exitInst s;
     dependentState := dependentState s;
     originatingState := originatingState s; recoveryInfo := recoveryInfo s;
     guidingAllocationRecord := guidingAllocationRecord s; level := level s;
     priority := priority s; pc := pc s; prevPC := prevPC s;
     addressSpace := addressSpace s; constraints := constraints s;
     depth := depth s; actDepth := actDepth s; prefixes := prefixes s;
     branchHist := branchHist s; forkDisabled := forkDisabled s |}.

(** [ExecutionState::addSnapshot]. *)
Definition addSnapshot (snapshot : Snapshot) (s : ExecutionState)
    : Res ExecutionState :=
  _ ← assert (isNormalState s);
  Ok (set_snapshots (snapshots s ++ [snapshot]) s).

(** ** Executor.cpp: a load that may block *)

Section BlockingLoad.
Context {S : Type} {SS : Searcher S}.


End BlockingLoad.

(** * Concrete inputs

    Small configurations on which the model can be run. *)

Module Examples.

(** Bytes past the end of a buffer read as NUL. *)
Definition zeroBytes : UnspecifiedBytes := λ _ _, "000"%char.

(** A normal state at depth 0 with nothing recorded. *)
Definition blankState : ExecutionState :=
  {| type := NORMAL_STATE; suspendStatus := false; snapshots := [];
     recoveryState := None; blockingLoadStatus := true; recoveredLoads := ∅;
     allocationRecord := []; guidingConstraints := [];
     writtenAddresses := ∅; pendingRecoveryInfos := []; recoveryCache := ∅;
     exitInst := None; dependentState := None; originatingState := None;
     recoveryInfo := None; guidingAllocationRecord := []; level := 0;
     priority := PRIORITY_LOW; pc := 0; prevPC := 0; addressSpace := ∅;
     constraints := []; depth := 0; actDepth := 0; prefixes := [];
     branchHist := []; forkDisabled := false |}.

(** A normal state at actual depth [d]. *)
Definition stateAtActDepth (d : N) : ExecutionState :=
  {| type := NORMAL_STATE; suspendStatus := false; snapshots := [];
     recoveryState := None; blockingLoadStatus := true; recoveredLoads := ∅;
     allocationRecord := []; guidingConstraints := [];
     writtenAddresses := ∅; pendingRecoveryInfos := []; recoveryCache := ∅;
     exitInst := None; dependentState := None; originatingState := None;
     recoveryInfo := None; guidingAllocationRecord := []; level := 0;
     priority := PRIORITY_LOW; pc := 0; prevPC := 0; addressSpace := ∅;
     constraints := []; depth := 0; actDepth := d; prefixes := [];
     branchHist := []; forkDisabled := false |}.

(** A state that has replayed [hist] and is guided by [ps]. *)
Definition stateAt (hist : list ascii) (ps : list (string * N))
    : ExecutionState :=
  set_prefixes ps
    (set_depth (N.of_nat (length hist)) (set_branchHist hist blankState)).

(** The master: no replay, no fork limit, a solver that cannot decide
    anything and a random generator that always says [true]. *)
Definition masterConfig : Config :=
  {| coreId := 0; replayPath := None; replayKTest := false;
     MaxMemoryInhibit := false; atMemoryLimit := false;
     inhibitForking := false; MaxForks := 2 ^ 32 - 1;
     solver_evaluate := λ _ _, Some Solver_Unknown;
     theRNG_getBool := λ _, true |}.

(** The master with a solver that finds every condition true. *)
Definition certainConfig : Config :=
  {| coreId := 0; replayPath := None; replayKTest := false;
     MaxMemoryInhibit := false; atMemoryLimit := false;
     inhibitForking := false; MaxForks := 2 ^ 32 - 1;
     solver_evaluate := λ _ _, Some Solver_True;
     theRNG_getBool := λ _, true |}.

(** A worker with the same collaborators. *)
Definition workerConfig : Config :=
  {| coreId := 1; replayPath := None; replayKTest := false;
     MaxMemoryInhibit := false; atMemoryLimit := false;
     inhibitForking := false; MaxForks := 2 ^ 32 - 1;
     solver_evaluate := λ _ _, Some Solver_Unknown;
     theRNG_getBool := λ _, true |}.

(** An executor with a depth-first searcher that holds the states [sts], all
    of them live and known to the searcher. *)
Definition executorOf (cfg : Config) (sts : list (nat * ExecutionState))
    : Executor (S := DFSSearcher) :=
  {| heap := list_to_map sts; states := sts.*1; searcher := sts.*1;
     addedStates := []; removedStates := []; rangingSuspendedStates := [];
     suspendedStates := []; resumedStates := []; nonRecoveryStates := ∅;
     prefixSuspendedStatesMap := ∅; prefixTree := PTNode PTNull PTNull;
     haltExecution := false; haltFromMaster := false; ready2Offload := true;
     waiting4OffloadReq := false; replayPosition := 0; forks := 0;
     rngPos := 0; mpiInbox := []; mpiSent := []; config := cfg |}.

(** A symbolic branch condition. *)
Definition x_positive : Expr := SymbolicExpr 7.

(** Two states, [1] at actual depth 1 and [2] at actual depth 3, and the
    store after state [2] has moved on to actual depth 4. *)
Definition bfsHeap : gmap nat ExecutionState :=
  list_to_map [(1%nat, stateAtActDepth 1); (2%nat, stateAtActDepth 3)].
Definition bfsHeapLater : gmap nat ExecutionState :=
  list_to_map [(1%nat, stateAtActDepth 1); (2%nat, stateAtActDepth 4)].

(** [ex] with the messages [msgs] waiting from the master. *)
Definition withInbox (msgs : list (N * list ascii))
    (ex : Executor (S := DFSSearcher)) : Executor (S := DFSSearcher) :=
  with_mpiInbox msgs ex.

(** A worker with three live states that has received [OFFLOAD]. *)
Definition smallWorker : Executor (S := DFSSearcher) :=
  withInbox [(OFFLOAD, [])]
    (executorOf workerConfig
       [(1%nat, stateAt ["0"%char] []); (2%nat, stateAt ["1"%char; "0"%char] []);
        (3%nat, stateAt ["1"%char; "1"%char] [])]).


(** The snapshot taken when function [5] was skipped; the state it holds is
    at address [3]. *)
Definition skipped : Snapshot := {| snap_state := 3%nat; snap_f := 5 |}.

(** [s] after the functions of [sn] were skipped. *)
Definition withSnapshots (sn : list Snapshot) (s : ExecutionState)
    : ExecutionState :=
  {| type := type s; suspendStatus := suspendStatus s; snapshots := sn;
     recoveryState := recoveryState s;
     blockingLoadStatus := blockingLoadStatus s;
     recoveredLoads := recoveredLoads s;
     allocationRecord := allocationRecord s;
     guidingConstraints := guidingConstraints s;
     writtenAddresses := writtenAddresses s;
     pendingRecoveryInfos := pendingRecoveryInfos s;
     recoveryCache := recoveryCache s; exitInst := exitInst s;
     dependentState := dependentState s;
     originatingState := originatingState s; recoveryInfo := recoveryInfo s;
     guidingAllocationRecord := guidingAllocationRecord s; level := level s;
     priority := priority s; pc := pc s; prevPC := prevPC s;
     addressSpace := addressSpace s; constraints := constraints s;
     depth := depth s; actDepth := actDepth s; prefixes := prefixes s;
     branchHist := branchHist s; forkDisabled := forkDisabled s |}.

(** The recovery info of a load of 4 bytes at address [100] that slice [3]
    of function [5] may have written, for the snapshot number [index]. *)
Definition infoAt (index : N) : RecoveryInfo :=
  {| loadInst := 0; loadAddr := 100; loadSize := 4; ri_f := 5; sliceId := 3;
     ri_snapshot := skipped; snapshotIndex := index; subId := 0 |}.





(** A suspended state that waits for the recovery state at address [2] and
    has [pending] still to recover; its memory object [7] is empty. *)
Definition waitingState (pending : list RecoveryInfo) : ExecutionState :=
  set_addressSpace {[ 7 := ∅ ]}
    (set_pendingRecoveryInfos pending
       (set_recoveryState (Some 2%nat)
          (set_suspendStatus true (withSnapshots [skipped] blankState)))).

(** The recovery state of the state at address [1], for [infoAt 0]. *)
Definition recoveringState : ExecutionState :=
  set_recoveryInfo (Some (infoAt 0))
    (set_originatingState (Some 1%nat)
       (set_dependentState (Some 1%nat) (set_type RECOVERY_STATE blankState))).

(** The waiting state at [1], its recovery state at [2], and the state of
    the snapshot at [3]. *)
Definition recoveryOf (pending : list RecoveryInfo)
    : Executor (S := DFSSearcher) :=
  executorOf masterConfig
    [(1%nat, waitingState pending); (2%nat, recoveringState);
     (3%nat, blankState)].

End Examples.

(** * Further concrete inputs *)

Module MoreExamples.

(** A worker that has given away its only state, with history [01]: the
    state is in the store and nowhere else. *)
Definition idleWorker : Executor (S := DFSSearcher) :=
  with_states []
    (with_searcher []
       (Examples.executorOf Examples.workerConfig
          [(1%nat, Examples.stateAt ["0"; "1"]%char [])])).

(** [idleWorker] after the state has been filed under its history. *)
Definition filedWorker : Executor (S := DFSSearcher) :=
  match fileSuspended idleWorker [1%nat] with
  | Ok ex => ex
  | Fail _ => idleWorker
  end.

(** Two originating states, [1] and [3], and the recovery state [2]. *)
Definition mixedHeap : gmap nat ExecutionState :=
  list_to_map [(1%nat, Examples.blankState); (2%nat, Examples.recoveringState);
               (3%nat, Examples.blankState)].

(** A splitted searcher with ratio 20 that holds state [1]. *)
Definition splitOne : SplittedSearcher DFSSearcher DFSSearcher :=
  {| baseSearcher := [1%nat]; recoverySearcher := []; ratio := 20 |}.

(** The master with forking inhibited globally and a random generator that
    always says [false]. *)
Definition inhibitedConfig : Config :=
  {| coreId := 0; replayPath := None; replayKTest := false;
     MaxMemoryInhibit := false; atMemoryLimit := false;
     inhibitForking := true; MaxForks := 2 ^ 32 - 1;
     solver_evaluate := λ _ _, Some Solver_Unknown;
     theRNG_getBool := λ _, false |}.

(** The master with a solver that times out on every query. *)
Definition timeoutConfig : Config :=
  {| coreId := 0; replayPath := None; replayKTest := false;
     MaxMemoryInhibit := false; atMemoryLimit := false;
     inhibitForking := false; MaxForks := 2 ^ 32 - 1;
     solver_evaluate := λ _ _, None;
     theRNG_getBool := λ _, true |}.

(** The end of a round on the master: states [1] and [2] are live, state
    [3] has been added and state [2] removed. *)
Definition roundEnd : Executor (S := DFSSearcher) :=
  with_removedStates [2%nat]
    (with_addedStates [3%nat]
       (with_states [1; 2]%nat
          (with_searcher [1; 2]%nat
             (Examples.executorOf Examples.masterConfig
                [(1%nat, Examples.blankState); (2%nat, Examples.blankState);
                 (3%nat, Examples.blankState)])))).


(** The recovery state at [2] of the suspended state at [1] has just been
    branched: its sibling is at [5] and still points to state [1]. *)
Definition branchedRecovery : Executor (S := DFSSearcher) :=
  Examples.executorOf Examples.masterConfig
    [(1%nat, Examples.waitingState []); (2%nat, Examples.recoveringState);
     (3%nat, Examples.blankState); (5%nat, Examples.recoveringState)].

End MoreExamples.

(** * Properties *)

(** ** The error monad *)

Lemma bind_Ok {A B} (m : Res A) (f : A → Res B) (b : B) :
  m ≫= f = Ok b → ∃ a, m = Ok a ∧ f a = Ok b.
Proof. destruct m as [a|e]; simpl; [eauto | discriminate]. Qed.

Lemma assert_Ok b : assert b = Ok tt → b = true.
Proof. destruct b; [done | discriminate]. Qed.

Lemma assert_true_bind {B} (b : bool) (k : unit → Res B) :
  b = true → assert b ≫= k = k tt.
Proof. by intros ->. Qed.

(** Take a successful monadic computation apart, one bind at a time. *)
Ltac inv_bind H :=
  let a := fresh "a" in
  let Ha := fresh "Ha" in
  apply bind_Ok in H as (a & Ha & H).

Tactic Notation "bind_inv" hyp(H) "as" simple_intropattern(a) ident(Ha) :=
  apply bind_Ok in H as (a & Ha & H).

Ltac inv_assert H :=
  let Ha := fresh "Hassert" in
  let u := fresh "u" in
  apply bind_Ok in H as (u & Ha & H); destruct u; apply assert_Ok in Ha.

(** ** Prefix-guided branch selection *)

Section BranchToTake.
Context {UB : UnspecifiedBytes}.

(** The two inner assertions of [branchToTake] compare one character with
    both ['2'] and ['3'] and can never fire. *)
Lemma inner_assert_dead (c : ascii) :
  assert (negb (Ascii.eqb c "2" && Ascii.eqb c "3")) = Ok tt.
Proof.
  destruct (Ascii.eqb_spec c "2") as [->|]; [done|].
  by destruct (Ascii.eqb c "3").
Qed.

Lemma branchToTake_loop_agree p0 rest d :
  Forall (λ p, prefixAt p d = prefixAt p0 d) rest →
  branchToTake_loop p0 rest d = Ok None.
Proof.
  induction 1 as [|p rest Hp _ IH]; simpl; [done|].
  rewrite Hp, Ascii.eqb_refl. exact IH.
Qed.

Lemma branchToTake_loop_disagree p0 rest d :
  Exists (λ p, prefixAt p d ≠ prefixAt p0 d) rest →
  branchToTake_loop p0 rest d = Ok (Some 2%Z).
Proof.
  induction rest as [|p rest IH]; intros Hex; [by inversion Hex|].
  simpl. destruct (Ascii.eqb_spec (prefixAt p d) (prefixAt p0 d)) as [Heq|Hne].
  - simpl. apply IH. inversion Hex; subst; [contradiction | done].
  - simpl. by rewrite !inner_assert_dead.
Qed.

Lemma branchToTake_loop_cases p0 rest d :
  (Forall (λ p, prefixAt p d = prefixAt p0 d) rest
   ∧ branchToTake_loop p0 rest d = Ok None)
  ∨ (Exists (λ p, prefixAt p d ≠ prefixAt p0 d) rest
     ∧ branchToTake_loop p0 rest d = Ok (Some 2%Z)).
Proof.
  destruct (decide (Forall (λ p, prefixAt p d = prefixAt p0 d) rest))
    as [Hall|Hnot].
  - left. split; [done | by apply branchToTake_loop_agree].
  - right. apply not_Forall_Exists in Hnot; [|solve_decision].
    split; [done | by apply branchToTake_loop_disagree].
Qed.

(** C10.  [branchToTake] returns a value only when the first prefix carries
    one of ['0'], ['1'], ['2'], ['3'] at the current depth or some prefix
    disagrees with the first there; when all prefixes agree on another
    character it reaches its end without [return]; and when every prefix is
    over that alphabet at the current depth (and the depth is below the
    length of the first prefix) it does return. *)
Theorem branchToTake_alphabet (s : ExecutionState) :
  (∀ r fs, branchToTake s = Ok (r, fs) →
     ∃ p0 rest, prefixes s = p0 :: rest ∧
       (digit (prefixAt p0 (depth s)) = true
        ∨ Exists (λ p, prefixAt p (depth s) ≠ prefixAt p0 (depth s)) rest))
  ∧ (∀ p0 rest, prefixes s = p0 :: rest → depth s < p0.2 →
       Forall (λ p, prefixAt p (depth s) = prefixAt p0 (depth s)) rest →
       digit (prefixAt p0 (depth s)) = false →
       branchToTake s = Fail MissingReturn)
  ∧ (∀ p0 rest, prefixes s = p0 :: rest → depth s < p0.2 →
       Forall (λ p, digit (prefixAt p (depth s)) = true) (p0 :: rest) →
       is_Ok (branchToTake s)).
Proof.
  unfold branchToTake, digit. split; [|split].
  - intros r fs Hret. destruct (prefixes s) as [|p0 rest]; [discriminate|].
    exists p0, rest. split; [done|].
    inv_assert Hret.
    destruct (branchToTake_loop_cases p0 rest (depth s)) as [[_ Hl]|[Hex Hl]];
      rewrite Hl in Hret; simpl in Hret; [|by right].
    left. repeat case_match; try done.
  - intros p0 rest -> Hlt Hall Hnd.
    apply N.ltb_lt in Hlt. rewrite Hlt. simpl.
    rewrite (branchToTake_loop_agree _ _ _ Hall). simpl.
    repeat (apply orb_false_elim in Hnd as [Hnd ?]).
    repeat case_match; congruence.
  - intros p0 rest -> Hlt Hall.
    apply N.ltb_lt in Hlt. rewrite Hlt. simpl.
    destruct (branchToTake_loop_cases p0 rest (depth s)) as [[_ Hl]|[_ Hl]];
      rewrite Hl; simpl; [|done].
    apply Forall_cons_1 in Hall as [H0 _].
    repeat case_match; done.
Qed.

End BranchToTake.

(** The three parts of [branchToTake_alphabet] on the states guided by
    ["01"] (a return), by ["0x"] at depth 1 (no return) and by ["02"],
    ["03"] at depth 1 (a disagreement). *)
Lemma branchToTake_alphabet_witness :
  branchToTake (UB := Examples.zeroBytes)
    (Examples.stateAt ["0"%char] [("01"%string, 2)]) = Ok (1%Z, true)
  ∧ branchToTake (UB := Examples.zeroBytes)
      (Examples.stateAt ["0"%char] [("0x"%string, 2)]) = Fail MissingReturn
  ∧ is_Ok (branchToTake (UB := Examples.zeroBytes)
             (Examples.stateAt ["0"%char] [("02"%string, 2); ("03"%string, 2)])).
Proof.
  pose proof (branchToTake_alphabet (UB := Examples.zeroBytes)) as T.
  split; [reflexivity|]. split.
  - destruct (T (Examples.stateAt ["0"%char] [("0x"%string, 2)]))
      as (_ & Hb & _).
    apply (Hb ("0x"%string, 2) []);
      [reflexivity | reflexivity | constructor | reflexivity].
  - destruct (T (Examples.stateAt ["0"%char]
                   [("02"%string, 2); ("03"%string, 2)])) as (_ & _ & Hc).
    apply (Hc ("02"%string, 2) [("03"%string, 2)]);
      [reflexivity | reflexivity | repeat constructor].
Defined.

(** ** Frame properties of the operations on the store *)

Definition same_hist (s s' : ExecutionState) : Prop :=
  depth s' = depth s ∧ branchHist s' = branchHist s.

(** [s'] is [s] with, at most, constraints appended and links or flags
    changed. *)
Definition state_ext (s s' : ExecutionState) : Prop :=
  same_hist s s' ∧ prefixes s' = prefixes s
  ∧ constraints s `prefix_of` constraints s'.

(** Every state of [h'] has the depth and history of some state of [h]. *)
Definition heap_from (h h' : gmap ptr ExecutionState) : Prop :=
  ∀ p s', h' !! p = Some s' → ∃ p0 s, h !! p0 = Some s ∧ same_hist s s'.

(** Every state of [h] is still there in [h'], extended. *)
Definition heap_keeps (h h' : gmap ptr ExecutionState) : Prop :=
  ∀ p s, h !! p = Some s → ∃ s', h' !! p = Some s' ∧ state_ext s s'.

Lemma same_hist_refl s : same_hist s s.
Proof. by split. Qed.

Lemma same_hist_trans s1 s2 s3 :
  same_hist s1 s2 → same_hist s2 s3 → same_hist s1 s3.
Proof. intros [? ?] [? ?]. split; congruence. Qed.

Lemma state_ext_refl s : state_ext s s.
Proof. repeat split; done. Qed.

Lemma state_ext_trans s1 s2 s3 :
  state_ext s1 s2 → state_ext s2 s3 → state_ext s1 s3.
Proof.
  intros (H1 & P1 & C1) (H2 & P2 & C2).
  split; [by eapply same_hist_trans|]. split; [congruence|].
  by etrans.
Qed.

Lemma heap_from_refl h : heap_from h h.
Proof. intros p s Hp. exists p, s. split; [done | apply same_hist_refl]. Qed.

Lemma heap_from_trans h1 h2 h3 :
  heap_from h1 h2 → heap_from h2 h3 → heap_from h1 h3.
Proof.
  intros H12 H23 p s3 Hp.
  destruct (H23 _ _ Hp) as (p2 & s2 & Hp2 & Hs23).
  destruct (H12 _ _ Hp2) as (p1 & s1 & Hp1 & Hs12).
  exists p1, s1. split; [done | by eapply same_hist_trans].
Qed.

Lemma heap_keeps_refl h : heap_keeps h h.
Proof. intros p s Hp. exists s. split; [done | apply state_ext_refl]. Qed.

Lemma heap_keeps_trans h1 h2 h3 :
  heap_keeps h1 h2 → heap_keeps h2 h3 → heap_keeps h1 h3.
Proof.
  intros H12 H23 p s1 Hp.
  destruct (H12 _ _ Hp) as (s2 & Hp2 & Hs12).
  destruct (H23 _ _ Hp2) as (s3 & Hp3 & Hs23).
  exists s3. split; [done | by eapply state_ext_trans].
Qed.

Lemma deref_Some h p s : deref h p = Ok s ↔ h !! p = Some s.
Proof. unfold deref. destruct (h !! p); split; intros; simplify_eq; done. Qed.

Lemma heap_from_insert h p s s0 p0 :
  h !! p0 = Some s0 → same_hist s0 s → heap_from h (<[p := s]> h).
Proof.
  intros Hp0 Hs q s' Hq. destruct (decide (p = q)) as [->|Hne].
  - rewrite lookup_insert_eq in Hq. simplify_eq. eauto.
  - rewrite lookup_insert_ne in Hq by done. exists q, s'.
    split; [done | apply same_hist_refl].
Qed.

Lemma heap_keeps_update h p s s' :
  h !! p = Some s → state_ext s s' → heap_keeps h (<[p := s']> h).
Proof.
  intros Hp Hs q t Hq. destruct (decide (p = q)) as [->|Hne].
  - rewrite lookup_insert_eq. simplify_eq. eauto.
  - rewrite lookup_insert_ne by done. exists t.
    split; [done | apply state_ext_refl].
Qed.

Lemma heap_keeps_alloc h p s :
  h !! p = None → heap_keeps h (<[p := s]> h).
Proof.
  intros Hp q t Hq. destruct (decide (p = q)) as [->|Hne]; [congruence|].
  rewrite lookup_insert_ne by done. exists t.
  split; [done | apply state_ext_refl].
Qed.

Lemma heap_from_delete h p : heap_from h (delete p h).
Proof.
  intros q s Hq. apply lookup_delete_Some in Hq as [_ Hq].
  exists q, s. split; [done | apply same_hist_refl].
Qed.

Lemma fresh_heap (h : gmap ptr ExecutionState) : h !! fresh (dom h) = None.
Proof. apply not_elem_of_dom, is_fresh. Qed.

Section Frames.
Context {S : Type} {SS : Searcher S} {UB : UnspecifiedBytes}.
Implicit Types ex : Executor (S := S).

(** [ex'] differs from [ex] in the store only, every state of [ex] is kept
    and extended, and every state of [ex'] has the history of one of [ex]. *)
Definition frame ex ex' : Prop :=
  ex' = with_heap (heap ex') ex
  ∧ heap_keeps (heap ex) (heap ex')
  ∧ heap_from (heap ex) (heap ex').

Lemma frame_refl ex : frame ex ex.
Proof.
  split; [by destruct ex|].
  split; [apply heap_keeps_refl | apply heap_from_refl].
Qed.

Lemma frame_trans ex1 ex2 ex3 : frame ex1 ex2 → frame ex2 ex3 → frame ex1 ex3.
Proof.
  intros (E12 & K12 & F12) (E23 & K23 & F23). split; [|split].
  - rewrite E23 at 1. rewrite E12. reflexivity.
  - by eapply heap_keeps_trans.
  - by eapply heap_from_trans.
Qed.

Lemma frame_store ex p s s' :
  heap ex !! p = Some s → state_ext s s' → frame ex (store p s' ex).
Proof.
  intros Hp Hs. split; [reflexivity|]. split; simpl.
  - by eapply heap_keeps_update.
  - eapply heap_from_insert; [done | apply Hs].
Qed.

Lemma frame_new_state ex p0 s0 s :
  heap ex !! p0 = Some s0 → same_hist s0 s →
  frame ex (new_state s ex).2.
Proof.
  intros Hp0 Hs. split; [reflexivity|]. split; simpl.
  - apply heap_keeps_alloc, fresh_heap.
  - by eapply heap_from_insert.
Qed.

Lemma state_addConstraint_ext e s s' :
  state_addConstraint e s = Ok s' →
  state_ext s s' ∧ constraints s' = constraints s ++ [e]
  ∧ type s' = type s ∧ suspendStatus s' = suspendStatus s.
Proof.
  unfold state_addConstraint, getSnapshots, addGuidingConstraint,
    ConstraintManager_addConstraint.
  intros Hs.
  assert (Hgoal : ∀ t, constraints t = constraints s ++ [e] →
            depth t = depth s → branchHist t = branchHist s →
            prefixes t = prefixes s →
            state_ext s t).
  { intros t Hc Hd Hh Hp. repeat split; try done.
    rewrite Hc. by apply prefix_app_r. }
  destruct (isNormalState _ && negb (isRecoveryState _)).
  - inv_bind Hs. inv_assert Ha. simplify_eq. destruct (negb _).
    + inv_assert Hs. case_decide; simplify_eq; split; by try apply Hgoal.
    + simplify_eq. split; by try apply Hgoal.
  - simplify_eq. split; by try apply Hgoal.
Qed.

Lemma addConstraint_frame ex p e ex' :
  addConstraint ex p e = Ok ex' → frame ex ex'.
Proof.
  unfold addConstraint. intros Hf. destruct e as [v| | |];
    try (inv_bind Hf; inv_bind Hf; simplify_eq;
         apply deref_Some in Ha;
         apply state_addConstraint_ext in Ha0 as (Hext & _);
         by eapply frame_store).
  case_match; simplify_eq. apply frame_refl.
Qed.

(** A condition that is not a constant lands at the end of the path
    constraints of the state. *)
Lemma addConstraint_adds ex p e ex' s :
  isConstantExpr e = false → heap ex !! p = Some s →
  addConstraint ex p e = Ok ex' →
  ∃ s', heap ex' !! p = Some s' ∧ constraints s' = constraints s ++ [e]
        ∧ state_ext s s' ∧ type s' = type s
        ∧ suspendStatus s' = suspendStatus s.
Proof.
  unfold addConstraint. intros Hc Hp Hf. destruct e as [v| | |]; [done|..];
    inv_bind Hf; inv_bind Hf; simplify_eq;
    apply deref_Some in Ha; simplify_eq;
    apply state_addConstraint_ext in Ha0 as (Hext & Hcs & Hty & Hsu);
    eexists; (split; [apply lookup_insert_eq|]); done.
Qed.

End Frames.

Ltac solve_state_ext :=
  repeat split; simpl; try done; try reflexivity.

Lemma addGuidingConstraint_ext e s s' :
  addGuidingConstraint e s = Ok s' →
  state_ext s s' ∧ constraints s' = constraints s.
Proof.
  unfold addGuidingConstraint. intros Hs. inv_assert Hs.
  case_decide; simplify_eq; solve_state_ext.
Qed.

Lemma setRecoveryState_ext r b s s' :
  setRecoveryState r b s = Ok s' →
  state_ext s s' ∧ constraints s' = constraints s.
Proof.
  unfold setRecoveryState. intros Hs. inv_assert Hs. inv_bind Hs.
  simplify_eq. solve_state_ext.
Qed.

Lemma setDependentState_ext d b s s' :
  setDependentState d b s = Ok s' →
  state_ext s s' ∧ constraints s' = constraints s.
Proof.
  unfold setDependentState. intros Hs. inv_assert Hs. inv_assert Hs.
  simplify_eq. solve_state_ext.
Qed.

Lemma setOriginatingState_ext o b s s' :
  setOriginatingState o b s = Ok s' →
  state_ext s s' ∧ constraints s' = constraints s.
Proof.
  unfold setOriginatingState. intros Hs. inv_assert Hs. inv_assert Hs.
  simplify_eq. solve_state_ext.
Qed.

Section ChainFrames.
Context {S : Type} {SS : Searcher S} {UB : UnspecifiedBytes}.
Implicit Types ex : Executor (S := S).

Lemma mergeConstraints_frame ex p e ex' :
  mergeConstraints ex p e = Ok ex' → frame ex ex'.
Proof.
  unfold mergeConstraints. intros Hf. inv_bind Hf. inv_assert Hf.
  by eapply addConstraint_frame.
Qed.

Lemma mergeConstraintsForAll_loop_frame fuel ex p e ex' :
  mergeConstraintsForAll_loop fuel ex p e = Ok ex' → frame ex ex'.
Proof.
  revert ex p. induction fuel as [|fuel IH]; intros ex p Hf; [done|].
  simpl in Hf. inv_bind Hf. apply mergeConstraints_frame in Ha.
  inv_bind Hf. destruct (isRecoveryState a0).
  - inv_bind Hf. destruct a1 as [n|]; simplify_eq; [|done].
    eapply frame_trans; [done | by eapply IH].
  - by simplify_eq.
Qed.

Lemma mergeConstraintsForAll_frame ex p e ex' :
  mergeConstraintsForAll ex p e = Ok ex' → frame ex ex'.
Proof.
  unfold mergeConstraintsForAll. intros Hf. inv_bind Hf. inv_bind Hf.
  destruct a0 as [next|]; [|done].
  inv_bind Hf. apply mergeConstraintsForAll_loop_frame in Ha1.
  inv_bind Hf. inv_bind Hf. destruct a2 as [orig|]; [|done].
  inv_bind Hf. inv_bind Hf. simplify_eq.
  eapply frame_trans; [done|].
  apply deref_Some in Ha4. apply addGuidingConstraint_ext in Ha5 as [? _].
  by eapply frame_store.
Qed.

Lemma forkDependentStates_fork_frame fuel ex cur prev ex' o :
  forkDependentStates_fork fuel ex cur prev = Ok (ex', o) → frame ex ex'.
Proof.
  revert ex cur prev. induction fuel as [|fuel IH]; intros ex cur prev Hf;
    [done|].
  simpl in Hf. inv_bind Hf. apply deref_Some in Ha.
  inv_assert Hf. inv_bind Hf. inv_bind Hf. inv_bind Hf. inv_bind Hf.
  inv_bind Hf.
  apply deref_Some in Ha0, Ha2, Ha4.
  apply setRecoveryState_ext in Ha1 as [Hx1 _].
  apply setDependentState_ext in Ha3 as [Hx3 _].
  assert (Hfr : frame ex
            (store prev a3
               (store (fresh (dom (heap ex))) a1
                  (store (fresh (dom (heap ex))) (ExecutionState_copy a) ex)))).
  { eapply frame_trans; [|eapply frame_trans].
    - eapply (frame_new_state ex cur a); [done | apply same_hist_refl].
    - eapply frame_store; [apply lookup_insert_eq | done].
    - eapply frame_store; [done | done]. }
  destruct (isRecoveryState a4).
  - inv_bind Hf. destruct a5 as [next|]; simplify_eq; [|done].
    eapply frame_trans; [done | by eapply IH].
  - by simplify_eq.
Qed.

Lemma forkDependentStates_originating_frame fuel ex cur o ex' :
  forkDependentStates_originating fuel ex cur o = Ok ex' → frame ex ex'.
Proof.
  revert ex cur. induction fuel as [|fuel IH]; intros ex cur Hf; [done|].
  simpl in Hf. inv_bind Hf. apply deref_Some in Ha.
  destruct (isRecoveryState a); [|simplify_eq; apply frame_refl].
  destruct o as [o|]; [|done].
  inv_bind Hf. inv_bind Hf. inv_bind Hf.
  apply setOriginatingState_ext in Ha1 as [Hx _].
  assert (frame ex (store cur a1 ex)) by by eapply frame_store.
  destruct a2 as [next|]; simplify_eq; [|done].
  eapply frame_trans; [done | by eapply IH].
Qed.

Lemma forkDependentStates_frame ex t f ex' :
  forkDependentStates ex t f = Ok ex' → frame ex ex'.
Proof.
  unfold forkDependentStates. intros Hf. inv_bind Hf. inv_bind Hf.
  destruct a0 as [cur|]; [|done]. inv_bind Hf. destruct a0 as [ex1 o].
  eapply frame_trans.
  - by eapply forkDependentStates_fork_frame.
  - by eapply forkDependentStates_originating_frame.
Qed.

Lemma modify_Ok ex p f ex' :
  modify p f ex = Ok ex' →
  ∃ s, heap ex !! p = Some s ∧ ex' = store p (f s) ex.
Proof.
  unfold modify. intros Hf. inv_bind Hf. apply deref_Some in Ha.
  simplify_eq. eauto.
Qed.

End ChainFrames.

Section ForkLemmas.
Context {S : Type} {SS : Searcher S} {UB : UnspecifiedBytes}.
Implicit Types ex : Executor (S := S).

Lemma with_heap_id ex : with_heap (heap ex) ex = ex.
Proof. by destruct ex. Qed.

Lemma store_id ex p s : heap ex !! p = Some s → store p s ex = ex.
Proof.
  intros Hp. unfold store. rewrite insert_id by done. apply with_heap_id.
Qed.

Lemma isConstantExpr_createIsZero e :
  isConstantExpr e = false → isConstantExpr (createIsZero e) = false.
Proof. by destruct e. Qed.

Lemma createIsZero_nonconst e :
  isConstantExpr e = false → createIsZero e = IsZeroExpr e.
Proof. by destruct e. Qed.

(** Both [addConstraint] calls of a fork succeed only for a condition that
    is not a constant: a constant condition or its negation is false. *)
Lemma addConstraint_both_nonconst ex1 ex2 ex3 p q e :
  addConstraint ex1 p e = Ok ex2 →
  addConstraint ex2 q (createIsZero e) = Ok ex3 →
  isConstantExpr e = false.
Proof.
  destruct e as [v| | |]; try done. simpl.
  destruct (Z.eqb_spec v 1) as [->|?]; [|done]. intros _. simpl. done.
Qed.

Lemma addConstraint_other ex p e ex' q :
  addConstraint ex p e = Ok ex' → q ≠ p → heap ex' !! q = heap ex !! q.
Proof.
  unfold addConstraint. intros Hf Hne. destruct e as [v| | |];
    try (inv_bind Hf; inv_bind Hf; injection Hf as <-; simpl;
         by rewrite lookup_insert_ne).
  case_match; [by injection Hf as <- | done].
Qed.

Lemma fork_children_spec ex tS fS rp rs cond isInternal ex' ts fs :
  heap ex !! tS = Some ts → heap ex !! fS = Some fs → tS ≠ fS →
  fork_children ex tS fS rp rs cond isInternal = Ok ex' →
  let ts1 := if isInternal then ts else recordBranch "0" ts in
  let fs1 := if isInternal then fs else recordBranch "1" fs in
  isConstantExpr cond = false
  ∧ frame (store fS fs1 (store tS ts1 ex)) ex'
  ∧ ∃ ts' fs', heap ex' !! tS = Some ts' ∧ heap ex' !! fS = Some fs'
      ∧ state_ext ts1 ts' ∧ state_ext fs1 fs'
      ∧ constraints ts ++ [cond] `prefix_of` constraints ts'
      ∧ constraints fs ++ [createIsZero cond] `prefix_of` constraints fs'.
Proof.
  intros Ht Hfs Hne Hf ts1 fs1. unfold fork_children in Hf.
  inv_bind Hf. rename a into ex1.
  assert (ex1 = store fS fs1 (store tS ts1 ex)) as ->.
  { subst ts1 fs1. destruct isInternal.
    - injection Ha as <-. rewrite (store_id ex tS ts) by done.
      by rewrite store_id.
    - inv_bind Ha. apply modify_Ok in Ha0 as (s0 & Hs0 & ->).
      apply modify_Ok in Ha as (s1 & Hs1 & ->).
      simpl in Hs1. rewrite lookup_insert_ne in Hs1 by done.
      by simplify_eq. }
  assert (Cts : constraints ts1 = constraints ts)
    by (subst ts1; by destruct isInternal).
  assert (Cfs : constraints fs1 = constraints fs)
    by (subst fs1; by destruct isInternal).
  set (exm := store fS fs1 (store tS ts1 ex)) in *.
  assert (Hmt : heap exm !! tS = Some ts1).
  { simpl. rewrite lookup_insert_ne by done. apply lookup_insert_eq. }
  assert (Hmf : heap exm !! fS = Some fs1) by apply lookup_insert_eq.
  inv_bind Hf. rename a into ex2. inv_bind Hf. rename a into ex3.
  pose proof (addConstraint_both_nonconst _ _ _ _ _ _ Ha0 Ha1) as Hnc.
  split; [done|].
  pose proof (addConstraint_frame _ _ _ _ Ha0) as F2.
  destruct (addConstraint_adds _ _ _ _ _ Hnc Hmt Ha0)
    as (ts2 & Hts2 & Cts2 & Xts2 & _).
  destruct (proj1 (proj2 F2) _ _ Hmf) as (fs2 & Hfs2 & Xfs2).
  pose proof (addConstraint_frame _ _ _ _ Ha1) as F3.
  destruct (addConstraint_adds _ _ _ _ _
              (isConstantExpr_createIsZero _ Hnc) Hfs2 Ha1)
    as (fs3 & Hfs3 & Cfs3 & Xfs3 & _).
  destruct (proj1 (proj2 F3) _ _ Hts2) as (ts3 & Hts3 & Xts3).
  assert (F3' : frame exm ex3) by by eapply frame_trans.
  assert (Fend : frame ex3 ex').
  { inv_bind Hf. destruct (isRecoveryState a).
    - inv_bind Hf. inv_bind Hf.
      apply forkDependentStates_frame in Ha3.
      apply mergeConstraintsForAll_frame in Ha4, Hf.
      eapply frame_trans; [done|]. by eapply frame_trans.
    - simplify_eq. apply frame_refl. }
  split; [by eapply frame_trans|].
  destruct (proj1 (proj2 Fend) _ _ Hts3) as (ts' & Hts' & Xts').
  destruct (proj1 (proj2 Fend) _ _ Hfs3) as (fs' & Hfs' & Xfs').
  exists ts', fs'. split; [done|]. split; [done|].
  split; [eapply state_ext_trans; [|done]; by eapply state_ext_trans|].
  split; [eapply state_ext_trans; [|done]; by eapply state_ext_trans|].
  split.
  - rewrite <-Cts, <-Cts2. etrans; [apply Xts3 | apply Xts'].
  - assert (fs2 = fs1) as ->.
    { rewrite (addConstraint_other _ _ _ _ fS Ha0) in Hfs2 by done.
      congruence. }
    rewrite <-Cfs, <-Cfs3. apply Xfs'.
Qed.

End ForkLemmas.

(** ** One call of [fork] *)

(** [s'] has the history and depth of [s], or of [s] after one more branch
    event. *)
Definition hist_next (s s' : ExecutionState) : Prop :=
  same_hist s s' ∨ ∃ c, same_hist (recordBranch c s) s'.

Definition hist_step (h h' : gmap ptr ExecutionState) : Prop :=
  ∀ p s', h' !! p = Some s' → ∃ p0 s, h !! p0 = Some s ∧ hist_next s s'.

Lemma hist_step_refl h : hist_step h h.
Proof. intros p s Hp. exists p, s. split; [done | left; apply same_hist_refl]. Qed.

Lemma heap_from_hist_step h h' : heap_from h h' → hist_step h h'.
Proof.
  intros Hf p s' Hp. destruct (Hf _ _ Hp) as (p0 & s & ? & ?).
  exists p0, s. split; [done | by left].
Qed.

Lemma hist_next_same s1 s2 s3 :
  hist_next s1 s2 → same_hist s2 s3 → hist_next s1 s3.
Proof.
  intros [H12|[c H12]] H23; [left | right; exists c];
    by eapply same_hist_trans.
Qed.

Lemma hist_step_from h1 h2 h3 :
  hist_step h1 h2 → heap_from h2 h3 → hist_step h1 h3.
Proof.
  intros H12 H23 p s3 Hp.
  destruct (H23 _ _ Hp) as (p2 & s2 & Hp2 & Hs23).
  destruct (H12 _ _ Hp2) as (p1 & s1 & Hp1 & Hs12).
  exists p1, s1. split; [done | by eapply hist_next_same].
Qed.

Lemma hist_step_insert h h' p s p0 s0 :
  hist_step h h' → h !! p0 = Some s0 → hist_next s0 s →
  hist_step h (<[p := s]> h').
Proof.
  intros Hst Hp0 Hn q s' Hq. destruct (decide (p = q)) as [->|Hne].
  - rewrite lookup_insert_eq in Hq. injection Hq as <-. eauto.
  - rewrite lookup_insert_ne in Hq by done. eauto.
Qed.

Section Fork.
Context {S : Type} {SS : Searcher S} {UB : UnspecifiedBytes}.
Implicit Types ex : Executor (S := S).

Lemma fork_sibling_spec ex cur q ex1 :
  fork_sibling ex cur = Ok (q, ex1) →
  ∃ st, heap ex !! cur = Some st ∧ q = fresh (dom (heap ex))
        ∧ heap ex !! q = None ∧ q ≠ cur
        ∧ heap ex1 = <[q := st]> (heap ex)
        ∧ ex1 = with_nonRecoveryStates (nonRecoveryStates ex1)
                  (with_heap (heap ex1) ex).
Proof.
  unfold fork_sibling, new_state, ExecutionState_branch. intros Hf.
  inv_bind Hf. apply deref_Some in Ha. exists a.
  pose proof (fresh_heap (heap ex)) as Hfresh.
  assert (fresh (dom (heap ex)) ≠ cur) by congruence.
  destruct (isRecoveryState a); injection Hf as <- <-;
    repeat split; try done; by destruct ex.
Qed.

Lemma fork_commit_unknown ex cur cond isInternal res ex1 :
  fork_commit ex cur cond isInternal res = Ok (Solver_Unknown, ex1) →
  res = Solver_Unknown ∧ ex1 = ex.
Proof.
  unfold fork_commit. intros Hf.
  repeat (case_match; simplify_eq; try done);
    repeat (first [inv_assert Hf | inv_bind Hf]; simplify_eq);
    repeat (case_match; simplify_eq; try done);
    repeat (first [inv_assert Hf | inv_bind Hf]; simplify_eq); done.
Qed.

Lemma deref_lookup (h : gmap ptr ExecutionState) p s :
  h !! p = Some s → deref h p = Ok s.
Proof. apply deref_Some. Qed.

Lemma fork_direction_solver ex cur cond isInternal st r :
  heap ex !! cur = Some st →
  coreId (config ex) = 0 ∨ shallIRange st = false ∨ isInternal = true →
  solver_evaluate (config ex) st cond = Some r →
  fork_direction ex cur cond isInternal = Ok (inl (r, false)).
Proof.
  intros Hc Hsolver Hr. unfold fork_direction, fork_evaluate.
  apply deref_lookup in Hc. rewrite Hc. simpl.
  assert ((coreId (config ex) =? 0) || negb (shallIRange st) || isInternal
          = true) as ->.
  { destruct Hsolver as [->|[->| ->]]; simpl; [done| |];
      destruct (coreId (config ex) =? 0); simpl; try done;
      by destruct (negb _). }
  simpl. by rewrite Hr.
Qed.

(** The pre-fork state of the true (false) side in the [Unknown] branch: on
    a worker the prefixes that ask for the other side are dropped first. *)
Definition unknownTrueSide ex (st : ExecutionState) : ExecutionState :=
  if coreId (config ex) =? 0 then st else removeFalsePrefixes st.
Definition unknownFalseSide ex (st : ExecutionState) : ExecutionState :=
  if coreId (config ex) =? 0 then st else removeTruePrefixes st.

Lemma fork_branch_unknown ex cur cond isInternal fas pair ex' st :
  heap ex !! cur = Some st →
  fork_branch ex cur cond isInternal Solver_Unknown fas = Ok (pair, ex') →
  let q := fresh (dom (heap ex)) in
  let ts1 := (if isInternal then unknownTrueSide ex st
              else recordBranch "0" (unknownTrueSide ex st)) in
  let fs1 := (if isInternal then unknownFalseSide ex st
              else recordBranch "1" (unknownFalseSide ex st)) in
  pair = (Some cur, Some q) ∧ heap ex !! q = None ∧ q ≠ cur
  ∧ isConstantExpr cond = false
  ∧ addedStates ex' = addedStates ex ++ [q]
  ∧ rangingSuspendedStates ex' = rangingSuspendedStates ex
  ∧ forks ex' = forks ex + 1
  ∧ heap_from (<[q := fs1]> (<[cur := ts1]> (<[q := st]> (heap ex))))
      (heap ex')
  ∧ ∃ ts' fs', heap ex' !! cur = Some ts' ∧ heap ex' !! q = Some fs'
      ∧ state_ext ts1 ts' ∧ state_ext fs1 fs'
      ∧ constraints st ++ [cond] `prefix_of` constraints ts'
      ∧ constraints st ++ [createIsZero cond] `prefix_of` constraints fs'.
Proof.
  intros Hc Hf. cbv zeta. unfold fork_branch in Hf.
  inv_bind Hf. destruct a as [q' ex1].
  apply fork_sibling_spec in Ha
    as (st' & Hst' & -> & Hq & Hqc & Hh1 & He1).
  simpl in Hst', Hq, Hqc, Hh1, He1, Hf.
  rewrite Hc in Hst'. injection Hst' as <-.
  set (q := fresh (dom (heap ex))) in *.
  set (ts1 := if isInternal then unknownTrueSide ex st else _).
  set (fs1 := if isInternal then unknownFalseSide ex st else _).
  bind_inv Hf as ex3 H3. bind_inv Hf as ex4 H4.
  injection Hf as <- <-.
  set (ex2 := with_addedStates (addedStates ex1 ++ [q]) ex1) in *.
  assert (Hh2 : heap ex2 = <[q := st]> (heap ex)) by done.
  assert (H3' : ex3 = with_heap (heap ex3) ex2
               ∧ heap ex3 = <[q := unknownFalseSide ex st]>
                              (<[cur := unknownTrueSide ex st]>
                                 (<[q := st]> (heap ex)))).
  { unfold unknownFalseSide, unknownTrueSide.
    destruct (coreId (config ex) =? 0).
    - injection H3 as <-. split; [by rewrite with_heap_id|].
      rewrite Hh2. rewrite (insert_id _ cur st)
        by (by rewrite lookup_insert_ne).
      by rewrite insert_insert_eq.
    - bind_inv H3 as exa Hm. apply modify_Ok in Hm as (s0 & Hs0 & ->).
      apply modify_Ok in H3 as (s1 & Hs1 & ->).
      rewrite Hh2 in Hs0. rewrite lookup_insert_ne in Hs0 by done.
      simpl in Hs1. rewrite Hh1 in Hs1.
      rewrite lookup_insert_ne, lookup_insert_eq in Hs1 by done.
      simplify_eq. split; [done|]. simpl. by rewrite Hh1. }
  destruct H3' as [E3 Hh3].
  assert (Hc3 : heap ex3 !! cur = Some (unknownTrueSide ex st)).
  { rewrite Hh3. rewrite lookup_insert_ne by done. apply lookup_insert_eq. }
  assert (Hq3 : heap ex3 !! q = Some (unknownFalseSide ex st)).
  { rewrite Hh3. apply lookup_insert_eq. }
  destruct (fork_children_spec _ _ _ _ _ _ _ _ _ _ Hc3 Hq3 (not_eq_sym Hqc) H4)
    as (Hnc & (E4 & K4 & R4) & ts' & fs' & Hts' & Hfs' & Xt & Xf & Ct & Cf).
  repeat split; try done.
  - rewrite E4. simpl. rewrite E3. simpl. by rewrite He1.
  - rewrite E4. simpl. rewrite E3. simpl. by rewrite He1.
  - rewrite E4. simpl. rewrite E3. simpl. by rewrite He1.
  - simpl in R4. rewrite Hh3 in R4.
    replace (<[q := fs1]> (<[cur := ts1]> (<[q := st]> (heap ex))))
      with (<[q := fs1]> (<[cur := ts1]>
              (<[q := unknownFalseSide ex st]>
                 (<[cur := unknownTrueSide ex st]> (<[q := st]> (heap ex))))));
      [exact R4|].
    apply map_eq. intros i.
    destruct (decide (i = q)) as [->|]; [by rewrite !lookup_insert_eq|].
    rewrite !(lookup_insert_ne _ q) by done.
    destruct (decide (i = cur)) as [->|]; [by rewrite !lookup_insert_eq|].
    by rewrite !lookup_insert_ne.
  - exists ts', fs'. repeat split; try done; try apply Xt; try apply Xf.
    + replace (constraints st) with (constraints (unknownTrueSide ex st));
        [done|]. unfold unknownTrueSide. by destruct (_ =? _).
    + replace (constraints st) with (constraints (unknownFalseSide ex st));
        [done|]. unfold unknownFalseSide. by destruct (_ =? _).
Qed.

End Fork.

Lemma removePrefixes_same {UB : UnspecifiedBytes} c s :
  same_hist s (removePrefixes c s) ∧ constraints (removePrefixes c s) = constraints s.
Proof. done. Qed.

Section ForkUnknown.
Context {S : Type} {SS : Searcher S} {UB : UnspecifiedBytes}.
Implicit Types ex : Executor (S := S).

Lemma unknownTrueSide_hist ex st :
  depth (unknownTrueSide ex st) = depth st
  ∧ branchHist (unknownTrueSide ex st) = branchHist st.
Proof. unfold unknownTrueSide. by destruct (_ =? _). Qed.

Lemma unknownFalseSide_hist ex st :
  depth (unknownFalseSide ex st) = depth st
  ∧ branchHist (unknownFalseSide ex st) = branchHist st.
Proof. unfold unknownFalseSide. by destruct (_ =? _). Qed.

(** C7.  A solver-driven fork (the solver answers [Unknown], the fork is not
    internal) that produces a true child [A] and a false child [B] appends
    the condition to the path constraints of [A] and its negation to those
    of [B], extends the pre-fork history by ['0'] for [A] and by ['1'] for
    [B], and increments the depth of both. *)
Theorem fork_unknown_children ex cur cond st A B ex' :
  heap ex !! cur = Some st →
  coreId (config ex) = 0 ∨ shallIRange st = false →
  solver_evaluate (config ex) st cond = Some Solver_Unknown →
  fork ex cur cond false = Ok ((Some A, Some B), ex') →
  ∃ a b, heap ex' !! A = Some a ∧ heap ex' !! B = Some b ∧ A ≠ B
    ∧ constraints st ++ [cond] `prefix_of` constraints a
    ∧ constraints st ++ [createIsZero cond] `prefix_of` constraints b
    ∧ branchHist a = branchHist st ++ ["0"%char]
    ∧ branchHist b = branchHist st ++ ["1"%char]
    ∧ depth a = incr32 (depth st)
    ∧ depth b = incr32 (depth st).
Proof.
  intros Hc Hsolver Hres Hf. unfold fork in Hf.
  rewrite (fork_direction_solver ex cur cond false st Solver_Unknown) in Hf;
    [|done|tauto|done].
  simpl in Hf. bind_inv Hf as [res1 ex1] Hcommit.
  destruct res1.
  - simpl in Hf. bind_inv Hf as exa Hm. by injection Hf.
  - simpl in Hf. bind_inv Hf as exa Hm. by injection Hf.
  - apply fork_commit_unknown in Hcommit as [_ ->].
    destruct (fork_branch_unknown _ _ _ _ _ _ _ _ Hc Hf)
      as (Hpair & Hq & Hqc & Hnc & _ & _ & _ & _
          & ts' & fs' & Hts' & Hfs' & Xt & Xf & Ct & Cf).
    injection Hpair as -> ->.
    exists ts', fs'.
    destruct Xt as ((Dt & Bt) & _ & _), Xf as ((Df & Bf) & _ & _).
    destruct (unknownTrueSide_hist ex st) as [Dts Bts].
    destruct (unknownFalseSide_hist ex st) as [Dfs Bfs].
    simpl in Dt, Bt, Df, Bf.
    repeat split; try done; congruence.
Qed.

End ForkUnknown.

(** [fork_unknown_children] on the master with one state at address 1. *)
Lemma fork_unknown_children_witness :
  ∃ a b ex',
    fork (UB := Examples.zeroBytes)
      (Examples.executorOf Examples.masterConfig [(1%nat, Examples.blankState)])
      1%nat Examples.x_positive false = Ok ((Some 1%nat, Some 2%nat), ex')
    ∧ heap ex' !! 1%nat = Some a ∧ heap ex' !! 2%nat = Some b
    ∧ constraints a = [Examples.x_positive]
    ∧ constraints b = [IsZeroExpr Examples.x_positive]
    ∧ branchHist a = ["0"%char] ∧ branchHist b = ["1"%char]
    ∧ depth a = 1 ∧ depth b = 1.
Proof.
  set (ex0 := Examples.executorOf Examples.masterConfig
                [(1%nat, Examples.blankState)]).
  assert (Hf : ∃ ex', fork (UB := Examples.zeroBytes) ex0 1%nat
                        Examples.x_positive false
                      = Ok ((Some 1%nat, Some 2%nat), ex')).
  { vm_compute. eexists. reflexivity. }
  destruct Hf as [ex' Hf].
  destruct (fork_unknown_children (UB := Examples.zeroBytes) ex0 1%nat
              Examples.x_positive Examples.blankState 1%nat 2%nat ex'
              eq_refl (or_introl eq_refl) eq_refl Hf)
    as (a & b & Ha & Hb & _ & Ca & Cb & Ba & Bb & Da & Db).
  exists a, b, ex'. split; [exact Hf|].
  vm_compute in Hf. injection Hf as <-.
  vm_compute in Ha, Hb. injection Ha as <-. injection Hb as <-.
  repeat split; reflexivity.
Defined.

Section ForkSuspend.
Context {S : Type} {SS : Searcher S} {UB : UnspecifiedBytes}.
Implicit Types ex : Executor (S := S).

Lemma fork_branch_true_suspend ex cur cond isInternal pair ex' st :
  heap ex !! cur = Some st →
  fork_branch ex cur cond isInternal Solver_True true = Ok (pair, ex') →
  let q := fresh (dom (heap ex)) in
  let ts1 := (if isInternal then st else recordBranch "0" st) in
  let fs1 := (if isInternal then st else recordBranch "1" st) in
  pair = (Some cur, Some q) ∧ heap ex !! q = None ∧ q ≠ cur
  ∧ isConstantExpr cond = false
  ∧ addedStates ex' = addedStates ex
  ∧ rangingSuspendedStates ex' = rangingSuspendedStates ex ++ [q]
  ∧ states ex' = states ex
  ∧ heap_from (<[q := fs1]> (<[cur := ts1]> (<[q := st]> (heap ex))))
      (heap ex')
  ∧ ∃ ts' fs', heap ex' !! cur = Some ts' ∧ heap ex' !! q = Some fs'
      ∧ state_ext ts1 ts' ∧ state_ext fs1 fs'
      ∧ constraints st ++ [cond] `prefix_of` constraints ts'
      ∧ constraints st ++ [createIsZero cond] `prefix_of` constraints fs'.
Proof.
  intros Hc Hf. cbv zeta. unfold fork_branch in Hf.
  bind_inv Hf as [q' ex1] Hsib.
  apply fork_sibling_spec in Hsib
    as (st' & Hst' & -> & Hq & Hqc & Hh1 & He1).
  rewrite Hc in Hst'. injection Hst' as <-.
  set (q := fresh (dom (heap ex))) in *.
  bind_inv Hf as ex2 Hch. injection Hf as <- <-.
  assert (Hc1 : heap ex1 !! cur = Some st)
    by (rewrite Hh1; by rewrite lookup_insert_ne).
  assert (Hq1 : heap ex1 !! q = Some st)
    by (rewrite Hh1; apply lookup_insert_eq).
  destruct (fork_children_spec _ _ _ _ _ _ _ _ _ _ Hc1 Hq1 (not_eq_sym Hqc) Hch)
    as (Hnc & (E2 & K2 & R2) & ts' & fs' & Hts' & Hfs' & Xt & Xf & Ct & Cf).
  repeat split; try done.
  - simpl. rewrite E2. simpl. by rewrite He1.
  - simpl. rewrite E2. simpl. by rewrite He1.
  - simpl. rewrite E2. simpl. by rewrite He1.
  - simpl in R2 |- *. by rewrite Hh1 in R2.
  - by exists ts', fs'.
Qed.

Lemma fork_branch_false_suspend ex cur cond isInternal pair ex' st :
  heap ex !! cur = Some st →
  fork_branch ex cur cond isInternal Solver_False true = Ok (pair, ex') →
  let q := fresh (dom (heap ex)) in
  let ts1 := (if isInternal then st else recordBranch "0" st) in
  let fs1 := (if isInternal then st else recordBranch "1" st) in
  pair = (Some q, Some cur) ∧ heap ex !! q = None ∧ q ≠ cur
  ∧ isConstantExpr cond = false
  ∧ addedStates ex' = addedStates ex
  ∧ rangingSuspendedStates ex' = rangingSuspendedStates ex ++ [q]
  ∧ states ex' = states ex
  ∧ heap_from (<[cur := fs1]> (<[q := ts1]> (<[q := st]> (heap ex))))
      (heap ex')
  ∧ ∃ ts' fs', heap ex' !! q = Some ts' ∧ heap ex' !! cur = Some fs'
      ∧ state_ext ts1 ts' ∧ state_ext fs1 fs'
      ∧ constraints st ++ [cond] `prefix_of` constraints ts'
      ∧ constraints st ++ [createIsZero cond] `prefix_of` constraints fs'.
Proof.
  intros Hc Hf. cbv zeta. unfold fork_branch in Hf.
  bind_inv Hf as [q' ex1] Hsib.
  apply fork_sibling_spec in Hsib
    as (st' & Hst' & -> & Hq & Hqc & Hh1 & He1).
  simpl in Hst', Hq, Hqc, Hh1, He1, Hf.
  rewrite Hc in Hst'. injection Hst' as <-.
  set (q := fresh (dom (heap ex))) in *.
  bind_inv Hf as ex2 Hch. injection Hf as <- <-.
  assert (Hc1 : heap ex1 !! cur = Some st)
    by (rewrite Hh1; by rewrite lookup_insert_ne).
  assert (Hq1 : heap ex1 !! q = Some st)
    by (rewrite Hh1; apply lookup_insert_eq).
  destruct (fork_children_spec _ _ _ _ _ _ _ _ _ _ Hq1 Hc1 Hqc Hch)
    as (Hnc & (E2 & K2 & R2) & ts' & fs' & Hts' & Hfs' & Xt & Xf & Ct & Cf).
  repeat split; try done.
  - simpl. rewrite E2. simpl. by rewrite He1.
  - simpl. rewrite E2. simpl. by rewrite He1.
  - simpl. rewrite E2. simpl. by rewrite He1.
  - simpl in R2 |- *. by rewrite Hh1 in R2.
  - by exists ts', fs'.
Qed.

(** Taking one side without forking. *)
Lemma fork_branch_take ex cur cond isInternal res pair ex' st :
  heap ex !! cur = Some st → res ≠ Solver_Unknown →
  fork_branch ex cur cond isInternal res false = Ok (pair, ex') →
  let c := if res is Solver_True then "2"%char else "3"%char in
  pair = (if res is Solver_True then (Some cur, None) else (None, Some cur))
  ∧ ex' = (if isInternal then ex else store cur (recordBranch c st) ex).
Proof.
  intros Hc Hres Hf. cbv zeta. unfold fork_branch in Hf.
  destruct res; [| |done]; bind_inv Hf as ex1 Hm; injection Hf as <- <-;
    (split; [done|]); destruct isInternal;
    try (by injection Hm as <-);
    apply modify_Ok in Hm as (s0 & Hs0 & ->); congruence.
Qed.

Lemma with_replayPosition_id ex :
  with_replayPosition (replayPosition ex) ex = ex.
Proof. by destruct ex. Qed.

(** With a decided [res], the middle part of [fork] keeps [res] and the
    store; it can only advance the replay position. *)
Lemma fork_commit_decided ex cur cond isInternal res r1 ex1 :
  res ≠ Solver_Unknown →
  fork_commit ex cur cond isInternal res = Ok (r1, ex1) →
  r1 = res ∧ ex1 = with_replayPosition (replayPosition ex1) ex.
Proof.
  unfold fork_commit. intros Hres Hf.
  destruct res; [| |done];
    repeat (case_match; simplify_eq; try done);
    repeat (first [inv_assert Hf | inv_bind Hf]; simplify_eq);
    split; try done;
    first [reflexivity | symmetry; apply with_replayPosition_id].
Qed.

Lemma fork_commit_free ex cur cond isInternal st :
  heap ex !! cur = Some st →
  replayPath (config ex) = None → replayKTest (config ex) = false →
  forkingInhibited ex st = false →
  fork_commit ex cur cond isInternal Solver_Unknown = Ok (Solver_Unknown, ex).
Proof.
  intros Hc Hrp Hrk Hinh. unfold fork_commit. rewrite Hrp, Hrk. simpl.
  rewrite (deref_lookup _ _ _ Hc). simpl. by rewrite Hinh.
Qed.


End ForkSuspend.

Section Ranging.
Context {UB : UnspecifiedBytes}.




End Ranging.

Section ForkRanging.
Context {S : Type} {SS : Searcher S} {UB : UnspecifiedBytes}.
Implicit Types ex : Executor (S := S).


End ForkRanging.


(** ** Depth and branch history *)

(** The depth is the length of the branch history. *)
Definition hist_ok (s : ExecutionState) : Prop :=
  depth s = N.of_nat (length (branchHist s)).

Definition all_hist_ok (h : gmap ptr ExecutionState) : Prop :=
  ∀ p s, h !! p = Some s → hist_ok s.

(** No history has reached [2^32] entries: the [unsigned] depth counter has
    not wrapped around. *)
Definition hist_bounded (h : gmap ptr ExecutionState) : Prop :=
  ∀ p s, h !! p = Some s → N.of_nat (length (branchHist s)) < 2 ^ 32.

Lemma same_hist_ok s s' : same_hist s s' → hist_ok s → hist_ok s'.
Proof. unfold hist_ok. intros [-> ->]. done. Qed.

Lemma heap_from_ok h h' : heap_from h h' → all_hist_ok h → all_hist_ok h'.
Proof.
  intros Hf Hok p s' Hp. destruct (Hf _ _ Hp) as (p0 & s & Hp0 & Hs).
  eapply same_hist_ok; eauto.
Qed.

Lemma recordBranch_ok c s s' :
  same_hist (recordBranch c s) s' → hist_ok s →
  N.of_nat (length (branchHist s')) < 2 ^ 32 → hist_ok s'.
Proof.
  unfold hist_ok, incr32. intros [Hd Hh] Hok Hb. simpl in Hd, Hh.
  rewrite Hh in Hb |- *. rewrite Hd, Hok.
  rewrite length_app in Hb |- *. simpl in *.
  rewrite Nat2N.inj_add in Hb |- *. simpl in *.
  by apply N.mod_small.
Qed.

Lemma hist_step_ok h h' :
  hist_step h h' → all_hist_ok h → hist_bounded h' → all_hist_ok h'.
Proof.
  intros Hst Hok Hb p s' Hp.
  destruct (Hst _ _ Hp) as (p0 & s & Hp0 & [Hs|[c Hs]]).
  - eapply same_hist_ok; eauto.
  - eapply recordBranch_ok; eauto.
Qed.

Lemma from_hist_step h1 h2 h3 :
  heap_from h1 h2 → hist_step h2 h3 → hist_step h1 h3.
Proof.
  intros H12 H23 p s3 Hp.
  destruct (H23 _ _ Hp) as (p2 & s2 & Hp2 & Hs23).
  destruct (H12 _ _ Hp2) as (p1 & s1 & Hp1 & [Hd Hh]).
  exists p1, s1. split; [done|].
  destruct Hs23 as [[Hd' Hh']|[c [Hd' Hh']]]; [left | right; exists c];
    split; simpl in *; congruence.
Qed.

Section DepthHistory.
Context {S : Type} {SS : Searcher S} {UB : UnspecifiedBytes}.
Implicit Types ex : Executor (S := S).

Lemma terminateState_from ex p ex' :
  terminateState ex p = Ok ex' → heap_from (heap ex) (heap ex').
Proof.
  unfold terminateState. intros Hf. bind_inv Hf as st Hst.
  apply deref_Some in Hst.
  destruct (erase_first _ _); injection Hf as <-; simpl.
  - apply heap_from_delete.
  - by eapply heap_from_insert.
Qed.

Lemma terminateStateRecursively_loop_from fuel ex p ex' :
  terminateStateRecursively_loop fuel ex p = Ok ex' →
  heap_from (heap ex) (heap ex').
Proof.
  revert ex p. induction fuel as [|fuel IH]; intros ex p Hf; [done|].
  simpl in Hf. bind_inv Hf as st Hst. bind_inv Hf as next Hn.
  bind_inv Hf as ex1 Ht. apply terminateState_from in Ht.
  destruct next as [n|].
  - eapply heap_from_trans; [done | by eapply IH].
  - by injection Hf as <-.
Qed.

Lemma terminateStateEarly_from ex p ex' :
  terminateStateEarly ex p = Ok ex' → heap_from (heap ex) (heap ex').
Proof.
  unfold terminateStateEarly, terminateStateRecursively. intros Hf.
  bind_inv Hf as st Hst. destruct (isRecoveryState st).
  - by eapply terminateStateRecursively_loop_from.
  - by eapply terminateState_from.
Qed.

Lemma fork_commit_from ex cur cond isInternal res r1 ex1 :
  fork_commit ex cur cond isInternal res = Ok (r1, ex1) →
  heap_from (heap ex) (heap ex1) ∧ heap_keeps (heap ex) (heap ex1).
Proof.
  unfold fork_commit. intros Hf.
  assert (Hadd : ∀ (exa exb : Executor (S := S)) e,
            addConstraint exa cur e = Ok exb →
            heap exa = heap ex →
            heap_from (heap ex) (heap exb) ∧ heap_keeps (heap ex) (heap exb)).
  { intros exa exb e Ha <-. by destruct (addConstraint_frame _ _ _ _ Ha)
      as (_ & ? & ?). }
  assert (Hrefl : heap_from (heap ex) (heap ex)
                  ∧ heap_keeps (heap ex) (heap ex))
    by (split; [apply heap_from_refl | apply heap_keeps_refl]).
  repeat (case_match; simplify_eq; try done);
    repeat (first [inv_assert Hf | inv_bind Hf]; simplify_eq);
    repeat (case_match; simplify_eq; try done);
    repeat (first [inv_assert Hf | inv_bind Hf]; simplify_eq);
    try exact Hrefl; by eapply Hadd.
Qed.

Lemma hist_next_record c s : hist_next s (recordBranch c s).
Proof. right. exists c. apply same_hist_refl. Qed.

Lemma hist_next_refl s : hist_next s s.
Proof. left. apply same_hist_refl. Qed.

Lemma fork_branch_hist_step ex cur cond isInternal res fas pair ex' st :
  heap ex !! cur = Some st →
  fork_branch ex cur cond isInternal res fas = Ok (pair, ex') →
  hist_step (heap ex) (heap ex').
Proof.
  intros Hc Hf.
  assert (Hside : ∀ (c : ascii) (b : bool) (s : ExecutionState),
            same_hist st s →
            hist_next st (if b then s else recordBranch c s)).
  { intros c b s [Hd Hh]. destruct b; [by left|].
    right. exists c. split; simpl; congruence. }
  destruct res, fas.
  - destruct (fork_branch_true_suspend _ _ _ _ _ _ _ Hc Hf)
      as (_ & _ & _ & _ & _ & _ & _ & Hfrom & _).
    eapply hist_step_from; [|exact Hfrom].
    repeat (eapply hist_step_insert; [| exact Hc |]);
      [apply hist_step_refl | apply hist_next_refl | ..];
      apply Hside, same_hist_refl.
  - destruct (fork_branch_take _ _ _ _ Solver_True _ _ _ Hc ltac:(done) Hf)
      as [_ ->].
    destruct isInternal; [apply hist_step_refl|]. simpl.
    eapply hist_step_insert;
      [apply hist_step_refl | exact Hc | apply hist_next_record].
  - destruct (fork_branch_false_suspend _ _ _ _ _ _ _ Hc Hf)
      as (_ & _ & _ & _ & _ & _ & _ & Hfrom & _).
    eapply hist_step_from; [|exact Hfrom].
    repeat (eapply hist_step_insert; [| exact Hc |]);
      [apply hist_step_refl | apply hist_next_refl | ..];
      apply Hside, same_hist_refl.
  - destruct (fork_branch_take _ _ _ _ Solver_False _ _ _ Hc ltac:(done) Hf)
      as [_ ->].
    destruct isInternal; [apply hist_step_refl|]. simpl.
    eapply hist_step_insert;
      [apply hist_step_refl | exact Hc | apply hist_next_record].
  - destruct (fork_branch_unknown _ _ _ _ _ _ _ _ Hc Hf)
      as (_ & _ & _ & _ & _ & _ & _ & Hfrom & _).
    eapply hist_step_from; [|exact Hfrom].
    repeat (eapply hist_step_insert; [| exact Hc |]);
      [apply hist_step_refl | apply hist_next_refl | ..];
      apply Hside; [apply unknownTrueSide_hist | apply unknownFalseSide_hist].
  - destruct (fork_branch_unknown _ _ _ _ _ _ _ _ Hc Hf)
      as (_ & _ & _ & _ & _ & _ & _ & Hfrom & _).
    eapply hist_step_from; [|exact Hfrom].
    repeat (eapply hist_step_insert; [| exact Hc |]);
      [apply hist_step_refl | apply hist_next_refl | ..];
      apply Hside; [apply unknownTrueSide_hist | apply unknownFalseSide_hist].
Qed.

(** One call of [fork] gives every state the history of a state it started
    from, with at most one branch event added and the depth incremented
    along with it. *)
Lemma fork_hist_step ex cur cond isInternal pair ex' :
  fork ex cur cond isInternal = Ok (pair, ex') →
  hist_step (heap ex) (heap ex').
Proof.
  unfold fork. intros Hf. bind_inv Hf as d Hd.
  unfold fork_direction in Hd. bind_inv Hd as st Hst.
  apply deref_Some in Hst.
  assert (Hearly : ∀ ex1 : Executor (S := S),
            d = inr ex1 → heap_from (heap ex) (heap ex1)).
  { intros ex1 ->. destruct (_ || _ || _).
    - bind_inv Hd as r Hr. destruct r as [res|exr]; [done|].
      injection Hd as <-. unfold fork_evaluate in Hr.
      bind_inv Hr as st' Hst'. destruct (solver_evaluate _ _ _); [done|].
      bind_inv Hr as ext Ht. injection Hr as <-.
      apply terminateStateEarly_from in Ht.
      eapply heap_from_trans; [|exact Ht]. simpl.
      apply deref_Some in Hst'. by eapply heap_from_insert.
    - bind_inv Hd as [r fs] Hb. done. }
  destruct d as [[res fas]|ex1].
  - bind_inv Hf as [r1 ex1] Hcm.
    destruct (fork_commit_from _ _ _ _ _ _ _ Hcm) as [Hfrom Hkeeps].
    destruct (Hkeeps _ _ Hst) as (st1 & Hst1 & _).
    eapply from_hist_step; [exact Hfrom|].
    by eapply fork_branch_hist_step.
  - injection Hf as _ <-. apply heap_from_hist_step. by apply Hearly.
Qed.

End DepthHistory.

(** Take apart every bind of a successful computation. *)
Ltac inv_res H :=
  lazymatch type of H with
  | (assert _ ≫= _) = Ok _ => inv_assert H; inv_res H
  | (_ ≫= _) = Ok _ =>
      let a := fresh "a" in
      let Ha := fresh "Ha" in
      apply bind_Ok in H as (a & Ha & H); inv_res Ha; inv_res H
  | Ok _ = Ok _ => injection H as H
  | _ => idtac
  end.

Ltac unfold_members :=
  unfold setSuspended, setResumed, getSnapshots, setRecoveryState,
    markLoadAsUnrecovered, markLoadAsRecovered, addRecoveredAddress,
    clearRecoveredAddresses, getDependentState, setDependentState,
    getOriginatingState, setOriginatingState, getRecoveryInfo,
    getAllocationRecord, setAllocationRecord, setGuidingAllocationRecord,
    getRecoveryCache, setRecoveryCache in *.

Lemma initNormalRecovery_same d r r' :
  initNormalRecovery d r = Ok r' → same_hist r r'.
Proof.
  unfold initNormalRecovery. unfold_members. intros Hs.
  inv_res Hs. simplify_eq. by split.
Qed.

Section RecoveryHistory.
Context {S : Type} {SS : Searcher S} {UB : UnspecifiedBytes}.
Implicit Types ex : Executor (S := S).

Lemma replicateBranchHist_ok ex a b ex' :
  all_hist_ok (heap ex) →
  replicateBranchHist ex a b = Ok ex' → all_hist_ok (heap ex').
Proof.
  unfold replicateBranchHist. intros Hok Hf.
  bind_inv Hf as st Hst. bind_inv Hf as rst Hrst. inv_assert Hf.
  injection Hf as <-. apply deref_Some in Hst, Hrst.
  intros p s Hp. simpl in Hp. destruct (decide (b = p)) as [->|Hne].
  - rewrite lookup_insert_eq in Hp. injection Hp as <-.
    pose proof (Hok _ _ Hst) as Ost. pose proof (Hok _ _ Hrst) as Orst.
    unfold hist_ok in *. simpl. rewrite Ost. f_equal.
    rewrite length_app, length_drop.
    apply N.leb_le in Hassert. rewrite Ost, Orst in Hassert. lia.
  - rewrite lookup_insert_ne in Hp by done. by eapply Hok.
Qed.

Lemma foldl_addConstraint_frame (cs : list Expr) p ex ex' :
  foldl (λ acc c, e ← acc; addConstraint e p c) (Ok ex) cs = Ok ex' →
  frame ex ex'.
Proof.
  revert ex. induction cs as [|c cs IH]; intros ex Hf; simpl in Hf.
  - injection Hf as <-. apply frame_refl.
  - destruct (addConstraint ex p c) as [ex1|e] eqn:Ha.
    + eapply frame_trans; [by eapply addConstraint_frame | by apply IH].
    + exfalso. clear -Hf. induction cs as [|c' cs IH]; simpl in Hf; [done|].
      by apply IH.
Qed.

Lemma startRecoveryState_ok ex p ri ex' :
  all_hist_ok (heap ex) →
  startRecoveryState ex p ri = Ok ex' → all_hist_ok (heap ex').
Proof.
  unfold startRecoveryState. intros Hok Hf.
  bind_inv Hf as snap Hsnap. bind_inv Hf as st Hst.
  bind_inv Hf as r1 Hr1. inv_assert Hf. bind_inv Hf as r3 Hr3.
  bind_inv Hf as o Ho. destruct o as [orig|]; [|done].
  bind_inv Hf as ost Host. bind_inv Hf as r4 Hr4. inv_assert Hf.
  bind_inv Hf as record Hrec. bind_inv Hf as r6 Hr6.
  unfold new_state in Hf.
  inv_assert Hf. bind_inv Hf as ex2 Hex2. bind_inv Hf as ex3 Hex3.
  bind_inv Hf as st1 Hst1. bind_inv Hf as rst Hrst.
  bind_inv Hf as st2 Hst2. bind_inv Hf as rst1 Hrst1. inv_assert Hf.
  apply deref_Some in Hsnap, Hst, Hst1, Hrst, Hrst1.
  assert (Hsame : same_hist snap r6).
  { assert (same_hist snap r1) as [D1 B1].
    { destruct (snapshotIndex ri =? 0).
      - injection Hr1 as <-. by split.
      - by eapply initNormalRecovery_same. }
    unfold_members. inv_res Hr3. inv_res Hr4. inv_res Hr6. simplify_eq.
    split; simpl; congruence. }
  eapply replicateBranchHist_ok; [|exact Hf].
  eapply heap_from_ok; [|exact Hok].
  apply foldl_addConstraint_frame in Hex2 as (_ & _ & F2).
  apply modify_Ok in Hex3 as (s3 & Hs3 & ->).
  apply setRecoveryState_ext in Hst2 as [[X2 _] _].
  set (q := fresh (dom (heap ex))) in *.
  assert (H1 : heap_from (heap ex) (<[q := set_level
             (if isRecoveryState st then incr32 (level st) else 0) r6]>
             (heap ex))).
  { eapply heap_from_insert; [exact Hsnap|]. destruct Hsame. by split. }
  assert (H3 : heap_from (heap ex2) (<[q := set_pc (prevPC s3) s3]> (heap ex2)))
    by (eapply heap_from_insert; [exact Hs3 | by split]).
  assert (H4 : heap_from (<[q := set_pc (prevPC s3) s3]> (heap ex2))
                 (<[p := st2]> (<[q := set_pc (prevPC s3) s3]> (heap ex2))))
    by (eapply heap_from_insert; [exact Hst1 | exact X2]).
  assert (H5 : heap_from
                 (<[p := st2]> (<[q := set_pc (prevPC s3) s3]> (heap ex2)))
                 (<[q := set_priority PRIORITY_HIGH rst1]>
                    (<[p := st2]> (<[q := set_pc (prevPC s3) s3]> (heap ex2)))))
    by (eapply heap_from_insert; [exact Hrst1 | by split]).
  simpl.
  eapply heap_from_trans; [exact H1|].
  eapply heap_from_trans; [exact F2|].
  eapply heap_from_trans; [exact H3|].
  eapply heap_from_trans; [exact H4 | exact H5].
Qed.

End RecoveryHistory.

Section MoreHistory.
Context {S : Type} {SS : Searcher S} {UB : UnspecifiedBytes}.
Implicit Types ex : Executor (S := S).

Lemma resumeState_ok ex p b r ex' :
  all_hist_ok (heap ex) →
  resumeState ex p b r = Ok ex' → all_hist_ok (heap ex').
Proof.
  unfold resumeState. intros Hok Hf.
  bind_inv Hf as st Hst. bind_inv Hf as st1 H1. bind_inv Hf as st2 H2.
  bind_inv Hf as st3 H3. bind_inv Hf as rec Hrec.
  apply deref_Some in Hst.
  eapply replicateBranchHist_ok; [|exact Hf].
  eapply heap_from_ok; [|exact Hok].
  assert (same_hist st st3).
  { unfold_members. inv_res H1. inv_res H2. inv_res H3. simplify_eq.
    by split. }
  destruct b, (isRecoveryState st); simpl; by eapply heap_from_insert.
Qed.

Lemma notifyDependentState_ok ex p ex' :
  all_hist_ok (heap ex) →
  notifyDependentState ex p = Ok ex' → all_hist_ok (heap ex').
Proof.
  unfold notifyDependentState. intros Hok Hf.
  bind_inv Hf as rst Hrst. bind_inv Hf as d Hd.
  destruct d as [dep|]; [|done]. bind_inv Hf as ex1 H1.
  eapply resumeState_ok; [|exact Hf].
  destruct (isNormalState rst).
  - bind_inv H1 as record Hr. bind_inv H1 as dst Hdst.
    bind_inv H1 as dst' Hdst'. injection H1 as <-.
    apply deref_Some in Hdst.
    eapply heap_from_ok; [|exact Hok]. simpl.
    eapply heap_from_insert; [exact Hdst|].
    unfold_members. inv_res Hdst'. simplify_eq. by split.
  - by injection H1 as <-.
Qed.

Lemma terminateState_ok ex p ex' :
  all_hist_ok (heap ex) →
  terminateState ex p = Ok ex' → all_hist_ok (heap ex').
Proof. intros Hok Hf. eapply heap_from_ok; [by eapply terminateState_from|done]. Qed.

Lemma onRecoveryStateExit_ok ex p ex' :
  all_hist_ok (heap ex) →
  onRecoveryStateExit ex p = Ok ex' → all_hist_ok (heap ex').
Proof.
  unfold onRecoveryStateExit. intros Hok Hf.
  bind_inv Hf as st Hst. bind_inv Hf as d Hd.
  destruct d as [dep|]; [|done]. bind_inv Hf as dst Hdst.
  bind_inv Hf as ex1 H1. apply deref_Some in Hdst.
  eapply terminateState_ok; [|exact Hf].
  destruct (hasPendingRecoveryInfo dst).
  - bind_inv H1 as [ri dst'] Hp. bind_inv H1 as exr Hr.
    eapply startRecoveryState_ok; [|exact H1].
    eapply replicateBranchHist_ok; [|exact Hr].
    eapply heap_from_ok; [|exact Hok]. simpl.
    eapply heap_from_insert; [exact Hdst|].
    unfold getPendingRecoveryInfo in Hp.
    destruct (pendingRecoveryInfos dst); [done|].
    injection Hp as _ <-. by split.
  - by eapply notifyDependentState_ok.
Qed.

Lemma suspendState_from ex p ex' :
  suspendState ex p = Ok ex' → heap_from (heap ex) (heap ex').
Proof.
  unfold suspendState. intros Hf. bind_inv Hf as st Hst.
  bind_inv Hf as st' Hs. injection Hf as <-. apply deref_Some in Hst.
  simpl. eapply heap_from_insert; [exact Hst|].
  unfold_members. inv_res Hs. simplify_eq. by split.
Qed.

Lemma onRecoveryStateWrite_from ex p address mo offset value ex' :
  onRecoveryStateWrite ex p address mo offset value = Ok ex' →
  heap_from (heap ex) (heap ex').
Proof.
  unfold onRecoveryStateWrite. intros Hf.
  destruct address; try (injection Hf as <-; apply heap_from_refl).
  destruct offset; try (injection Hf as <-; apply heap_from_refl).
  bind_inv Hf as st Hst. bind_inv Hf as i Hi.
  destruct i as [ri|]; [|done].
  destruct (negb _); [injection Hf as <-; apply heap_from_refl|].
  bind_inv Hf as d Hd. destruct d as [dep|]; [|done].
  bind_inv Hf as dst Hdst. apply deref_Some in Hdst.
  destruct (addressSpace dst !! mo); [|done]. injection Hf as <-.
  simpl. eapply heap_from_insert; [exact Hdst | by split].
Qed.

Lemma fileSuspended_from l ex ex' :
  fileSuspended ex l = Ok ex' → heap_from (heap ex) (heap ex').
Proof.
  revert ex. induction l as [|p l IH]; intros ex Hf; simpl in Hf.
  - injection Hf as <-. apply heap_from_refl.
  - bind_inv Hf as st Hst. apply deref_Some in Hst.
    apply IH in Hf. eapply heap_from_trans; [|exact Hf].
    destruct (prefixSuspendedStatesMap _ !! _); simpl;
      (eapply heap_from_insert; [exact Hst | by split]).
Qed.

Lemma deleteRemoved_from l ex ex' :
  deleteRemoved ex l = Ok ex' → heap_from (heap ex) (heap ex').
Proof.
  revert ex. induction l as [|p l IH]; intros ex Hf; simpl in Hf.
  - injection Hf as <-. apply heap_from_refl.
  - case_bool_decide.
    + apply IH in Hf. eapply heap_from_trans; [|exact Hf].
      simpl. apply heap_from_delete.
    + bind_inv Hf as st Hst. inv_assert Hf. by apply IH.
Qed.

Lemma surrender_heap l ex ex' :
  surrender ex l = Ok ex' → heap ex' = heap ex.
Proof.
  revert ex. induction l as [|p l IH]; intros ex Hf; simpl in Hf.
  - by injection Hf as <-.
  - inv_assert Hf. apply IH in Hf. rewrite Hf.
    by destruct (erase_first _ _).
Qed.

Lemma newCheck2Offload_heap junk ex ex' :
  newCheck2Offload junk ex = Ok ex' → heap ex' = heap ex.
Proof.
  unfold newCheck2Offload. intros Hf.
  destruct (mpiInbox _) as [|[tag payload] inbox'] eqn:Hin;
    [by injection Hf as <-|].
  destruct (tag =? OFFLOAD).
  - bind_inv Hf as [minSize vec] Hv. destruct vec as [|v vec].
    + by injection Hf as <-.
    + bind_inv Hf as hists Hh. bind_inv Hf as cp Hcp.
      bind_inv Hf as s' Hs. bind_inv Hf as ex3 H3. injection Hf as <-.
      apply surrender_heap in H3. simpl. by rewrite H3.
  - destruct (tag =? KILL); by injection Hf as <-.
Qed.

Lemma updateStates_from enableLB junk ex cur ex' :
  updateStates enableLB junk ex cur = Ok ex' →
  heap_from (heap ex) (heap ex').
Proof.
  unfold updateStates. intros Hf.
  bind_inv Hf as filtered Hfi. bind_inv Hf as s1 Hs1.
  bind_inv Hf as s2 Hs2. bind_inv Hf as s3 Hs3.
  bind_inv Hf as ex3 H3. bind_inv Hf as ex5 H5.
  apply fileSuspended_from in H3. apply deleteRemoved_from in H5.
  simpl in H3, H5.
  assert (heap_from (heap ex) (heap ex5))
    by (by eapply heap_from_trans).
  destruct enableLB.
  - apply newCheck2Offload_heap in Hf. by rewrite Hf.
  - by injection Hf as <-.
Qed.

(** One round of the sibling loop of [Executor::branch]. *)
Lemma branch_sibling_hist_step ranging ex result r ex' :
  branch_siblings 1 ranging ex result = Ok (r, ex') →
  hist_step (heap ex) (heap ex').
Proof.
  simpl. intros Hf. destruct (last result) as [es|]; [|done].
  bind_inv Hf as [ns ex1] Hs.
  apply fork_sibling_spec in Hs as (st & Hst & -> & Hq & Hne & Hh1 & He1).
  bind_inv Hf as ex3 H3. bind_inv Hf as ex4 H4. injection Hf as _ <-.
  apply modify_Ok in H3 as (s3 & Hs3 & ->).
  apply modify_Ok in H4 as (s4 & Hs4 & ->).
  set (q := fresh (dom (heap ex))) in *.
  assert (heap (if ranging then ex1
                else with_addedStates (addedStates ex1 ++ [q]) ex1)
          = <[q := st]> (heap ex)) as Hh2 by (by destruct ranging).
  rewrite Hh2 in Hs3. rewrite lookup_insert_ne in Hs3 by done.
  simpl in Hs4. rewrite Hh2 in Hs4.
  rewrite lookup_insert_ne, lookup_insert_eq in Hs4 by done.
  simpl. rewrite Hh2. simplify_eq.
  repeat (eapply hist_step_insert; [| exact Hst |]);
    [apply hist_step_refl | apply hist_next_refl | apply hist_next_record..].
Qed.

End MoreHistory.

(** The claim that the depth counts the forking events ['0'] and ['1']
    only. *)
Definition count01 (hist : list ascii) : nat :=
  length (filter (λ c, c = "0"%char ∨ c = "1"%char) hist).

Definition depth_counts_forks (s : ExecutionState) : Prop :=
  depth s = N.of_nat (count01 (branchHist s)).

Section Reachable.
Context {S : Type} {SS : Searcher S} {UB : UnspecifiedBytes}.
Implicit Types ex : Executor (S := S).

(** The operations of the executor that create, change or delete states. *)
Inductive exec_step : Executor (S := S) → Executor (S := S) → Prop :=
| step_fork ex cur cond isInternal pair ex' :
    fork ex cur cond isInternal = Ok (pair, ex') → exec_step ex ex'
| step_branch ex ranging result r ex' :
    branch_siblings 1 ranging ex result = Ok (r, ex') → exec_step ex ex'
| step_startRecovery ex p ri ex' :
    startRecoveryState ex p ri = Ok ex' → exec_step ex ex'
| step_suspend ex p ex' :
    suspendState ex p = Ok ex' → exec_step ex ex'
| step_recoveryExit ex p ex' :
    onRecoveryStateExit ex p = Ok ex' → exec_step ex ex'
| step_recoveryWrite ex p address mo offset value ex' :
    onRecoveryStateWrite ex p address mo offset value = Ok ex' →
    exec_step ex ex'
| step_terminate ex p ex' :
    terminateStateEarly ex p = Ok ex' → exec_step ex ex'
| step_update ex enableLB junk cur ex' :
    updateStates enableLB junk ex cur = Ok ex' → exec_step ex ex'.

(** The executors reached from [ex0] while no history grows to [2^32]
    entries. *)
Inductive reachable (ex0 : Executor (S := S)) : Executor (S := S) → Prop :=
| reach_init : reachable ex0 ex0
| reach_step ex ex' :
    reachable ex0 ex → exec_step ex ex' → hist_bounded (heap ex') →
    reachable ex0 ex'.

Lemma exec_step_ok ex ex' :
  exec_step ex ex' → all_hist_ok (heap ex) → hist_bounded (heap ex') →
  all_hist_ok (heap ex').
Proof.
  intros Hstep Hok Hb. destruct Hstep.
  - eapply hist_step_ok; [by eapply fork_hist_step | done | done].
  - eapply hist_step_ok; [by eapply branch_sibling_hist_step | done | done].
  - by eapply startRecoveryState_ok.
  - eapply heap_from_ok; [by eapply suspendState_from | done].
  - by eapply onRecoveryStateExit_ok.
  - eapply heap_from_ok; [by eapply onRecoveryStateWrite_from | done].
  - eapply heap_from_ok; [by eapply terminateStateEarly_from | done].
  - eapply heap_from_ok; [by eapply updateStates_from | done].
Qed.

(** C1, as the code has it.  In every executor reached from one whose
    states have [depth] equal to the length of their branch history, every
    state has [depth] equal to the length of its branch history (all events
    that are not internal, ['2'] and ['3'] included), as long as no history
    reaches [2^32] entries.  In particular a fork that the solver decides
    appends ['2'] or ['3'] and increments [depth]. *)
Theorem depth_is_history_length :
  (∀ ex0 ex, all_hist_ok (heap ex0) → reachable ex0 ex →
     all_hist_ok (heap ex))
  ∧ (∀ ex cur cond st res pair ex',
       heap ex !! cur = Some st →
       coreId (config ex) = 0 ∨ shallIRange st = false →
       solver_evaluate (config ex) st cond = Some res →
       res ≠ Solver_Unknown →
       fork ex cur cond false = Ok (pair, ex') →
       ∃ s', heap ex' !! cur = Some s'
         ∧ branchHist s' =
             branchHist st ++ [if res is Solver_True then "2" else "3"]%char
         ∧ depth s' = incr32 (depth st)).
Proof.
  split.
  - intros ex0 ex Hok Hreach. induction Hreach as [|ex ex' _ IH Hstep Hb];
      [done|]. by eapply exec_step_ok.
  - intros ex cur cond st res pair ex' Hc Hsolver Hres Hne Hf.
    unfold fork in Hf.
    rewrite (fork_direction_solver ex cur cond false st res) in Hf;
      [|done|tauto|done].
    simpl in Hf. bind_inv Hf as [r1 ex1] Hcm.
    apply fork_commit_decided in Hcm as [-> E1]; [|done].
    assert (Hc1 : heap ex1 !! cur = Some st) by (by rewrite E1).
    destruct (fork_branch_take _ _ _ _ res _ _ _ Hc1 Hne Hf) as [_ ->].
    simpl. rewrite lookup_insert_eq. eexists. split; [done|].
    by destruct res.
Qed.

End Reachable.

(** [depth_is_history_length] on the master with one state at address 1 and
    a solver that finds the condition true: after the fork the state has
    history ["2"] and depth 1. *)
Lemma depth_is_history_length_witness :
  ∃ ex' s',
    fork (UB := Examples.zeroBytes)
      (Examples.executorOf Examples.certainConfig
         [(1%nat, Examples.blankState)])
      1%nat Examples.x_positive false = Ok ((Some 1%nat, None), ex')
    ∧ all_hist_ok (heap ex')
    ∧ heap ex' !! 1%nat = Some s'
    ∧ branchHist s' = ["2"%char] ∧ depth s' = 1.
Proof.
  set (ex0 := Examples.executorOf Examples.certainConfig
                [(1%nat, Examples.blankState)]).
  assert (Hf : ∃ ex', fork (UB := Examples.zeroBytes) ex0 1%nat
                        Examples.x_positive false
                      = Ok ((Some 1%nat, None), ex')).
  { vm_compute. eexists. reflexivity. }
  destruct Hf as [ex' Hf].
  destruct (depth_is_history_length (UB := Examples.zeroBytes)
              (S := DFSSearcher)) as [Hinv Hinc].
  destruct (Hinc ex0 1%nat Examples.x_positive Examples.blankState
              Solver_True _ ex' eq_refl (or_introl eq_refl) eq_refl
              ltac:(done) Hf) as (s' & Hs' & Hh & Hd).
  exists ex', s'. split; [exact Hf|]. split; [|by repeat split].
  apply (Hinv ex0 ex').
  - change (map_Forall (λ _ s, hist_ok s) (heap ex0)).
    apply (bool_decide_unpack _). by vm_compute.
  - eapply reach_step; [apply reach_init | by eapply step_fork |].
    change (map_Forall (λ _ s, N.of_nat (length (branchHist s)) < 2 ^ 32)
              (heap ex')).
    vm_compute in Hf. injection Hf as <-.
    apply (bool_decide_unpack _). by vm_compute.
Defined.

(** C1 as stated fails: on the master, a state with empty history and
    depth 0 satisfies [depth_counts_forks]; a fork whose condition the
    solver finds true appends ['2'] and leaves the state at depth 1, with no
    ['0'] or ['1'] in its history. *)
Lemma depth_counts_forks_counterexample :
  ∃ ex' s',
    (∀ p s,
       heap (Examples.executorOf Examples.certainConfig
               [(1%nat, Examples.blankState)]) !! p = Some s →
       depth_counts_forks s)
    ∧ fork (UB := Examples.zeroBytes)
        (Examples.executorOf Examples.certainConfig
           [(1%nat, Examples.blankState)])
        1%nat Examples.x_positive false = Ok ((Some 1%nat, None), ex')
    ∧ heap ex' !! 1%nat = Some s'
    ∧ branchHist s' = branchHist Examples.blankState ++ ["2"%char]
    ∧ depth s' ≠ depth Examples.blankState
    ∧ ¬ depth_counts_forks s'.
Proof.
  eexists _, _. split; [|split; [vm_compute; reflexivity|]].
  - change (map_Forall (λ _ s, depth_counts_forks s)
              (heap (Examples.executorOf Examples.certainConfig
                       [(1%nat, Examples.blankState)]))).
    apply (bool_decide_unpack _). by vm_compute.
  - split; [vm_compute; reflexivity|]. split; [reflexivity|].
    split; [by vm_compute | by vm_compute].
Qed.

(** ** The breadth-first searcher *)

(** [selectState] takes the state at the front of the bucket at
    [currentMinDepth]. *)
Lemma BFS_selectState_bucket s p :
  BFS_selectState s = Ok p →
  ∃ l, depthStatesMap s !! currentMinDepth s = Some (p :: l).
Proof.
  unfold BFS_selectState. intros Hs.
  destruct (depthStatesMap s !! currentMinDepth s) as [[|q l]|];
    simplify_eq. eauto.
Qed.

(** C8 does not hold for depth changes of the current state.  The searcher
    holds state 1 at depth 1 and state 2 at depth 3, so [currentMinDepth] is
    1.  State 2 moves to depth 4 and is passed as [current]: its old bucket
    becomes empty, [currentMinDepth <= oldDepth] holds and [currentMinDepth]
    is set to the new depth 4, although state 1 still sits at depth 1.
    [selectState] then returns state 2. *)
Theorem BFS_depth_change_loses_minimum :
  ∃ s s',
    BFS_update Examples.bfsHeap BFS_init None [1%nat; 2%nat] [] = Ok s
    ∧ currentMinDepth s = 1
    ∧ BFS_update Examples.bfsHeapLater s (Some 2%nat) [] [] = Ok s'
    ∧ bfs_states s' = [1%nat; 2%nat]
    ∧ actDepth <$> Examples.bfsHeapLater !! 1%nat = Some 1
    ∧ currentMinDepth s' = 4
    ∧ BFS_selectState s' = Ok 2%nat
    ∧ actDepth <$> Examples.bfsHeapLater !! 2%nat = Some 4.
Proof.
  eexists _, _. split; [vm_compute; reflexivity|].
  split; [reflexivity|]. split; [vm_compute; reflexivity|].
  repeat split; vm_compute; reflexivity.
Qed.

(** ** Offloading *)

Section Offload.
Context {S : Type} {SS : Searcher S} {UB : UnspecifiedBytes}.
Implicit Types ex : Executor (S := S).

(** The worker has nothing to give: it is not ready to offload, it is
    halting, or fewer than four of its live states are not suspended. *)
Definition cannotOffload ex : Prop :=
  ready2Offload ex = false ∨ haltExecution ex = true
  ∨ haltFromMaster ex = true
  ∨ (removedStates ex = []
     ∧ ∃ l, notSuspended (heap ex) (states ex) = Ok l ∧ (length l < 4)%nat).

Lemma offloadFromStatesVector_none junk ex :
  cannotOffload ex → ∃ m, offloadFromStatesVector junk ex = Ok (m, []).
Proof.
  unfold offloadFromStatesVector.
  intros [Hr|[Hh|[Hm|(Hrem & l & Hl & Hlen)]]].
  - rewrite Hr, andb_false_r. eauto.
  - rewrite Hh. eauto.
  - rewrite Hm, andb_false_r. eauto.
  - destruct (_ && _ && _); [|eauto].
    rewrite Hrem, Hl. simpl.
    apply Nat.ltb_lt in Hlen. rewrite Hlen. eauto.
Qed.

(** C9.  An [OFFLOAD] request that reaches a worker which cannot offload is
    answered with the single character ['x']; the request is consumed and
    the reply recorded, and nothing else changes: the store, the live
    states, the searcher and the suspended pools are as before. *)
Theorem offload_refused junk ex payload inbox :
  mpiInbox ex = (OFFLOAD, payload) :: inbox →
  cannotOffload ex →
  ∃ ex', newCheck2Offload junk ex = Ok ex'
    ∧ mpiSent ex' = mpiSent ex ++ [(OFFLOAD_RESP, ["x"%char])]
    ∧ mpiInbox ex' = inbox
    ∧ heap ex' = heap ex ∧ states ex' = states ex
    ∧ searcher ex' = searcher ex
    ∧ addedStates ex' = addedStates ex
    ∧ removedStates ex' = removedStates ex
    ∧ rangingSuspendedStates ex' = rangingSuspendedStates ex
    ∧ suspendedStates ex' = suspendedStates ex
    ∧ prefixSuspendedStatesMap ex' = prefixSuspendedStatesMap ex
    ∧ prefixTree ex' = prefixTree ex.
Proof.
  intros Hin Hcannot. unfold newCheck2Offload. simpl. rewrite Hin. simpl.
  assert (cannotOffload (with_mpiInbox inbox (with_waiting4OffloadReq true ex)))
    as Hc' by exact Hcannot.
  destruct (offloadFromStatesVector_none junk _ Hc') as [m ->]. simpl.
  eexists. split; [reflexivity|]. by repeat split.
Qed.

End Offload.

(** [offload_refused] on a worker with three live states. *)
Lemma offload_refused_witness :
  ∃ ex',
    newCheck2Offload 0%nat Examples.smallWorker
      = Ok ex'
    ∧ mpiSent ex' = [(OFFLOAD_RESP, ["x"%char])]
    ∧ states ex' = [1%nat; 2%nat; 3%nat]
    ∧ rangingSuspendedStates ex' = [].
Proof.
  destruct (offload_refused 0%nat
              Examples.smallWorker [] [] eq_refl) as (ex' & Hn & Hs & _ & _ & Hst & _ & _ & _ & Hr & _).
  { right. right. right. split; [reflexivity|].
    exists [1%nat; 2%nat; 3%nat]. split; [reflexivity | simpl; lia]. }
  exists ex'. by repeat split.
Defined.

(** *** The common prefix sent in the reply *)












Section Surrender.
Context {S : Type} {SS : Searcher S} {UB : UnspecifiedBytes}.
Implicit Types ex : Executor (S := S).



Lemma filter_notin_nil (l : list nat) : filter (λ p, p ∉ []) l = l.
Proof.
  induction l as [|p l IH]; [done|].
  rewrite filter_cons_True by apply not_elem_of_nil. by rewrite IH.
Qed.


End Surrender.


Section SurrenderTheorem.
Context {S : Type} {SS : Searcher S} {UB : UnspecifiedBytes}.
Implicit Types ex : Executor (S := S).

Lemma fileSuspended_one ex p ex' st :
  heap ex !! p = Some st →
  fileSuspended ex [p] = Ok ex' →
  let key := String.string_of_list_ascii (canonicalPath (branchHist st)) in
  prefixSuspendedStatesMap ex' !! key
    = Some (default p (prefixSuspendedStatesMap ex !! key))
  ∧ prefixTree ex' = addToTree (canonicalPath (branchHist st)) (prefixTree ex).
Proof.
  intros Hp Hf. simpl in Hf. rewrite (deref_lookup _ _ _ Hp) in Hf.
  simpl in Hf. cbv zeta.
  destruct (prefixSuspendedStatesMap ex !! _) as [q|] eqn:Hk;
    injection Hf as <-; simpl.
  - by rewrite Hk.
  - by rewrite lookup_insert_eq.
Qed.


End SurrenderTheorem.



(** * Recovery caching *)


(** What the cache of [st] holds for [ri] at the load address [la]. *)
Definition cachedAt (la : N) (st : ExecutionState) (ri : RecoveryInfo)
    : option (option Expr) :=
  getRecoveredValue (snapshotIndex ri) (sliceId ri) la st.

(** The cache of [st2] holds every entry of the cache of [st1]. *)
Definition cache_extends (st1 st2 : ExecutionState) : Prop :=
  ∀ i s a x, getRecoveredValue i s a st1 = Some x →
             getRecoveredValue i s a st2 = Some x.


Lemma getRecoveredValue_update i s a i' s' a' e st :
  getRecoveredValue i s a (updateRecoveredValue i' s' a' e st)
  = if decide ((i, s, a) = (i', s', a')) then Some e
    else getRecoveredValue i s a st.
Proof.
  unfold getRecoveredValue, updateRecoveredValue. simpl.
  destruct (decide ((i, s) = (i', s'))) as [E|NE].
  - injection E as -> ->. rewrite lookup_insert_eq.
    destruct (decide (a = a')) as [->|Na].
    + rewrite lookup_insert_eq. by rewrite decide_True.
    + rewrite lookup_insert_ne by done. rewrite decide_False by congruence.
      by destruct (recoveryCache st !! (i', s')).
  - rewrite lookup_insert_ne by done. by rewrite decide_False by congruence.
Qed.




Lemma cache_extends_memo la ri st :
  cachedAt la st ri = None →
  cache_extends st
    (updateRecoveredValue (snapshotIndex ri) (sliceId ri) la None st).
Proof.
  intros Hn i s a x Hx. rewrite getRecoveredValue_update.
  case_decide as E; [|done]. injection E as -> -> ->.
  unfold cachedAt in Hn. congruence.
Qed.









(** * The end of a recovery state *)





Lemma erase_first_None p l : erase_first p l = None ↔ p ∉ l.
Proof.
  induction l as [|q l IH]; simpl.
  - split; [intros _; apply not_elem_of_nil | done].
  - case_bool_decide as E.
    + subst. split; [done|]. intros Hn. exfalso. apply Hn, list_elem_of_here.
    + rewrite not_elem_of_cons. destruct (erase_first p l); simpl.
      * split; [done|]. intros [_ Hn]. by apply IH in Hn.
      * split; [|done]. intros _. split; [done | by apply IH].
Qed.


Section RecoveryExit.
Context {S : Type} {SS : Searcher S} {UB : UnspecifiedBytes}.
Implicit Types ex : Executor (S := S).






End RecoveryExit.

Section RecoveryExitTheorem.
Context {S : Type} {SS : Searcher S} {UB : UnspecifiedBytes}.
Implicit Types ex : Executor (S := S).



End RecoveryExitTheorem.

(** * Writes of a recovery state *)

Section RecoveryWrite.
Context {S : Type} {SS : Searcher S} {UB : UnspecifiedBytes}.
Implicit Types ex : Executor (S := S).

(** A store through an address or an offset that is not a constant is not
    propagated. *)
Lemma onRecoveryStateWrite_symbolic ex state address mo offset value :
  isConstantExpr address = false ∨ isConstantExpr offset = false →
  onRecoveryStateWrite ex state address mo offset value = Ok ex.
Proof.
  intros [H|H]; destruct address, offset; try done.
Qed.

(** C5.  A recovery state [state] stores [value] at the constant address
    [a], at the constant offset [o] of the memory object [mo].  If [a] is
    not the address of the blocking load, nothing changes: the address
    space and the recovery cache of the dependent state are as before.  If
    it is, the dependent state [dep] receives the value: its copy of [mo]
    is written at [o], and its recovery cache maps the snapshot index, the
    slice and the load address of the recovery to [value]; its other cache
    entries and all other states are as before. *)
Theorem recovery_write_through ex state st ri a o mo value :
  heap ex !! state = Some st → isRecoveryState st = true →
  recoveryInfo st = Some ri →
  (getZExtValue a ≠ loadAddr ri →
     onRecoveryStateWrite ex state (ConstantExpr a) mo (ConstantExpr o) value
     = Ok ex)
  ∧ (getZExtValue a = loadAddr ri →
     ∀ dep dst os,
       dependentState st = Some dep → heap ex !! dep = Some dst →
       addressSpace dst !! mo = Some os →
       ∃ ex' dfin,
         onRecoveryStateWrite ex state (ConstantExpr a) mo (ConstantExpr o)
           value = Ok ex'
         ∧ ex' = with_heap (heap ex') ex
         ∧ heap ex' !! dep = Some dfin
         ∧ (∀ p, p ≠ dep → heap ex' !! p = heap ex !! p)
         ∧ addressSpace dfin
           = <[mo := <[getZExtValue o := value]> os]> (addressSpace dst)
         ∧ getRecoveredValue (snapshotIndex ri) (sliceId ri) (loadAddr ri)
             dfin = Some (Some value)
         ∧ ∀ i s a',
             (i, s, a') ≠ (snapshotIndex ri, sliceId ri, loadAddr ri) →
             getRecoveredValue i s a' dfin = getRecoveredValue i s a' dst).
Proof.
  intros Hst Hrec Hri. unfold onRecoveryStateWrite, getRecoveryInfo,
    getDependentState.
  rewrite (deref_lookup _ _ _ Hst). simpl. rewrite Hrec, Hri. simpl.
  split.
  - intros Hne. by rewrite (proj2 (N.eqb_neq _ _) Hne).
  - intros He dep dst os Hdep Hdst Hos.
    rewrite (proj2 (N.eqb_eq _ _) He). simpl. rewrite Hdep.
    rewrite (deref_lookup _ _ _ Hdst). simpl. rewrite Hos.
    eexists _, _. split; [reflexivity|]. simpl.
    split; [done|]. split; [by rewrite lookup_insert_eq|].
    split; [intros p Hp; by rewrite lookup_insert_ne|].
    split; [done|]. rewrite He.
    split.
    + rewrite getRecoveredValue_update. by rewrite decide_True.
    + intros i s a' Hne. rewrite getRecoveredValue_update.
      rewrite decide_False by done. done.
Qed.

End RecoveryWrite.





(** [recovery_write_through] on the recovery state at address [2]: a store
    of [42] to the load address [100] reaches memory object [7] and the
    recovery cache of the dependent state at address [1]. *)
Lemma recovery_write_through_witness :
  ∃ ex' dfin,
    onRecoveryStateWrite (Examples.recoveryOf []) 2%nat (ConstantExpr 100) 7
      (ConstantExpr 0) (ConstantExpr 42) = Ok ex'
    ∧ heap ex' !! 1%nat = Some dfin
    ∧ addressSpace dfin = {[ 7 := {[ 0 := ConstantExpr 42 ]} ]}
    ∧ getRecoveredValue 0 3 100 dfin = Some (Some (ConstantExpr 42)).
Proof.
  destruct (recovery_write_through (Examples.recoveryOf []) 2%nat
              Examples.recoveringState (Examples.infoAt 0) 100 0 7
              (ConstantExpr 42) eq_refl eq_refl eq_refl) as [_ Hw].
  destruct (Hw eq_refl 1%nat (Examples.waitingState []) ∅
              eq_refl eq_refl eq_refl)
    as (ex' & dfin & Hf & _ & Hd & _ & Ha & Hc & _).
  exists ex', dfin. split; [exact Hf|]. split; [exact Hd|].
  split; [|exact Hc]. rewrite Ha. vm_compute. reflexivity.
Defined.

(** * Properties of the further parts *)

(** ** The prefix tree *)

(** The direction a character stands for in the prefix tree: ['0'] is left,
    every other character is right. *)
Definition asDirection (c : ascii) : ascii :=
  if Ascii.eqb c "0" then "0"%char else "1"%char.

(** The directions two paths share from the root. *)
Fixpoint sharedDirections (p q : list ascii) : list ascii :=
  match p, q with
  | a :: p', b :: q' =>
      if Ascii.eqb (asDirection a) (asDirection b)
      then asDirection a :: sharedDirections p' q'
      else []
  | _, _ => []
  end.

Definition longest (a b : list ascii) : list ascii :=
  if (length a <? length b)%nat then b else a.

Definition isNode (t : PrefixTree) : Prop := t ≠ PTNull.

Lemma orNewNode_isNode t : isNode (orNewNode t).
Proof. by destruct t. Qed.

Lemma addToTree_isNode p t : isNode t → isNode (addToTree p t).
Proof.
  destruct p as [|c p], t as [|l r]; simpl; try done.
  by destruct (Ascii.eqb c "0").
Qed.

Lemma getPathToResume_new q : getPathToResume q (PTNode PTNull PTNull) = [].
Proof. destruct q as [|c q]; simpl; [done|]. by destruct (Ascii.eqb c "0"). Qed.

Lemma getPathToResume_null q : getPathToResume q PTNull = [].
Proof. by destruct q. Qed.

Lemma orNewNode_path q t :
  getPathToResume q (orNewNode t) = getPathToResume q t.
Proof.
  destruct t; simpl; [|done]. rewrite getPathToResume_new. by destruct q.
Qed.

Lemma getPathToResume_prefix q t :
  getPathToResume q t `prefix_of` (asDirection <$> q).
Proof.
  revert t. induction q as [|c q IH]; intros t; simpl.
  - by destruct t.
  - destruct t as [|l r]; [apply prefix_nil|]. unfold asDirection at 1.
    destruct (Ascii.eqb c "0").
    + destruct l; [apply prefix_nil|]. apply prefix_cons, IH.
    + destruct r; [apply prefix_nil|]. apply prefix_cons, IH.
Qed.

Lemma sharedDirections_length_le p q :
  (length (sharedDirections p q) ≤ length q)%nat.
Proof.
  revert q. induction p as [|a p IH]; intros [|b q]; simpl; try lia.
  destruct (Ascii.eqb _ _); simpl; [|lia]. specialize (IH q). lia.
Qed.

Lemma asDirection_zero c : Ascii.eqb (asDirection c) "0" = Ascii.eqb c "0".
Proof. unfold asDirection. by destruct (Ascii.eqb c "0") eqn:E. Qed.

Lemma asDirection_eqb a b :
  Ascii.eqb (asDirection a) (asDirection b)
  = Bool.eqb (Ascii.eqb a "0") (Ascii.eqb b "0").
Proof.
  unfold asDirection. by destruct (Ascii.eqb a "0"), (Ascii.eqb b "0").
Qed.

Lemma longest_nil_r a : longest a [] = a.
Proof. unfold longest. by destruct a. Qed.

Lemma longest_nil_l b : longest [] b = b.
Proof. unfold longest. by destruct b. Qed.

Lemma longest_cons c a b : longest (c :: a) (c :: b) = c :: longest a b.
Proof.
  unfold longest. simpl. change (S (length a) <? S (length b))%nat
    with (length a <? length b)%nat. by destruct (_ <? _)%nat.
Qed.

Lemma addToTree_walk p q t :
  isNode t →
  getPathToResume q (addToTree p t)
  = longest (getPathToResume q t) (sharedDirections p q).
Proof.
  revert q t. induction p as [|a p IH]; intros q t Ht.
  - simpl. rewrite longest_nil_r. by destruct t.
  - destruct t as [|l r]; [done|]. simpl.
    destruct q as [|b q].
    { simpl. by destruct (Ascii.eqb a "0"). }
    simpl. rewrite asDirection_eqb.
    destruct (Ascii.eqb a "0") eqn:Ea, (Ascii.eqb b "0") eqn:Eb; simpl.
    + rewrite IH by apply orNewNode_isNode. rewrite orNewNode_path.
      assert (isNode (addToTree p (orNewNode l))) as Hn
        by apply addToTree_isNode, orNewNode_isNode.
      destruct (addToTree p (orNewNode l)) as [|l1 r1] eqn:E1; [done|].
      unfold asDirection. rewrite Ea.
      destruct l as [|l0 r0].
      * by rewrite getPathToResume_null, !longest_nil_l.
      * by rewrite longest_cons.
    + rewrite longest_nil_r. by destruct r.
    + rewrite longest_nil_r. by destruct l.
    + rewrite IH by apply orNewNode_isNode. rewrite orNewNode_path.
      assert (isNode (addToTree p (orNewNode r))) as Hn
        by apply addToTree_isNode, orNewNode_isNode.
      destruct (addToTree p (orNewNode r)) as [|l1 r1] eqn:E1; [done|].
      unfold asDirection. rewrite Ea.
      destruct r as [|l0 r0].
      * by rewrite getPathToResume_null, !longest_nil_l.
      * by rewrite longest_cons.
Qed.

(** ** The prefix message *)

Lemma dashLocFrom_app_nodash x (s rest : list ascii) :
  "-"%char ∉ s →
  dashLocFrom x (s ++ rest) = dashLocFrom (x + length s) rest.
Proof.
  revert x. induction s as [|c s IH]; intros x Hs; simpl.
  - by rewrite Nat.add_0_r.
  - apply not_elem_of_cons in Hs as [Hc Hs].
    destruct (Ascii.eqb_spec c "-") as [->|_]; [done|].
    rewrite IH by done. f_equal. lia.
Qed.

Lemma untilDash_nodash (s rest : list ascii) :
  "-"%char ∉ s → untilDash (s ++ rest) = s ++ untilDash rest.
Proof.
  induction s as [|c s IH]; intros Hs; simpl; [done|].
  apply not_elem_of_cons in Hs as [Hc Hs].
  destruct (Ascii.eqb_spec c "-") as [->|_]; [done|]. by rewrite IH.
Qed.

(** The private parts of a message are read back one by one. *)
Lemma private_parts_read_back (pre : list ascii) (sufs : list (list ascii)) :
  Forall (λ s, "-"%char ∉ s) sufs →
  let body := concat (map (λ s, "-"%char :: s) sufs) in
  map (λ d, untilDash (drop (Datatypes.S d) (pre ++ body)))
      (dashLocFrom (length pre) body)
  = sufs.
Proof.
  intros Hs. revert pre. induction Hs as [|s sufs Hs _ IH]; intros pre;
    [done|].
  simpl. rewrite dashLocFrom_app_nodash by done. simpl. f_equal.
  - rewrite cons_middle, app_assoc.
    rewrite drop_app_length' by (rewrite length_app; simpl; lia).
    rewrite untilDash_nodash by done.
    destruct sufs; simpl; by rewrite app_nil_r.
  - specialize (IH (pre ++ "-"%char :: s)). simpl in IH.
    rewrite <-app_assoc in IH. simpl in IH.
    rewrite length_app in IH. simpl in IH.
    by rewrite Nat.add_succ_r in IH.
Qed.

Lemma receivedPrefixes_combinedPrefix (commonPref : list ascii)
    (hists : list (list ascii)) :
  "-"%char ∉ commonPref →
  Forall (λ h, commonPref `prefix_of` h ∧ "-"%char ∉ h) hists →
  receivedPrefixes (combinedPrefix commonPref hists) = hists.
Proof.
  intros Hcp Hh. unfold receivedPrefixes, combinedPrefix, dashLoc.
  set (sufs := map (drop (length commonPref)) hists).
  assert (Hbody : map (λ h, "-"%char :: drop (length commonPref) h) hists
                  = map (λ s, "-"%char :: s) sufs).
  { unfold sufs. by rewrite map_map. }
  rewrite Hbody.
  assert (Hsufs : Forall (λ s, "-"%char ∉ s) sufs).
  { unfold sufs. rewrite Forall_map. eapply Forall_impl; [exact Hh|].
    intros h [[k ->] Hn]. rewrite drop_app_length.
    intros Hk. apply Hn. rewrite elem_of_app. by right. }
  rewrite dashLocFrom_app_nodash by done. simpl.
  destruct (dashLocFrom (length commonPref) _) as [|d0 ds] eqn:Hd.
  { destruct hists as [|h hists]; [done|]. simpl in Hd. discriminate. }
  assert (d0 = length commonPref) as ->.
  { destruct sufs as [|s sufs']; simpl in Hd; [done|]. by injection Hd. }
  rewrite <-Hd.
  pose proof (private_parts_read_back commonPref sufs Hsufs) as Hback.
  simpl in Hback.
  set (body := concat (map (λ s, "-"%char :: s) sufs)) in *.
  transitivity
    (map (λ s, commonPref ++ s)
       (map (λ d, untilDash (drop (Datatypes.S d) (commonPref ++ body)))
          (dashLocFrom (length commonPref) body))).
  - rewrite map_map. apply map_ext. intros d.
    unfold receivedPrefix. by rewrite take_app_length.
  - rewrite Hback. unfold sufs. rewrite map_map.
    clear -Hh. induction Hh as [|h hists [[k ->] _] _ IH]; [done|].
    simpl. rewrite drop_app_length. by rewrite IH.
Qed.

(** ** Filing and resuming suspended states *)

(** The characters of a branch history and of a prefix message. *)
Definition historyChar (c : ascii) : Prop :=
  c = "0"%char ∨ c = "1"%char ∨ c = "2"%char ∨ c = "3"%char ∨ c = "-"%char.

Lemma canonicalPath_app h1 h2 :
  canonicalPath (h1 ++ h2) = canonicalPath h1 ++ canonicalPath h2.
Proof.
  induction h1 as [|c h1 IH]; simpl; [done|].
  destruct (Ascii.eqb c "2"); [by rewrite IH|].
  destruct (Ascii.eqb c "3"); [by rewrite IH|].
  destruct (Ascii.eqb c "-"); by rewrite IH.
Qed.

Lemma canonicalPath_binary h :
  Forall historyChar h →
  Forall (λ c, c = "0"%char ∨ c = "1"%char) (canonicalPath h).
Proof.
  induction 1 as [|c h Hc _ IH]; simpl; [constructor|].
  destruct Hc as [-> | [-> | [-> | [-> | ->]]]]; simpl; try done;
    constructor; auto.
Qed.

Lemma binary_directions (l : list ascii) :
  Forall (λ c, c = "0"%char ∨ c = "1"%char) l → asDirection <$> l = l.
Proof.
  induction 1 as [|c l [-> | ->] _ IH]; [done| |]; rewrite fmap_cons, IH; done.
Qed.

Lemma sharedDirections_self p : sharedDirections p p = asDirection <$> p.
Proof.
  induction p as [|a p IH]; simpl; [done|].
  rewrite Ascii.eqb_refl. by rewrite IH.
Qed.

Lemma longest_prefix a b : a `prefix_of` b → longest a b = b.
Proof.
  intros [k ->]. unfold longest. rewrite length_app.
  destruct (Nat.ltb_spec (length a) (length a + length k)) as [_|Hge];
    [done|].
  assert (length k = 0%nat) as Hk by lia.
  apply nil_length_inv in Hk as ->. by rewrite app_nil_r.
Qed.

(** The path just added is found in full. *)
Lemma addToTree_found p t :
  isNode t → getPathToResume p (addToTree p t) = asDirection <$> p.
Proof.
  intros Ht. rewrite addToTree_walk by done.
  rewrite sharedDirections_self. apply longest_prefix.
  apply getPathToResume_prefix.
Qed.

Lemma asDirection_binary (l : list ascii) :
  Forall (λ c, c = "0"%char ∨ c = "1"%char) (asDirection <$> l).
Proof.
  induction l as [|c l IH]; simpl; constructor; [|done].
  unfold asDirection. destruct (Ascii.eqb c "0"); auto.
Qed.

(** X1.  The path [getPathToResume] returns follows the input: it is a
    prefix of the input read as directions (['0'] left, anything else
    right), so it holds only ['0'] and ['1'] and is no longer than the
    input; on a tree that holds the root alone it is empty. *)
Theorem getPathToResume_follows_input q t :
  getPathToResume q t `prefix_of` (asDirection <$> q)
  ∧ Forall (λ c, c = "0"%char ∨ c = "1"%char) (getPathToResume q t)
  ∧ (length (getPathToResume q t) ≤ length q)%nat
  ∧ getPathToResume q (PTNode PTNull PTNull) = [].
Proof.
  pose proof (getPathToResume_prefix q t) as Hp. split; [done|].
  split; [|split; [|apply getPathToResume_new]].
  - destruct Hp as [k Hk]. pose proof (asDirection_binary q) as Hb.
    rewrite Hk in Hb. by apply Forall_app in Hb as [? _].
  - apply prefix_length in Hp. by rewrite length_fmap in Hp.
Qed.

(** X2.  What [addToTree] changes.  After a path [p] was added to a tree,
    the walk along any path [q] gets as far as it got before or as far as
    [q] and [p] go together, whichever is longer: no path is lost and
    nothing but [p] is added.  The added path itself is found in full. *)
Theorem addToTree_extends_walk p q t :
  isNode t →
  getPathToResume q (addToTree p t)
  = longest (getPathToResume q t) (sharedDirections p q)
  ∧ getPathToResume p (addToTree p t) = asDirection <$> p.
Proof.
  intros Ht. split; [by apply addToTree_walk | by apply addToTree_found].
Qed.

Lemma addToTree_extends_walk_witness :
  getPathToResume ["0"; "0"]%char
    (addToTree ["0"; "1"]%char (PTNode PTNull PTNull)) = ["0"%char]
  ∧ getPathToResume ["0"; "1"]%char
      (addToTree ["0"; "1"]%char (PTNode PTNull PTNull)) = ["0"; "1"]%char.
Proof.
  destruct (addToTree_extends_walk ["0"; "1"]%char ["0"; "0"]%char
              (PTNode PTNull PTNull) ltac:(done)) as [H1 H2].
  split; [by rewrite H1 | by rewrite H2].
Defined.

(** X3.  The message a worker builds for the states it gives away is read
    back in full: for histories without ['-'] that share the prefix
    [commonPref], the prefixes a receiver takes from
    [combinedPrefix commonPref hists] are the histories themselves, in
    order. *)
Theorem combinedPrefix_read_back (commonPref : list ascii)
    (hists : list (list ascii)) :
  "-"%char ∉ commonPref →
  Forall (λ h, commonPref `prefix_of` h ∧ "-"%char ∉ h) hists →
  receivedPrefixes (combinedPrefix commonPref hists) = hists.
Proof. apply receivedPrefixes_combinedPrefix. Qed.

Lemma combinedPrefix_read_back_witness :
  receivedPrefixes
    (combinedPrefix ["0"%char] [["0"; "1"; "2"]%char; ["0"; "0"]%char])
  = [["0"; "1"; "2"]%char; ["0"; "0"]%char].
Proof.
  apply combinedPrefix_read_back.
  - apply (bool_decide_unpack _). by vm_compute.
  - repeat constructor; try (by eexists);
      apply (bool_decide_unpack _); by vm_compute.
Defined.

Lemma elem_of_set_insert (p q : nat) (l : list nat) :
  q ∈ set_insert p l ↔ q = p ∨ q ∈ l.
Proof.
  induction l as [|x l IH]; simpl.
  - by rewrite elem_of_cons.
  - destruct (Nat.ltb_spec p x) as [_|_].
    + by rewrite elem_of_cons.
    + destruct (Nat.eqb_spec p x) as [-> |_].
      * rewrite elem_of_cons. tauto.
      * rewrite !elem_of_cons, IH. tauto.
Qed.

Lemma elem_of_foldl_set_insert (r : list nat) (q : nat) (l : list nat) :
  q ∈ foldl (λ l p, set_insert p l) l r ↔ q ∈ l ∨ q ∈ r.
Proof.
  revert l. induction r as [|p r IH]; intros l; simpl.
  - rewrite elem_of_nil. tauto.
  - rewrite IH, elem_of_set_insert, elem_of_cons. tauto.
Qed.

Lemma foldl_delete_lookup (ks : list string) (m : gmap string nat) k :
  foldl (λ m path, delete path m) m ks !! k
  = if decide (k ∈ ks) then None else m !! k.
Proof.
  revert m. induction ks as [|x ks IH]; intros m; simpl; [done|].
  rewrite IH. destruct (decide (k ∈ ks)) as [Hin|Hout].
  - rewrite decide_True; [done|]. by apply list_elem_of_further.
  - destruct (decide (k = x)) as [-> |Hne].
    + rewrite decide_True by apply list_elem_of_here.
      by rewrite lookup_delete_eq.
    + rewrite decide_False.
      * by rewrite lookup_delete_ne.
      * rewrite elem_of_cons. tauto.
Qed.

(** Folding a fallible step over a list. *)
Lemma foldl_bind_Fail {A B} (f : A → B → Res A) e (l : list B) :
  foldl (λ acc x, a ← acc; f a x) (Fail e) l = Fail e.
Proof. induction l as [|x l IH]; simpl; [done|]. exact IH. Qed.

Lemma foldl_bind_cons {A B} (f : A → B → Res A) a0 x (l : list B) r :
  foldl (λ acc x, a ← acc; f a x) (Ok a0) (x :: l) = Ok r →
  ∃ a1, f a0 x = Ok a1 ∧ foldl (λ acc x, a ← acc; f a x) (Ok a1) l = Ok r.
Proof.
  cbn [foldl mbind Res_bind]. destruct (f a0 x) as [a1|e]; [by eauto|].
  by rewrite foldl_bind_Fail.
Qed.

Section PrefixTaskProps.
Context {S : Type} {SS : Searcher S}.
Implicit Types ex : Executor (S := S).

(** The key under which the resume code looks for the state of the prefix
    [P], and the state it finds. *)
Definition resumeKey (t : PrefixTree) (P : list ascii) : string :=
  String.string_of_list_ascii (getPathToResume (canonicalPath P) t).

Definition targetOf ex (P : list ascii) : option ptr :=
  prefixSuspendedStatesMap ex !! resumeKey (prefixTree ex) P.

Definition asPrefix (P : list ascii) : string * N :=
  (String.string_of_list_ascii P, N.of_nat (length P)).

(** [st] with the prefixes [ps] added at the end. *)
Definition withPrefixes (ps : list (list ascii)) (st : ExecutionState)
    : ExecutionState :=
  set_prefixes (prefixes st ++ (asPrefix <$> ps)) st.

Lemma withPrefixes_nil st : withPrefixes [] st = st.
Proof. unfold withPrefixes. simpl. rewrite app_nil_r. by destruct st. Qed.

Lemma withPrefixes_cons P ps st :
  withPrefixes ps (addPrefix (String.string_of_list_ascii P)
                     (N.of_nat (length P)) st)
  = withPrefixes (P :: ps) st.
Proof.
  unfold withPrefixes, addPrefix. simpl. by rewrite <-app_assoc.
Qed.

Lemma resume_loop ps ex r k ex1 r1 k1 :
  foldl (λ acc recvP, a ← acc; resumeForPrefix a recvP) (Ok (ex, r, k)) ps
  = Ok (ex1, r1, k1) →
  ex1 = with_heap (heap ex1) ex
  ∧ Forall (λ P, ∃ q, targetOf ex P = Some q ∧ is_Some (heap ex !! q)) ps
  ∧ (∀ q, heap ex1 !! q
          = withPrefixes (filter (λ P, targetOf ex P = Some q) ps)
            <$> heap ex !! q)
  ∧ (∀ q, q ∈ r1 ↔ q ∈ r ∨ ∃ P, P ∈ ps ∧ targetOf ex P = Some q)
  ∧ (∀ key, key ∈ k1 → key ∈ k ∨ ∃ P, P ∈ ps ∧ resumeKey (prefixTree ex) P = key)
  ∧ (∀ P q, P ∈ ps → targetOf ex P = Some q → q ∉ r →
       ∃ P', P' ∈ ps ∧ targetOf ex P' = Some q
             ∧ resumeKey (prefixTree ex) P' ∈ k1)
  ∧ (∀ key, key ∈ k → key ∈ k1).
Proof.
  revert ex r k. induction ps as [|P ps IH]; intros ex r k Hf.
  - simpl in Hf. injection Hf as <- <- <-. split; [by rewrite with_heap_id|].
    split; [constructor|]. split.
    { intros q. simpl. destruct (heap ex !! q); simpl; [|done].
      by rewrite withPrefixes_nil. }
    split.
    { intros q. split; [auto|]. intros [?|(P & HP & _)]; [done|].
      by apply elem_of_nil in HP. }
    split; [auto|]. split; [|done].
    intros P q HP. by apply elem_of_nil in HP.
  - apply foldl_bind_cons in Hf as ([[exa ra] ka] & Hstep & Hf).
    unfold resumeForPrefix in Hstep. fold (resumeKey (prefixTree ex) P) in Hstep.
    fold (targetOf ex P) in Hstep.
    destruct (targetOf ex P) as [q0|] eqn:Ht; [|done].
    bind_inv Hstep as st Hst. apply deref_Some in Hst.
    assert (Hexa : exa = store q0 (addPrefix (String.string_of_list_ascii P)
                                     (N.of_nat (length P)) st) ex).
    { by destruct (bool_decide _); injection Hstep as <- _ _. }
    assert (Hsame : ∀ P', targetOf exa P' = targetOf ex P') by (by subst exa).
    assert (Htree : prefixTree exa = prefixTree ex) by (by subst exa).
    destruct (IH _ _ _ Hf) as (E & Hall & Hheap & Hr & Hk & Hfirst & Hmono).
    split; [rewrite E, Hexa; done|].
    split.
    { constructor; [by eauto|]. eapply Forall_impl; [exact Hall|].
      intros P' (q & Hq & Hs). exists q. rewrite <-Hsame. split; [done|].
      rewrite Hexa in Hs. simpl in Hs.
      destruct (decide (q0 = q)) as [<- |Hne]; [by eauto|].
      by rewrite lookup_insert_ne in Hs. }
    split.
    { intros q. rewrite Hheap. rewrite Hexa. simpl.
      rewrite filter_cons.
      destruct (decide (q0 = q)) as [<- |Hne].
      - rewrite lookup_insert_eq, Hst. simpl. rewrite decide_True by done.
        by rewrite <-withPrefixes_cons.
      - rewrite lookup_insert_ne by done.
        by rewrite decide_False by congruence. }
    assert (Hra : ∀ q, q ∈ ra ↔ q ∈ r ∨ q = q0).
    { intros q. case_bool_decide as Hin; injection Hstep as _ <- _.
      - split; [auto | intros [?| ->]; done].
      - rewrite elem_of_app, elem_of_cons, elem_of_nil. tauto. }
    assert (Hka : ∀ key, key ∈ ka ↔ key ∈ k
                         ∨ ((q0 ∉ r) ∧ key = resumeKey (prefixTree ex) P)).
    { intros key. case_bool_decide as Hin; injection Hstep as _ _ <-.
      - split; [auto | intros [?|[? _]]; done].
      - rewrite elem_of_app, elem_of_cons, elem_of_nil. tauto. }
    split.
    { intros q. rewrite Hr, Hra. split.
      - intros [[?| ->]|(P' & HP' & HT)]; [auto| |].
        + right. exists P. split; [apply list_elem_of_here | done].
        + right. exists P'. rewrite <-Hsame.
          split; [by apply list_elem_of_further | done].
      - intros [?|(P' & HP' & HT)]; [auto|].
        apply elem_of_cons in HP' as [-> |HP'].
        + left. right. congruence.
        + right. exists P'. by rewrite Hsame. }
    split.
    { intros key Hkey. apply Hk in Hkey as [Hkey|(P' & HP' & <-)].
      - apply Hka in Hkey as [?|[_ ->]]; [auto|].
        right. exists P. split; [apply list_elem_of_here | done].
      - right. exists P'. rewrite Htree.
        split; [by apply list_elem_of_further | done]. }
    split.
    { intros P' q HP' HT Hq.
      destruct (decide (q = q0)) as [-> |Hne].
      - exists P. split; [apply list_elem_of_here|]. split; [done|].
        apply Hmono, Hka. auto.
      - apply elem_of_cons in HP' as [-> |HP']; [congruence|].
        destruct (Hfirst P' q HP') as (P2 & HP2 & HT2 & Hk2).
        { by rewrite Hsame. }
        { rewrite Hra. intros [?|?]; done. }
        exists P2. rewrite <-Hsame, <-Htree.
        split; [by apply list_elem_of_further | done]. }
    intros key Hkey. apply Hmono, Hka. auto.
Qed.

(** X4.  What a prefix task does.  The message is taken apart into its
    prefixes; for each prefix the walk through the prefix tree along its
    canonical form gives a key, and the state suspended under that key is
    its target (a prefix without a target stops the worker at an
    assertion).  Every target receives the prefixes that led to it, in the
    order of the message, at the end of its prefix list, and joins the
    live states; no other state changes.  The searcher is told to add all
    live states, not only the resumed ones.  Only keys that were used are
    erased from the map of suspended states, and if no state is suspended
    under two keys, every used key is erased.  The bounds are set to the
    whole message. *)
Theorem prefix_task_resumes ex recv_prefix bounds ex' :
  startPrefixTask ex recv_prefix = Ok (bounds, ex') →
  let ps := receivedPrefixes recv_prefix in
  bounds = {| lowerBound := recv_prefix; upperBound := recv_prefix;
              enablePathPrefixFilter := true;
              prefixDepth := N.of_nat (length recv_prefix) |}
  ∧ Forall (λ P, ∃ q, targetOf ex P = Some q ∧ is_Some (heap ex !! q)) ps
  ∧ (∀ q, heap ex' !! q
          = withPrefixes (filter (λ P, targetOf ex P = Some q) ps)
            <$> heap ex !! q)
  ∧ (∀ q, q ∈ states ex'
          ↔ q ∈ states ex ∨ ∃ P, P ∈ ps ∧ targetOf ex P = Some q)
  ∧ searcher_update (heap ex') (searcher ex) None (states ex') []
    = Ok (searcher ex')
  ∧ (∀ key q, prefixSuspendedStatesMap ex' !! key = Some q →
              prefixSuspendedStatesMap ex !! key = Some q)
  ∧ (∀ key, prefixSuspendedStatesMap ex' !! key = None →
            is_Some (prefixSuspendedStatesMap ex !! key) →
            ∃ P, P ∈ ps ∧ resumeKey (prefixTree ex) P = key)
  ∧ ((∀ k1 k2 q, prefixSuspendedStatesMap ex !! k1 = Some q →
                 prefixSuspendedStatesMap ex !! k2 = Some q → k1 = k2) →
     ∀ P, P ∈ ps →
          prefixSuspendedStatesMap ex' !! resumeKey (prefixTree ex) P = None)
  ∧ prefixTree ex' = prefixTree ex.
Proof.
  intros Hf ps. unfold startPrefixTask in Hf. fold ps in Hf.
  bind_inv Hf as [[ex1 r1] k1] Hloop. bind_inv Hf as s1 Hs1.
  injection Hf as <- <-. split; [done|].
  apply resume_loop in Hloop as (E & Hall & Hheap & Hr & Hk & Hfirst & _).
  split; [done|]. split; [done|]. simpl.
  assert (Est : states ex1 = states ex) by (by rewrite E).
  assert (Ese : searcher ex1 = searcher ex) by (by rewrite E).
  assert (Ema : prefixSuspendedStatesMap ex1 = prefixSuspendedStatesMap ex)
    by (by rewrite E).
  assert (Etr : prefixTree ex1 = prefixTree ex) by (by rewrite E).
  split.
  { intros q. rewrite elem_of_foldl_set_insert, Hr, Est, elem_of_nil. tauto. }
  split; [by rewrite <-Ese|].
  split.
  { intros key q. rewrite foldl_delete_lookup, Ema. by case_decide. }
  split.
  { intros key Hnone [q Hq]. rewrite foldl_delete_lookup, Ema in Hnone.
    case_decide as Hin; [|congruence].
    apply Hk in Hin as [Hin|?]; [by apply elem_of_nil in Hin | done]. }
  split; [|done].
  intros Hinj P HP. rewrite foldl_delete_lookup, Ema.
  rewrite Forall_forall in Hall. destruct (Hall P HP) as (q & Hq & _).
  destruct (Hfirst P q HP Hq) as (P' & HP' & Hq' & Hin);
    [apply not_elem_of_nil|].
  assert (resumeKey (prefixTree ex) P' = resumeKey (prefixTree ex) P) as <-
    by (by eapply Hinj).
  by rewrite decide_True.
Qed.

End PrefixTaskProps.

Lemma prefix_task_resumes_witness :
  ∃ bounds ex',
    startPrefixTask MoreExamples.filedWorker
      ["0"; "1"; "-"; "0"; "-"; "1"]%char = Ok (bounds, ex')
    ∧ heap ex' !! 1%nat
      = Some (withPrefixes [["0"; "1"; "0"]%char; ["0"; "1"; "1"]%char]
                (Examples.stateAt ["0"; "1"]%char []))
    ∧ (1%nat ∈ states ex')
    ∧ prefixSuspendedStatesMap ex' !! "01"%string = None.
Proof.
  destruct (startPrefixTask MoreExamples.filedWorker
              ["0"; "1"; "-"; "0"; "-"; "1"]%char) as [[bounds ex']|e] eqn:E;
    [|by vm_compute in E].
  exists bounds, ex'.
  destruct (prefix_task_resumes _ _ _ _ E)
    as (_ & _ & Hh & Hst & _ & _ & _ & Hgone & _).
  split; [done|]. split; [|split].
  - rewrite Hh. by vm_compute.
  - apply Hst. right. exists ["0"; "1"; "0"]%char.
    split; [|by vm_compute]. apply (bool_decide_unpack _). by vm_compute.
  - assert (Hm : prefixSuspendedStatesMap MoreExamples.filedWorker
                 = {[ "01"%string := 1%nat ]}) by (by vm_compute).
    apply (Hgone
             ltac:(rewrite Hm;
                   intros k1 k2 q [<- _]%lookup_singleton_Some
                          [<- _]%lookup_singleton_Some; reflexivity)
             ["0"; "1"; "0"]%char).
    apply (bool_decide_unpack _). by vm_compute.
Defined.

Lemma sharedDirections_prefix p k :
  sharedDirections p (p ++ k) = asDirection <$> p.
Proof.
  induction p as [|a p IH]; simpl; [by destruct k|].
  rewrite Ascii.eqb_refl. by rewrite IH.
Qed.

Lemma prefix_same_length {A} (a b c : list A) :
  a `prefix_of` c → b `prefix_of` c → length a = length b → a = b.
Proof.
  intros [ka ->] [kb Hb] Hlen.
  apply (f_equal (take (length a))) in Hb.
  rewrite take_app_length in Hb. rewrite Hlen, take_app_length in Hb. done.
Qed.

Section FileAndResume.
Context {S : Type} {SS : Searcher S}.
Implicit Types ex : Executor (S := S).

(** X5.  A state that [updateStates] files is found again.  Let the state
    [p] with history [h] be filed under a key that was free.  Then [p] is
    the target of every prefix [P] whose canonical form extends that of
    [h], unless the tree already held a longer path along [P] (a state
    suspended deeper on the same path). *)
Theorem filed_state_is_target ex p st ex' P :
  heap ex !! p = Some st →
  Forall historyChar (branchHist st) → Forall historyChar P →
  isNode (prefixTree ex) →
  prefixSuspendedStatesMap ex
    !! String.string_of_list_ascii (canonicalPath (branchHist st)) = None →
  canonicalPath (branchHist st) `prefix_of` canonicalPath P →
  (length (getPathToResume (canonicalPath P) (prefixTree ex))
   ≤ length (canonicalPath (branchHist st)))%nat →
  fileSuspended ex [p] = Ok ex' →
  targetOf ex' P = Some p.
Proof.
  intros Hp Hh HP Ht Hfree Hpre Hlen Hf.
  destruct (fileSuspended_one _ _ _ _ Hp Hf) as [Hmap Htree].
  cbv zeta in Hmap. rewrite Hfree in Hmap. simpl in Hmap.
  unfold targetOf, resumeKey. rewrite Htree.
  rewrite addToTree_walk by done.
  set (ch := canonicalPath (branchHist st)) in *.
  set (cP := canonicalPath P) in *.
  assert (Hbin : asDirection <$> ch = ch)
    by apply binary_directions, canonicalPath_binary, Hh.
  assert (HbinP : asDirection <$> cP = cP)
    by apply binary_directions, canonicalPath_binary, HP.
  assert (Hshared : sharedDirections ch cP = ch).
  { destruct Hpre as [k ->]. by rewrite sharedDirections_prefix. }
  rewrite Hshared.
  assert (longest (getPathToResume cP (prefixTree ex)) ch = ch) as ->;
    [|done].
  unfold longest. destruct (Nat.ltb_spec (length (getPathToResume cP
    (prefixTree ex))) (length ch)) as [_|Hge]; [done|].
  apply (prefix_same_length _ _ cP); [|done|lia].
  rewrite <-HbinP at 2. apply getPathToResume_prefix.
Qed.

End FileAndResume.

Lemma filed_state_is_target_witness :
  ∃ ex', fileSuspended MoreExamples.idleWorker [1%nat] = Ok ex'
         ∧ targetOf ex' ["0"; "3"; "1"; "0"]%char = Some 1%nat.
Proof.
  exists MoreExamples.filedWorker. split; [by vm_compute|].
  apply (filed_state_is_target MoreExamples.idleWorker 1%nat
           (Examples.stateAt ["0"; "1"]%char [])).
  - by vm_compute.
  - repeat constructor; vm_compute; tauto.
  - repeat constructor; vm_compute; tauto.
  - by vm_compute.
  - by vm_compute.
  - by exists ["1"; "0"]%char.
  - vm_compute. lia.
  - by vm_compute.
Defined.

(** ** The depth-first searcher *)

Lemma filter_Forall_id {A} (P : A → Prop) `{∀ x, Decision (P x)} (l : list A) :
  Forall P l → filter P l = l.
Proof.
  induction 1 as [|x l Hx _ IH]; [done|].
  by rewrite filter_cons_True, IH.
Qed.

Lemma removelast_last_NoDup (l : list nat) b :
  NoDup l → last l = Some b → removelast l = filter (λ q, q ≠ b) l.
Proof.
  intros Hnd Hl. apply last_Some in Hl as [l' ->].
  rewrite removelast_last, filter_app.
  rewrite filter_cons_False by (intros H; by apply H).
  rewrite filter_nil, app_nil_r. symmetry. apply filter_Forall_id.
  apply NoDup_app in Hnd as (_ & Hdis & _).
  apply Forall_forall. intros x Hx ->. apply (Hdis b Hx).
  apply list_elem_of_here.
Qed.

Lemma erase_first_NoDup (l : list nat) p :
  NoDup l → p ∈ l → erase_first p l = Some (filter (λ q, q ≠ p) l).
Proof.
  induction l as [|x l IH]; intros Hnd Hin; [by apply elem_of_nil in Hin|].
  apply NoDup_cons in Hnd as [Hx Hnd]. simpl.
  case_bool_decide as E.
  - subst x. rewrite filter_cons_False by (intros H; by apply H). f_equal.
    symmetry. apply filter_Forall_id, Forall_forall. by intros y Hy ->.
  - apply elem_of_cons in Hin as [-> |Hin]; [done|].
    rewrite filter_cons_True by congruence. by rewrite IH.
Qed.

Lemma DFS_remove_NoDup (l : list nat) es :
  NoDup l →
  DFS_remove l es
  = if decide (es ∈ l) then Ok (filter (λ q, q ≠ es) l)
    else match l with [] => Fail OutOfBounds | _ => Fail AssertionFailure end.
Proof.
  intros Hnd. unfold DFS_remove. destruct (last l) as [b|] eqn:Hl.
  - case_bool_decide as E.
    + subst b. rewrite decide_True.
      * by rewrite (removelast_last_NoDup l es).
      * apply last_Some in Hl as [l' ->]. rewrite elem_of_app, elem_of_cons.
        auto.
    + case_decide as Hin.
      * by rewrite erase_first_NoDup.
      * apply erase_first_None in Hin. rewrite Hin.
        destruct l; [done|done].
  - apply last_None in Hl as ->. rewrite decide_False; [done|].
    apply not_elem_of_nil.
Qed.

Lemma DFS_remove_all (removed l : list nat) l' :
  NoDup l →
  foldl (λ acc es, s' ← acc; DFS_remove s' es) (Ok l) removed = Ok l'
  ↔ NoDup removed ∧ Forall (λ p, p ∈ l) removed
    ∧ l' = filter (λ p, p ∉ removed) l.
Proof.
  revert l. induction removed as [|es rest IH]; intros l Hnd.
  - simpl. split.
    + intros [= <-]. split; [constructor|]. split; [constructor|].
      by rewrite filter_notin_nil.
    + intros (_ & _ & ->). by rewrite filter_notin_nil.
  - cbn [foldl mbind Res_bind]. rewrite DFS_remove_NoDup by done.
    case_decide as Hin.
    + rewrite IH by by apply NoDup_filter.
      rewrite NoDup_cons, Forall_cons, list_filter_filter.
      assert (Hmem : Forall (λ p, p ∈ filter (λ q, q ≠ es) l) rest
                     ↔ (es ∉ rest) ∧ Forall (λ p, p ∈ l) rest).
      { rewrite !Forall_forall. split.
        - intros Hall. split.
          + intros Hes. apply Hall, list_elem_of_filter in Hes as [? _]. done.
          + intros x Hx. by apply Hall, list_elem_of_filter in Hx as [_ ?].
        - intros [Hes Hall] x Hx. apply list_elem_of_filter.
          split; [by intros -> | by apply Hall]. }
      rewrite Hmem.
      assert (Hfil : filter (λ x, (x ∉ rest) ∧ x ≠ es) l
                     = filter (λ p, p ∉ es :: rest) l).
      { apply list_filter_iff. intros x. rewrite not_elem_of_cons. tauto. }
      rewrite Hfil. tauto.
    + split.
      * intros Hf. exfalso. destruct l; by rewrite foldl_bind_Fail in Hf.
      * intros (_ & Hall & _). by apply Forall_cons in Hall as [? _].
Qed.

(** X6.  The depth-first searcher keeps its states in the order in which
    they were added.  On a searcher without duplicates, [update] succeeds
    exactly when every removed state is held (after the additions) and
    none is removed twice; what is left is the old states and the added
    ones, in that order, without the removed ones, and [selectState]
    returns the last of them: the state added latest that was not
    removed. *)
Theorem DFS_update_keeps_order h (s : DFSSearcher) cur added removed s' :
  NoDup (s ++ added) →
  (DFS_update h s cur added removed = Ok s'
   ↔ NoDup removed ∧ Forall (λ p, p ∈ s ++ added) removed
     ∧ s' = filter (λ p, p ∉ removed) (s ++ added))
  ∧ (DFS_update h s cur added removed = Ok s' →
     NoDup s'
     ∧ DFS_selectState s'
       = match last (filter (λ p, p ∉ removed) (s ++ added)) with
         | Some p => Ok p
         | None => Fail OutOfBounds
         end).
Proof.
  intros Hnd. unfold DFS_update. split; [by apply DFS_remove_all|].
  intros Hf. apply DFS_remove_all in Hf as (_ & _ & ->); [|done].
  split; [by apply NoDup_filter | done].
Qed.

Lemma DFS_update_keeps_order_witness :
  DFS_update ∅ [1; 2; 3]%nat None [4; 5]%nat [5; 2]%nat = Ok [1; 3; 4]%nat
  ∧ DFS_selectState [1; 3; 4]%nat = Ok 4%nat.
Proof.
  assert (Hnd : NoDup ([1; 2; 3] ++ [4; 5])%nat).
  { apply (bool_decide_unpack _). by vm_compute. }
  destruct (DFS_update_keeps_order ∅ [1; 2; 3]%nat None [4; 5]%nat
              [5; 2]%nat [1; 3; 4]%nat Hnd) as [Hiff Hsel].
  assert (Hup : DFS_update ∅ [1; 2; 3]%nat None [4; 5]%nat [5; 2]%nat
                = Ok [1; 3; 4]%nat) by (vm_compute; reflexivity).
  split; [exact Hup|]. by destruct (Hsel Hup) as [_ ->].
Defined.

(** ** The breadth-first searcher *)

Lemma maxKey_bound (m : gmap N (list nat)) k :
  is_Some (m !! k) → k ≤ maxKey m.
Proof.
  unfold maxKey. revert k.
  apply (map_fold_weak_ind (λ r m, ∀ k, is_Some (m !! k) → k ≤ r)).
  - intros k [x Hx]. by rewrite lookup_empty in Hx.
  - intros i x m' r Hi IH k Hk.
    destruct (decide (i = k)) as [-> |Hne]; [lia|].
    rewrite lookup_insert_ne in Hk by done. specialize (IH k Hk). lia.
Qed.

(** The search for the next populated bucket succeeds when there is one
    ahead and the fuel covers the distance. *)
Lemma BFS_tryDepth_finds (m : gmap N (list nat)) fuel start k :
  is_Some (m !! k) → start ≤ k →
  (∀ j, start ≤ j → j < k → m !! j = None) →
  (N.to_nat (k - start) < fuel)%nat →
  BFS_tryDepth m start fuel = Ok k.
Proof.
  revert start. induction fuel as [|fuel IH]; intros start Hk Hle Hgap Hfuel;
    [lia|].
  simpl. destruct (decide (start = k)) as [-> |Hne].
  - destruct Hk as [x ->]. done.
  - rewrite Hgap by lia. apply IH; [done|lia| |lia].
    intros j Hj1 Hj2. apply Hgap; lia.
Qed.

Lemma BFS_tryDepth_none (m : gmap N (list nat)) fuel start :
  (∀ j, start ≤ j → m !! j = None) →
  BFS_tryDepth m start fuel = Fail NoTermination.
Proof.
  revert start. induction fuel as [|fuel IH]; intros start Hnone; [done|].
  simpl. rewrite Hnone by lia. apply IH. intros j Hj. apply Hnone. lia.
Qed.

Lemma least_key_from (m : gmap N (list nat)) n start k1 :
  N.to_nat (k1 - start) = n → is_Some (m !! k1) → start ≤ k1 →
  ∃ k, is_Some (m !! k) ∧ start ≤ k ∧ k ≤ k1
       ∧ ∀ j, start ≤ j → j < k → m !! j = None.
Proof.
  revert start. induction n as [|n IH]; intros start Hn Hk Hle.
  - assert (start = k1) as -> by lia. exists k1.
    split; [done|]. split; [lia|]. split; [lia|]. intros j ? ?. lia.
  - destruct (m !! start) as [x|] eqn:Hs.
    + exists start. split; [by rewrite Hs|]. split; [lia|]. split; [lia|].
      intros j ? ?. lia.
    + destruct (IH (start + 1)) as (k & Hk1 & Hk2 & Hk3 & Hk4);
        [lia|done|lia|].
      exists k. split; [done|]. split; [lia|]. split; [done|].
      intros j Hj1 Hj2. destruct (decide (j = start)) as [-> |?]; [done|].
      apply Hk4; lia.
Qed.

(** What the searcher keeps true between calls, for the states of [h]. *)
Record bfs_inv (h : gmap ptr ExecutionState) (s : BFSSearcher) : Prop := {
  inv_states : ∀ p, p ∈ bfs_states s ↔ is_Some (depthMap s !! p);
  inv_nodup : NoDup (bfs_states s);
  inv_bucket : ∀ d l, depthStatesMap s !! d = Some l →
      l ≠ [] ∧ NoDup l ∧ ∀ p, p ∈ l → depthMap s !! p = Some d;
  inv_member : ∀ p d, depthMap s !! p = Some d →
      ∃ l, depthStatesMap s !! d = Some l ∧ p ∈ l;
  inv_min : depthMap s ≠ ∅ →
      is_Some (depthStatesMap s !! currentMinDepth s)
      ∧ ∀ d, is_Some (depthStatesMap s !! d) → currentMinDepth s ≤ d;
  inv_depth : ∀ p d, depthMap s !! p = Some d →
      ∃ st, h !! p = Some st ∧ actDepth st = d
}.

Lemma bfs_inv_init h : bfs_inv h BFS_init.
Proof.
  split; simpl; try done.
  - intros p. rewrite lookup_empty, elem_of_nil. split; [done|].
    by intros [? ?].
  - constructor.
Qed.

Lemma bfs_empty_buckets h s :
  bfs_inv h s → depthMap s = ∅ → depthStatesMap s = ∅.
Proof.
  intros I He. apply map_eq. intros d. rewrite lookup_empty.
  destruct (depthStatesMap s !! d) as [l|] eqn:Hl; [|done]. exfalso.
  destruct (inv_bucket _ _ I d l Hl) as (Hne & _ & Hall).
  destruct l as [|p l]; [done|].
  specialize (Hall p (list_elem_of_here _ _)). by rewrite He in Hall.
Qed.

Lemma BFS_insert_inv h s p s' :
  bfs_inv h s → depthMap s !! p = None →
  BFS_insertIntoDepthStateMap h s p = Ok s' →
  bfs_inv h s'
  ∧ ∃ st, h !! p = Some st
      ∧ depthMap s' = <[p := actDepth st]> (depthMap s)
      ∧ bfs_states s' = bfs_states s ++ [p].
Proof.
  intros I Hp Hf. unfold BFS_insertIntoDepthStateMap in Hf.
  bind_inv Hf as st Hst. apply deref_Some in Hst.
  assert (Hnotin : p ∉ bfs_states s).
  { intros Hin. apply (inv_states _ _ I) in Hin as [? Hin]. congruence. }
  rewrite decide_False in Hf by done.
  set (d := actDepth st) in *.
  destruct (depthStatesMap s !! d) as [l|] eqn:Hl.
  - (* the bucket is there *)
    injection Hf as <-.
    destruct (inv_bucket _ _ I d l Hl) as (Hne & Hnd & Hmem).
    assert (Hnonempty : depthMap s ≠ ∅).
    { intros He. destruct l as [|q l]; [done|].
      specialize (Hmem q (list_elem_of_here _ _)). by rewrite He in Hmem. }
    assert (Hsize : bool_decide (size (depthMap s) = 0%nat) = false).
    { apply bool_decide_eq_false. by rewrite map_size_empty_iff. }
    rewrite Hsize.
    split; [|by exists st].
    split; simpl.
    + intros q. rewrite elem_of_app, elem_of_cons, elem_of_nil.
      rewrite (inv_states _ _ I). destruct (decide (p = q)) as [-> |Hq].
      * rewrite lookup_insert_eq. split; [by eauto | auto].
      * rewrite lookup_insert_ne by done.
        split; [intros [?|[?|?]]; [done|congruence|done] | auto].
    + apply NoDup_app. split; [apply (inv_nodup _ _ I)|].
      split; [|apply NoDup_singleton].
      intros q Hq Hq'. apply elem_of_cons in Hq' as [-> |Hq']; [done|].
      by apply elem_of_nil in Hq'.
    + intros d' l' Hl'. destruct (decide (d = d')) as [<- |Hd].
      * rewrite lookup_insert_eq in Hl'. injection Hl' as <-.
        split; [by destruct l|]. split.
        -- apply NoDup_app. split; [done|]. split; [|apply NoDup_singleton].
           intros q Hq Hq'. apply elem_of_cons in Hq' as [-> |Hq'].
           ++ apply Hmem in Hq. congruence.
           ++ by apply elem_of_nil in Hq'.
        -- intros q Hq. apply elem_of_app in Hq as [Hq|Hq].
           ++ pose proof (Hmem q Hq) as Hq1.
              rewrite lookup_insert_ne; [done|]. intros ->. congruence.
           ++ apply elem_of_cons in Hq as [-> |Hq];
                [by rewrite lookup_insert_eq | by apply elem_of_nil in Hq].
      * rewrite lookup_insert_ne in Hl' by done.
        destruct (inv_bucket _ _ I d' l' Hl') as (? & ? & Hmem').
        split; [done|]. split; [done|]. intros q Hq.
        pose proof (Hmem' q Hq) as Hq1.
        rewrite lookup_insert_ne; [done|]. intros ->. congruence.
    + intros q d' Hq. destruct (decide (p = q)) as [<- |Hpq].
      * rewrite lookup_insert_eq in Hq. injection Hq as <-.
        exists (l ++ [p]). rewrite lookup_insert_eq. split; [done|].
        rewrite elem_of_app, elem_of_cons. auto.
      * rewrite lookup_insert_ne in Hq by done.
        destruct (inv_member _ _ I q d' Hq) as (l' & Hl' & Hin).
        destruct (decide (d = d')) as [<- |Hd].
        -- exists (l ++ [p]). rewrite lookup_insert_eq. split; [done|].
           rewrite elem_of_app. left. congruence.
        -- exists l'. by rewrite lookup_insert_ne.
    + intros _. destruct (inv_min _ _ I Hnonempty) as [Hpres Hleast].
      split.
      * destruct (decide (d = currentMinDepth s)) as [<- |Hd];
          [by rewrite lookup_insert_eq | by rewrite lookup_insert_ne].
      * intros d' Hd'. apply Hleast.
        destruct (decide (d = d')) as [<- |Hd];
          [by rewrite Hl | by rewrite lookup_insert_ne in Hd'].
    + intros q d' Hq. destruct (decide (p = q)) as [<- |Hpq].
      * rewrite lookup_insert_eq in Hq. injection Hq as <-. by exists st.
      * rewrite lookup_insert_ne in Hq by done.
        by apply (inv_depth _ _ I).
  - (* a new bucket *)
    injection Hf as <-.
    split; [|by exists st].
    split; simpl.
    + intros q. rewrite elem_of_app, elem_of_cons, elem_of_nil.
      rewrite (inv_states _ _ I). destruct (decide (p = q)) as [-> |Hq].
      * rewrite lookup_insert_eq. split; [by eauto | auto].
      * rewrite lookup_insert_ne by done.
        split; [intros [?|[?|?]]; [done|congruence|done] | auto].
    + apply NoDup_app. split; [apply (inv_nodup _ _ I)|].
      split; [|apply NoDup_singleton].
      intros q Hq Hq'. apply elem_of_cons in Hq' as [-> |Hq']; [done|].
      by apply elem_of_nil in Hq'.
    + intros d' l' Hl'. destruct (decide (d = d')) as [<- |Hd].
      * rewrite lookup_insert_eq in Hl'. injection Hl' as <-.
        split; [done|]. split; [apply NoDup_singleton|].
        intros q Hq. apply elem_of_cons in Hq as [-> |Hq];
          [by rewrite lookup_insert_eq | by apply elem_of_nil in Hq].
      * rewrite lookup_insert_ne in Hl' by done.
        destruct (inv_bucket _ _ I d' l' Hl') as (? & ? & Hmem').
        split; [done|]. split; [done|]. intros q Hq.
        pose proof (Hmem' q Hq) as Hq1.
        rewrite lookup_insert_ne; [done|]. intros ->. congruence.
    + intros q d' Hq. destruct (decide (p = q)) as [<- |Hpq].
      * rewrite lookup_insert_eq in Hq. injection Hq as <-.
        exists [p]. rewrite lookup_insert_eq. split; [done|].
        apply list_elem_of_here.
      * rewrite lookup_insert_ne in Hq by done.
        destruct (inv_member _ _ I q d' Hq) as (l' & Hl' & Hin).
        exists l'. rewrite lookup_insert_ne; [done|]. intros ->. congruence.
    + intros _. case_bool_decide as Hsz.
      * (* first state *)
        apply map_size_empty_iff in Hsz.
        rewrite (bfs_empty_buckets h s I Hsz).
        rewrite N.ltb_irrefl. split; [by rewrite lookup_insert_eq|].
        intros d' Hd'. destruct (decide (d = d')) as [<- |Hd]; [lia|].
        rewrite lookup_insert_ne, lookup_empty in Hd' by done.
        by destruct Hd'.
      * assert (Hnonempty : depthMap s ≠ ∅) by (by rewrite <-map_size_empty_iff).
        destruct (inv_min _ _ I Hnonempty) as [Hpres Hleast].
        destruct (N.ltb_spec d (currentMinDepth s)) as [Hlt|Hge].
        -- split; [by rewrite lookup_insert_eq|].
           intros d' Hd'. destruct (decide (d = d')) as [<- |Hd]; [lia|].
           rewrite lookup_insert_ne in Hd' by done.
           specialize (Hleast d' Hd'). lia.
        -- split.
           ++ rewrite lookup_insert_ne; [done|]. intros ->.
              rewrite Hl in Hpres. by destruct Hpres.
           ++ intros d' Hd'. destruct (decide (d = d')) as [<- |Hd]; [lia|].
              rewrite lookup_insert_ne in Hd' by done. by apply Hleast.
    + intros q d' Hq. destruct (decide (p = q)) as [<- |Hpq].
      * rewrite lookup_insert_eq in Hq. injection Hq as <-. by exists st.
      * rewrite lookup_insert_ne in Hq by done.
        by apply (inv_depth _ _ I).
Qed.

Lemma BFS_tryDepth_Ok (m : gmap N (list nat)) fuel start k :
  BFS_tryDepth m start fuel = Ok k →
  is_Some (m !! k) ∧ start ≤ k ∧ ∀ j, start ≤ j → j < k → m !! j = None.
Proof.
  revert start. induction fuel as [|fuel IH]; intros start Hf; [done|].
  simpl in Hf. destruct (m !! start) as [x|] eqn:Hs.
  - injection Hf as <-. split; [by rewrite Hs|]. split; [lia|].
    intros j ? ?. lia.
  - destruct (IH _ Hf) as (Hk & Hle & Hgap). split; [done|]. split; [lia|].
    intros j Hj1 Hj2. destruct (decide (j = start)) as [-> |?]; [done|].
    apply Hgap; lia.
Qed.

Lemma BFS_remove_inv h s p s' :
  bfs_inv h s → BFS_removeFromDepthStateMap h s p = Ok s' →
  bfs_inv h s'
  ∧ is_Some (depthMap s !! p)
  ∧ depthMap s' = delete p (depthMap s)
  ∧ bfs_states s' = filter (λ q, q ≠ p) (bfs_states s).
Proof.
  intros I Hf. unfold BFS_removeFromDepthStateMap in Hf.
  destruct (erase_first p (bfs_states s)) as [states1|] eqn:He; [|done].
  assert (Hin : p ∈ bfs_states s).
  { destruct (decide (p ∈ bfs_states s)) as [?|Hn]; [done|].
    apply erase_first_None in Hn. congruence. }
  rewrite erase_first_NoDup in He by (apply (inv_nodup _ _ I) || done).
  injection He as <-.
  pose proof Hin as Hheld. apply (inv_states _ _ I) in Hheld as [d Hd].
  rewrite Hd in Hf. change (default 0 (Some d)) with d in Hf.
  bind_inv Hf as st Hst.
  destruct (inv_member _ _ I p d Hd) as (l & Hl & Hpl). rewrite Hl in Hf.
  destruct (inv_bucket _ _ I d l Hl) as (Hne & Hnd & Hmem).
  rewrite erase_first_NoDup in Hf by done.
  assert (Hstates : ∀ q, q ∈ filter (λ q, q ≠ p) (bfs_states s)
                         ↔ is_Some (delete p (depthMap s) !! q)).
  { intros q. rewrite list_elem_of_filter, (inv_states _ _ I).
    destruct (decide (p = q)) as [-> |Hq].
    - rewrite lookup_delete_eq. split; [by intros [? _] | by intros [? ?]].
    - rewrite lookup_delete_ne by done. split; [tauto|]. split; [congruence|done]. }
  assert (Hdepth : ∀ q d', delete p (depthMap s) !! q = Some d' →
                     ∃ st, h !! q = Some st ∧ actDepth st = d').
  { intros q d' Hq. destruct (decide (p = q)) as [-> |Hpq].
    - by rewrite lookup_delete_eq in Hq.
    - rewrite lookup_delete_ne in Hq by done. by apply (inv_depth _ _ I). }
  assert (Hother : ∀ q d', delete p (depthMap s) !! q = Some d' →
                     q ≠ p ∧ depthMap s !! q = Some d').
  { intros q d' Hq. destruct (decide (p = q)) as [-> |Hpq].
    - by rewrite lookup_delete_eq in Hq.
    - rewrite lookup_delete_ne in Hq by done. done. }
  destruct (filter (λ q, q ≠ p) l) as [|q0 l1] eqn:Hfil.
  - (* the bucket becomes empty *)
    bind_inv Hf as min1 Hmin. injection Hf as <-.
    split; [|by eauto].
    assert (Hbuck : ∀ d' l', delete d (depthStatesMap s) !! d' = Some l' →
              d' ≠ d ∧ depthStatesMap s !! d' = Some l').
    { intros d' l' Hl'. destruct (decide (d = d')) as [-> |Hdd].
      - by rewrite lookup_delete_eq in Hl'.
      - by rewrite lookup_delete_ne in Hl'. }
    split; simpl;
      [done | apply NoDup_filter, (inv_nodup _ _ I) | | | | done].
    + intros d' l' Hl'. apply Hbuck in Hl' as [Hdd Hl'].
      destruct (inv_bucket _ _ I d' l' Hl') as (? & ? & Hmem').
      split; [done|]. split; [done|]. intros q Hq.
      pose proof (Hmem' q Hq) as Hq1.
      rewrite lookup_delete_ne; [done|]. intros ->. congruence.
    + intros q d' Hq. apply Hother in Hq as [Hqp Hq].
      destruct (inv_member _ _ I q d' Hq) as (l' & Hl' & Hql).
      exists l'. split; [|done]. rewrite lookup_delete_ne; [done|].
      intros ->. assert (l' = l) as -> by congruence.
      assert (q ∈ filter (λ q, q ≠ p) l) as Hq' by (by apply list_elem_of_filter).
      rewrite Hfil in Hq'. by apply elem_of_nil in Hq'.
    + intros Hnonempty.
      assert (Hold : depthMap s ≠ ∅) by (intros E; by rewrite E in Hd).
      destruct (inv_min _ _ I Hold) as [Hpres Hleast].
      destruct (N.eqb_spec d (currentMinDepth s)) as [Hdm|Hdm].
      * apply BFS_tryDepth_Ok in Hmin as (Hk & Hle & Hgap).
        split; [done|]. intros d' [l' Hl']. pose proof Hl' as Hl2.
        apply Hbuck in Hl2 as [Hdd Hl2].
        assert (currentMinDepth s ≤ d') by (apply Hleast; by rewrite Hl2).
        destruct (N.lt_ge_cases d' min1) as [Hlt|?]; [|done].
        rewrite Hgap in Hl'; [done|lia|done].
      * injection Hmin as <-. split.
        -- rewrite lookup_delete_ne by done. done.
        -- intros d' [l' Hl']. apply Hbuck in Hl' as [_ Hl'].
           apply Hleast. by rewrite Hl'.
  - (* other states stay in the bucket *)
    injection Hf as <-. split; [|by eauto].
    assert (Hq0 : ∀ q, q ∈ q0 :: l1 ↔ q ∈ l ∧ q ≠ p).
    { intros q. rewrite <-Hfil, list_elem_of_filter. tauto. }
    split; simpl;
      [done | apply NoDup_filter, (inv_nodup _ _ I) | | | | done].
    + intros d' l' Hl'. destruct (decide (d = d')) as [<- |Hdd].
      * rewrite lookup_insert_eq in Hl'. injection Hl' as <-.
        split; [done|]. split; [rewrite <-Hfil; by apply NoDup_filter|].
        intros q Hq. apply Hq0 in Hq as [Hq Hqp].
        rewrite lookup_delete_ne by done. by apply Hmem.
      * rewrite lookup_insert_ne in Hl' by done.
        destruct (inv_bucket _ _ I d' l' Hl') as (? & ? & Hmem').
        split; [done|]. split; [done|]. intros q Hq.
        pose proof (Hmem' q Hq) as Hq1.
        rewrite lookup_delete_ne; [done|]. intros ->. congruence.
    + intros q d' Hq. apply Hother in Hq as [Hqp Hq].
      destruct (inv_member _ _ I q d' Hq) as (l' & Hl' & Hql).
      destruct (decide (d = d')) as [<- |Hdd].
      * exists (q0 :: l1). rewrite lookup_insert_eq. split; [done|].
        apply Hq0. split; [congruence | done].
      * exists l'. by rewrite lookup_insert_ne.
    + intros _.
      assert (Hold : depthMap s ≠ ∅) by (intros E; by rewrite E in Hd).
      destruct (inv_min _ _ I Hold) as [Hpres Hleast]. split.
      * destruct (decide (d = currentMinDepth s)) as [<- |Hdm];
          [by rewrite lookup_insert_eq | by rewrite lookup_insert_ne].
      * intros d' Hd'. apply Hleast.
        destruct (decide (d = d')) as [<- |Hdd];
          [by rewrite Hl | by rewrite lookup_insert_ne in Hd'].
Qed.

Lemma BFS_remove_total h s p :
  bfs_inv h s → p ∈ bfs_states s →
  (∃ q, q ≠ p ∧ q ∈ bfs_states s) →
  is_Ok (BFS_removeFromDepthStateMap h s p).
Proof.
  intros I Hin (q & Hqp & Hq). unfold BFS_removeFromDepthStateMap.
  rewrite erase_first_NoDup by (apply (inv_nodup _ _ I) || done).
  apply (inv_states _ _ I) in Hin as [d Hd].
  apply (inv_states _ _ I) in Hq as [dq Hdq].
  rewrite Hd. change (default 0 (Some d)) with d.
  destruct (inv_depth _ _ I p d Hd) as (st & Hst & _).
  rewrite (deref_lookup _ _ _ Hst). cbn [mbind Res_bind].
  destruct (inv_member _ _ I p d Hd) as (l & Hl & Hpl). rewrite Hl.
  destruct (inv_bucket _ _ I d l Hl) as (Hne & Hnd & Hmem).
  rewrite erase_first_NoDup by done.
  destruct (filter (λ q, q ≠ p) l) as [|q0 l1] eqn:Hfil; [|done].
  destruct (N.eqb_spec d (currentMinDepth s)) as [Hdm|Hdm]; [|done].
  destruct (inv_member _ _ I q dq Hdq) as (lq & Hlq & Hqlq).
  assert (Hne' : dq ≠ d).
  { intros ->. assert (lq = l) as -> by congruence.
    assert (q ∈ filter (λ q, q ≠ p) l) as Hq' by (by apply list_elem_of_filter).
    rewrite Hfil in Hq'. by apply elem_of_nil in Hq'. }
  assert (Hold : depthMap s ≠ ∅) by (intros E; by rewrite E in Hd).
  destruct (inv_min _ _ I Hold) as [_ Hleast].
  assert (currentMinDepth s ≤ dq) by (apply Hleast; by rewrite Hlq).
  set (m1 := delete d (depthStatesMap s)).
  assert (Hm1 : is_Some (m1 !! dq)).
  { unfold m1. rewrite lookup_delete_ne by done. by rewrite Hlq. }
  destruct (least_key_from m1 _ (currentMinDepth s + 1) dq eq_refl Hm1)
    as (k & Hk & Hk1 & Hk2 & Hgap); [lia|].
  rewrite (BFS_tryDepth_finds m1 _ _ k Hk Hk1 Hgap); [done|].
  pose proof (maxKey_bound m1 k Hk). lia.
Qed.

Lemma BFS_select_minimal h s p :
  bfs_inv h s → BFS_selectState s = Ok p →
  ∃ st, h !! p = Some st ∧ p ∈ bfs_states s
    ∧ ∀ q stq, q ∈ bfs_states s → h !! q = Some stq →
               actDepth st ≤ actDepth stq.
Proof.
  intros I Hs. apply BFS_selectState_bucket in Hs as [l Hl].
  destruct (inv_bucket _ _ I _ _ Hl) as (_ & _ & Hmem).
  pose proof (Hmem p (list_elem_of_here _ _)) as Hp.
  destruct (inv_depth _ _ I p _ Hp) as (st & Hst & Hd).
  exists st. split; [done|]. split; [apply (inv_states _ _ I); by eauto|].
  intros q stq Hq Hstq. apply (inv_states _ _ I) in Hq as [dq Hdq].
  destruct (inv_depth _ _ I q dq Hdq) as (st' & Hst' & Hd').
  assert (st' = stq) as -> by congruence.
  destruct (inv_member _ _ I q dq Hdq) as (lq & Hlq & _).
  assert (Hold : depthMap s ≠ ∅) by (intros E; by rewrite E in Hp).
  destruct (inv_min _ _ I Hold) as [_ Hleast].
  rewrite Hd, Hd'. apply Hleast. by rewrite Hlq.
Qed.

Lemma BFS_select_total h s :
  bfs_inv h s → bfs_states s ≠ [] → is_Ok (BFS_selectState s).
Proof.
  intros I Hne. destruct (bfs_states s) as [|q l] eqn:Hs; [done|].
  assert (q ∈ bfs_states s) as Hq by (rewrite Hs; apply list_elem_of_here).
  apply (inv_states _ _ I) in Hq as [dq Hdq].
  assert (Hold : depthMap s ≠ ∅) by (intros E; by rewrite E in Hdq).
  destruct (inv_min _ _ I Hold) as [[lm Hlm] _].
  destruct (inv_bucket _ _ I _ _ Hlm) as (Hnil & _ & _).
  unfold BFS_selectState. rewrite Hlm. by destruct lm.
Qed.

Lemma BFS_remove_fold h removed s s' :
  bfs_inv h s →
  foldl (λ acc es, s' ← acc; BFS_removeFromDepthStateMap h s' es) (Ok s)
        removed = Ok s' →
  bfs_inv h s'
  ∧ Forall (λ p, p ∈ bfs_states s) removed
  ∧ bfs_states s' = filter (λ p, p ∉ removed) (bfs_states s).
Proof.
  revert s. induction removed as [|p removed IH]; intros s I Hf.
  - simpl in Hf. injection Hf as <-. split; [done|]. split; [constructor|].
    by rewrite filter_notin_nil.
  - apply foldl_bind_cons in Hf as (s1 & H1 & Hf).
    apply BFS_remove_inv in H1 as (I1 & Hheld & _ & Hst1); [|done].
    destruct (IH _ I1 Hf) as (I' & Hall & Hst').
    split; [done|]. split.
    + constructor; [by apply (inv_states _ _ I)|].
      eapply Forall_impl; [exact Hall|]. intros q Hq. rewrite Hst1 in Hq.
      by apply list_elem_of_filter in Hq as [_ ?].
    + rewrite Hst', Hst1, list_filter_filter. apply list_filter_iff.
      intros q. rewrite not_elem_of_cons. tauto.
Qed.

Lemma BFS_insert_fold h added s s' :
  bfs_inv h s → NoDup added → Forall (λ p, p ∉ bfs_states s) added →
  foldl (λ acc es, s' ← acc; BFS_insertIntoDepthStateMap h s' es) (Ok s)
        added = Ok s' →
  bfs_inv h s' ∧ bfs_states s' = bfs_states s ++ added.
Proof.
  revert s. induction added as [|p added IH]; intros s I Hnd Hfresh Hf.
  - simpl in Hf. injection Hf as <-. by rewrite app_nil_r.
  - apply foldl_bind_cons in Hf as (s1 & H1 & Hf).
    apply NoDup_cons in Hnd as [Hp Hnd].
    apply Forall_cons in Hfresh as [Hpf Hfresh].
    assert (Hnone : depthMap s !! p = None).
    { destruct (depthMap s !! p) as [d|] eqn:E; [|done]. exfalso.
      apply Hpf, (inv_states _ _ I). by eauto. }
    apply BFS_insert_inv in H1 as (I1 & st & _ & _ & Hst1); [|done..].
    destruct (IH _ I1 Hnd) as (I' & Hst'); [|done|].
    + apply Forall_forall. intros q Hqa. rewrite Forall_forall in Hfresh.
      rewrite Hst1, elem_of_app, elem_of_cons, elem_of_nil.
      intros [?|[-> |?]]; [by apply (Hfresh q) | done | done].
    + split; [done|]. rewrite Hst', Hst1, <-app_assoc. done.
Qed.

Lemma BFS_current_unchanged h s current :
  bfs_inv h s →
  match current with
  | None => Ok s
  | Some c =>
      match depthMap s !! c with
      | None => Ok s
      | Some d =>
          st ← deref h c;
          if negb (d =? actDepth st) then
            s' ← BFS_updateDepthStateMap h s c d;
            Ok {| bfs_states := bfs_states s';
                  depthMap := <[c := actDepth st]> (depthMap s');
                  depthStatesMap := depthStatesMap s';
                  currentMinDepth := currentMinDepth s' |}
          else Ok s
      end
  end = Ok s.
Proof.
  intros I. destruct current as [c|]; [|done].
  destruct (depthMap s !! c) as [d|] eqn:Hd; [|done].
  destruct (inv_depth _ _ I c d Hd) as (st & Hst & <-).
  rewrite (deref_lookup _ _ _ Hst). cbn [mbind Res_bind].
  by rewrite N.eqb_refl.
Qed.

Lemma BFS_update_inv h s current added removed s' :
  bfs_inv h s → NoDup added → Forall (λ p, p ∉ bfs_states s) added →
  BFS_update h s current added removed = Ok s' →
  bfs_inv h s'
  ∧ Forall (λ p, p ∈ bfs_states s) removed
  ∧ bfs_states s' = filter (λ p, p ∉ removed) (bfs_states s) ++ added.
Proof.
  intros I Hnd Hfresh Hf. unfold BFS_update in Hf.
  rewrite BFS_current_unchanged in Hf by done. cbn [mbind Res_bind] in Hf.
  bind_inv Hf as s2 H2.
  apply BFS_remove_fold in H2 as (I2 & Hrem & Hst2); [|done].
  apply BFS_insert_fold in Hf as (I' & Hst'); [|done|done|].
  2:{ eapply Forall_impl; [exact Hfresh|]. intros q Hq. rewrite Hst2.
      intros Hin. by apply list_elem_of_filter in Hin as [_ ?]. }
  split; [done|]. split; [done|]. by rewrite Hst', Hst2.
Qed.

(** X7.  The breadth-first searcher keeps its minimum under additions and
    removals.  Let the searcher be consistent ([bfs_inv]: its buckets, its
    depth map and its list of states agree, the recorded depths are the
    depths of the states, and [currentMinDepth] is the least populated
    depth).  An [update] that adds states not yet held and removes held
    states leaves it consistent, whatever [current] is; the states are the
    old ones without the removed ones, followed by the added ones; and
    [selectState] then returns a held state of least depth. *)
Theorem BFS_update_keeps_minimum h s current added removed s' :
  bfs_inv h s → NoDup added → Forall (λ p, p ∉ bfs_states s) added →
  BFS_update h s current added removed = Ok s' →
  bfs_inv h s'
  ∧ Forall (λ p, p ∈ bfs_states s) removed
  ∧ bfs_states s' = filter (λ p, p ∉ removed) (bfs_states s) ++ added
  ∧ (bfs_states s' ≠ [] →
     ∃ p st, BFS_selectState s' = Ok p ∧ h !! p = Some st
       ∧ p ∈ bfs_states s'
       ∧ ∀ q stq, q ∈ bfs_states s' → h !! q = Some stq →
                  actDepth st ≤ actDepth stq).
Proof.
  intros I Hnd Hfresh Hf.
  destruct (BFS_update_inv _ _ _ _ _ _ I Hnd Hfresh Hf) as (I' & Hrem & Hst').
  split; [done|]. split; [done|]. split; [done|].
  intros Hne. destruct (BFS_selectState s') as [p|e] eqn:Hsel.
  - destruct (BFS_select_minimal _ _ _ I' Hsel) as (st & Hst & Hp & Hmin).
    by exists p, st.
  - pose proof (BFS_select_total _ _ I' Hne) as Hok. by rewrite Hsel in Hok.
Qed.

Lemma BFS_update_keeps_minimum_witness :
  ∃ s', BFS_update Examples.bfsHeap BFS_init None [2; 1]%nat [] = Ok s'
    ∧ bfs_states s' = [2; 1]%nat
    ∧ BFS_selectState s' = Ok 1%nat.
Proof.
  assert (Hf : ∃ s', BFS_update Examples.bfsHeap BFS_init None [2; 1]%nat []
                     = Ok s' ∧ BFS_selectState s' = Ok 1%nat).
  { vm_compute. eexists. split; reflexivity. }
  destruct Hf as (s' & Hf & Hsel). exists s'. split; [exact Hf|].
  destruct (BFS_update_keeps_minimum Examples.bfsHeap BFS_init None
              [2; 1]%nat [] s' (bfs_inv_init _)) as (_ & _ & Hst & _).
  - apply (bool_decide_unpack _). by vm_compute.
  - repeat constructor; apply not_elem_of_nil.
  - exact Hf.
  - split; [exact Hst | exact Hsel].
Defined.

(** X8.  Removing a state from the breadth-first searcher.  On a
    consistent searcher the removal of a held state returns when another
    state is held.  When the state is the only one, the search for the
    next populated depth has nothing to find: the loop never ends,
    whatever the number of rounds it is given. *)
Theorem BFS_remove_termination h s p :
  bfs_inv h s → p ∈ bfs_states s →
  ((∃ q, q ≠ p ∧ q ∈ bfs_states s) →
     ∃ s', BFS_removeFromDepthStateMap h s p = Ok s'
       ∧ bfs_inv h s'
       ∧ bfs_states s' = filter (λ q, q ≠ p) (bfs_states s))
  ∧ ((∀ q, q ∈ bfs_states s → q = p) →
     (∀ fuel, BFS_tryDepth (delete (currentMinDepth s) (depthStatesMap s))
                (currentMinDepth s + 1) fuel = Fail NoTermination)
     ∧ BFS_removeFromDepthStateMap h s p = Fail NoTermination).
Proof.
  intros I Hin. split.
  - intros Hother. pose proof (BFS_remove_total _ _ _ I Hin Hother) as Hok.
    destruct (BFS_removeFromDepthStateMap h s p) as [s'|e] eqn:Hf; [|done].
    destruct (BFS_remove_inv _ _ _ _ I Hf) as (I' & _ & _ & Hst).
    by exists s'.
  - intros Honly.
    pose proof Hin as Hheld. apply (inv_states _ _ I) in Hheld as [d Hd].
    assert (Hold : depthMap s ≠ ∅) by (intros E; by rewrite E in Hd).
    destruct (inv_min _ _ I Hold) as [[lm Hlm] _].
    assert (Hbuckets : ∀ d' l', depthStatesMap s !! d' = Some l' →
                         d' = d ∧ filter (λ q, q ≠ p) l' = []).
    { intros d' l' Hl'.
      destruct (inv_bucket _ _ I d' l' Hl') as (Hne & _ & Hmem).
      assert (Hall : ∀ q, q ∈ l' → q = p).
      { intros q Hq. apply Honly, (inv_states _ _ I). by eauto. }
      split.
      - destruct l' as [|q l']; [done|].
        pose proof (Hmem q (list_elem_of_here _ _)) as Hq.
        rewrite (Hall q (list_elem_of_here _ _)) in Hq. congruence.
      - destruct (filter (λ q, q ≠ p) l') as [|q l2] eqn:Hfil; [done|].
        assert (q ∈ filter (λ q, q ≠ p) l') as Hq
          by (rewrite Hfil; apply list_elem_of_here).
        apply list_elem_of_filter in Hq as [Hqp Hq]. by apply Hall in Hq. }
    destruct (Hbuckets _ _ Hlm) as [Hmin Hfil].
    assert (Hnone : ∀ j, delete (currentMinDepth s) (depthStatesMap s) !! j
                         = None).
    { intros j. destruct (decide (currentMinDepth s = j)) as [<- |Hj].
      - by rewrite lookup_delete_eq.
      - rewrite lookup_delete_ne by done.
        destruct (depthStatesMap s !! j) as [l'|] eqn:Hl'; [|done].
        destruct (Hbuckets _ _ Hl') as [-> _]. done. }
    split; [intros fuel; by apply BFS_tryDepth_none|].
    unfold BFS_removeFromDepthStateMap.
    rewrite erase_first_NoDup by (apply (inv_nodup _ _ I) || done).
    rewrite Hd. change (default 0 (Some d)) with d.
    destruct (inv_depth _ _ I p d Hd) as (st & Hst & _).
    rewrite (deref_lookup _ _ _ Hst). cbn [mbind Res_bind].
    rewrite <-Hmin, Hlm.
    assert (p ∈ lm) as Hplm.
    { destruct (inv_member _ _ I p d Hd) as (l & Hl & Hpl). congruence. }
    destruct (inv_bucket _ _ I _ _ Hlm) as (_ & Hndm & _).
    rewrite erase_first_NoDup by done. rewrite Hfil, N.eqb_refl.
    rewrite BFS_tryDepth_none by (intros j _; apply Hnone). done.
Qed.

Lemma BFS_remove_termination_witness :
  ∃ s, BFS_update Examples.bfsHeap BFS_init None [1]%nat [] = Ok s
    ∧ BFS_removeFromDepthStateMap Examples.bfsHeap s 1%nat
      = Fail NoTermination.
Proof.
  assert (Hf : ∃ s, BFS_update Examples.bfsHeap BFS_init None [1]%nat []
                    = Ok s ∧ bfs_states s = [1%nat]).
  { vm_compute. eexists. split; reflexivity. }
  destruct Hf as (s & Hf & Hst). exists s. split; [exact Hf|].
  assert (I : bfs_inv Examples.bfsHeap s).
  { eapply BFS_update_inv; [apply bfs_inv_init| | |exact Hf].
    - apply NoDup_singleton.
    - repeat constructor. apply not_elem_of_nil. }
  destruct (BFS_remove_termination Examples.bfsHeap s 1%nat I) as [_ Hloop].
  - rewrite Hst. apply list_elem_of_here.
  - apply Hloop. intros q Hq. rewrite Hst in Hq.
    apply elem_of_cons in Hq as [-> |Hq]; [done | by apply elem_of_nil in Hq].
Defined.

(** ** Writes and reads of a state that has skipped a function *)

Lemma length_pred_succ {A} (l : list A) :
  l ≠ [] → (N.of_nat (length l - 1) + 1 = N.of_nat (length l))%N.
Proof. destruct l; [done|]. simpl. lia. Qed.

(** X9.  A store that may override, made by a state that has skipped a
    function, is remembered with its size in bytes and the index of the
    latest snapshot, and nothing else of the state changes.  Until the next
    snapshot a load of at most that many bytes from the address needs no
    recovery (and marks the blocking load as unrecovered), while a load
    wider than everything written there still needs it.  Once another
    snapshot is taken every load from the address needs recovery again, and
    the search for its recovery information starts after the snapshot of the
    write. *)
Theorem written_address_covers_load (width : N) (v : Z) (size : N)
    (snapshot : Snapshot) (s : ExecutionState) :
  isNormalState s = true → snapshots s ≠ [] →
  getZExtValue v ∉ recoveredLoads s →
  width = Expr_Bool ∨ width mod 8 = 0 →
  let address := getZExtValue v in
  let bytes := if width =? Expr_Bool then 1 else width / 8 in
  let before :=
    default 0 (maxSize <$> writtenAddresses s !! address) in
  let index := N.of_nat (length (snapshots s) - 1) in
  ∃ s1,
    onNormalStateWrite true true width (ConstantExpr v) s = Ok s1
    ∧ s1 = set_writtenAddresses
             (<[address := {| maxSize := N.max before bytes;
                              wa_snapshotIndex := index |}]>
                (writtenAddresses s)) s
    ∧ (size ≤ N.max before bytes →
       isRecoveryRequired address size s1
       = Ok (false, set_blockingLoadStatus false s1)
       ∧ getStartingIndex address size s1
         = Ok (N.of_nat (length (snapshots s))))
    ∧ (N.max before bytes < size →
       isRecoveryRequired address size s1 = Ok (true, s1)
       ∧ getStartingIndex address size s1 = Ok 0)
    ∧ ∃ s2, addSnapshot snapshot s1 = Ok s2
            ∧ isRecoveryRequired address size s2 = Ok (true, s2).
Proof.
  intros Hn Hsn Hrec Hw address bytes before index.
  assert (Hwrite : onNormalStateWrite true true width (ConstantExpr v) s
          = Ok (set_writtenAddresses
                  (<[address := {| maxSize := N.max before bytes;
                                   wa_snapshotIndex := index |}]>
                     (writtenAddresses s)) s)).
  { unfold onNormalStateWrite, isInDependentMode, getSnapshots,
      getCurrentSnapshotIndex, addWrittenAddress, assert.
    rewrite Hn. cbn [mbind Res_bind negb].
    rewrite (bool_decide_eq_false_2 _ Hsn). cbn [negb mbind Res_bind].
    fold address.
    assert ((if width =? Expr_Bool then Ok 1
             else _ ← (if width / 8 * 8 =? width then Ok ()
                       else Fail AssertionFailure); Ok (width / 8))
            = Ok bytes) as ->.
    { unfold bytes. destruct (N.eqb_spec width Expr_Bool) as [_|Hne]; [done|].
      destruct Hw as [Hw|Hw]; [done|].
      assert (width / 8 * 8 = width) as ->.
      { pose proof (N.div_mod width 8 ltac:(done)). lia. }
      by rewrite N.eqb_refl. }
    cbn [mbind Res_bind]. do 3 f_equal. unfold before.
    destruct (writtenAddresses s !! address) as [i|]; simpl;
      destruct (N.ltb_spec (maxSize i) bytes) as [?|?] ||
      destruct (N.ltb_spec 0 bytes) as [?|?]; f_equal; lia. }
  eexists. split; [exact Hwrite|]. split; [reflexivity|].
  set (s1 := set_writtenAddresses _ s).
  assert (Hinfo : ∀ sn,
    getWrittenAddressInfo address size (set_snapshots sn s1)
    = Ok (size <=? N.max before bytes,
          Some {| maxSize := N.max before bytes;
                  wa_snapshotIndex := index |})).
  { intros sn. unfold getWrittenAddressInfo, assert.
    change (isNormalState (set_snapshots sn s1)) with (isNormalState s).
    rewrite Hn. cbn [mbind Res_bind].
    change (writtenAddresses (set_snapshots sn s1))
      with (<[address := {| maxSize := N.max before bytes;
                            wa_snapshotIndex := index |}]>
              (writtenAddresses s)).
    by rewrite lookup_insert_eq. }
  assert (Hid : set_snapshots (snapshots s1) s1 = s1) by done.
  assert (Hrq : ∀ sn,
    isRecoveryRequired address size (set_snapshots sn s1)
    = r ← getWrittenAddressInfo address size (set_snapshots sn s1);
      match r with
      | (true, Some info) =>
          index ← getCurrentSnapshotIndex (set_snapshots sn s1);
          if index =? wa_snapshotIndex info then
            s' ← markLoadAsUnrecovered (set_snapshots sn s1);
            Ok (false, s')
          else Ok (true, set_snapshots sn s1)
      | _ => Ok (true, set_snapshots sn s1)
      end).
  { intros sn. unfold isRecoveryRequired, isAddressRecovered, assert.
    change (isNormalState (set_snapshots sn s1)) with (isNormalState s).
    rewrite Hn. cbn [mbind Res_bind].
    change (recoveredLoads (set_snapshots sn s1)) with (recoveredLoads s).
    by rewrite (bool_decide_eq_false_2 _ Hrec). }
  split; [|split].
  - intros Hle. split.
    + rewrite <-Hid at 1. rewrite Hrq, Hinfo. cbn [mbind Res_bind].
      rewrite (proj2 (N.leb_le _ _) Hle).
      unfold getCurrentSnapshotIndex, markLoadAsUnrecovered, assert.
      change (isNormalState (set_snapshots (snapshots s1) s1))
        with (isNormalState s).
      rewrite Hn. cbn [mbind Res_bind].
      change (snapshots (set_snapshots (snapshots s1) s1))
        with (snapshots s).
      rewrite (bool_decide_eq_false_2 _ Hsn). cbn [negb mbind Res_bind].
      fold index. cbn [wa_snapshotIndex]. by rewrite N.eqb_refl.
    + unfold getStartingIndex. rewrite <-Hid, Hinfo. cbn [mbind Res_bind].
      rewrite (proj2 (N.leb_le _ _) Hle). cbn [wa_snapshotIndex].
      unfold index. by rewrite length_pred_succ.
  - intros Hlt. split.
    + rewrite <-Hid at 1. rewrite Hrq, Hinfo. cbn [mbind Res_bind].
      rewrite (proj2 (N.leb_gt _ _) Hlt). by rewrite Hid.
    + unfold getStartingIndex. rewrite <-Hid, Hinfo. cbn [mbind Res_bind].
      by rewrite (proj2 (N.leb_gt _ _) Hlt).
  - exists (set_snapshots (snapshots s ++ [snapshot]) s1). split.
    + unfold addSnapshot, assert.
      change (isNormalState s1) with (isNormalState s). by rewrite Hn.
    + rewrite Hrq, Hinfo. cbn [mbind Res_bind].
      destruct (size <=? N.max before bytes); [|done].
      unfold getCurrentSnapshotIndex, assert.
      change (isNormalState (set_snapshots (snapshots s ++ [snapshot]) s1))
        with (isNormalState s).
      rewrite Hn. cbn [mbind Res_bind].
      change (snapshots (set_snapshots (snapshots s ++ [snapshot]) s1))
        with (snapshots s ++ [snapshot]).
      rewrite bool_decide_eq_false_2 by (by destruct (snapshots s)).
      cbn [negb mbind Res_bind wa_snapshotIndex].
      destruct (N.eqb_spec (N.of_nat (length (snapshots s ++ [snapshot]) - 1))
                  index) as [E|_]; [|done].
      exfalso. unfold index in E. rewrite length_app in E. simpl in E.
      destruct (snapshots s); [done|]. simpl in E. lia.
Qed.

Lemma written_address_covers_load_witness :
  ∃ s1,
    onNormalStateWrite true true 32 (ConstantExpr 4096)
      (Examples.withSnapshots [Examples.skipped] Examples.blankState) = Ok s1
    ∧ isRecoveryRequired 4096 4 s1
      = Ok (false, set_blockingLoadStatus false s1)
    ∧ getStartingIndex 4096 4 s1 = Ok 1.
Proof.
  destruct (written_address_covers_load 32 4096 4 Examples.skipped
              (Examples.withSnapshots [Examples.skipped] Examples.blankState))
    as (s1 & Hw & _ & Hle & _).
  - reflexivity.
  - discriminate.
  - apply (bool_decide_unpack _). by vm_compute.
  - right. reflexivity.
  - exists s1. split; [exact Hw|]. apply Hle. vm_compute. discriminate.
Defined.

(** X10.  The first read of a state that has skipped a function, made while
    its blocking load is not recovered, records the address as recovered and
    marks the blocking load as recovered.  From then on a load from that
    address is never a blocking load, whatever its size, and further reads
    record nothing. *)
Theorem read_address_is_recovered (v : Z) (s : ExecutionState) :
  isNormalState s = true → snapshots s ≠ [] →
  blockingLoadStatus s = false →
  let address := getZExtValue v in
  ∃ s1,
    onNormalStateRead (ConstantExpr v) s = Ok s1
    ∧ s1 = set_blockingLoadStatus true
             (set_recoveredLoads ({[address]} ∪ recoveredLoads s) s)
    ∧ (∀ mayBlock hasNoUses size,
         isMayBlockingLoad mayBlock hasNoUses address size s1
         = Ok (false, s1))
    ∧ (∀ e, onNormalStateRead e s1 = Ok s1).
Proof.
  intros Hn Hsn Hb address.
  eexists. split; [|split; [reflexivity|]].
  - unfold onNormalStateRead, isInDependentMode, getSnapshots,
      isBlockingLoadRecovered, addRecoveredAddress, markLoadAsRecovered,
      assert.
    rewrite Hn. cbn [mbind Res_bind].
    rewrite (bool_decide_eq_false_2 _ Hsn). cbn [negb mbind Res_bind].
    rewrite Hb.
    change (isNormalState (set_recoveredLoads _ s)) with (isNormalState s).
    by rewrite Hn.
  - set (s1 := set_blockingLoadStatus true _). split.
    + intros mayBlock hasNoUses size. unfold isMayBlockingLoad.
      destruct mayBlock; [|done]. destruct hasNoUses; [done|]. simpl negb.
      cbv iota. unfold isRecoveryRequired, isAddressRecovered, assert.
      change (isNormalState s1) with (isNormalState s). rewrite Hn.
      cbn [mbind Res_bind].
      change (recoveredLoads s1) with ({[address]} ∪ recoveredLoads s).
      rewrite bool_decide_eq_true_2; [done|]. set_solver.
    + intros e. unfold onNormalStateRead, isInDependentMode, getSnapshots,
        isBlockingLoadRecovered, assert.
      change (isNormalState s1) with (isNormalState s). rewrite Hn.
      cbn [mbind Res_bind].
      change (snapshots s1) with (snapshots s).
      by rewrite (bool_decide_eq_false_2 _ Hsn).
Qed.

Lemma read_address_is_recovered_witness :
  ∃ s1,
    onNormalStateRead (ConstantExpr 4096)
      (set_blockingLoadStatus false
         (Examples.withSnapshots [Examples.skipped] Examples.blankState))
    = Ok s1
    ∧ isMayBlockingLoad true false 4096 4 s1 = Ok (false, s1).
Proof.
  destruct (read_address_is_recovered 4096
              (set_blockingLoadStatus false
                 (Examples.withSnapshots [Examples.skipped]
                    Examples.blankState)))
    as (s1 & Hr & _ & Hl & _).
  - reflexivity.
  - discriminate.
  - reflexivity.
  - exists s1. split; [exact Hr | apply Hl].
Defined.

(** ** SplittedSearcher over two depth-first searchers *)

(** The states of [l] that are recovery states, resp. are not. *)
Definition ofKind (h : gmap ptr ExecutionState) (k : bool) (p : ptr) : Prop :=
  isRecoveryState <$> h !! p = Some k.

#[global] Instance ofKind_dec h k p : Decision (ofKind h k p).
Proof. unfold ofKind. apply _. Defined.

Lemma splitStates_app h l o r o0 r0 :
  foldl (λ acc es,
           '(originating, recovery) ← acc;
           st ← deref h es;
           if isRecoveryState st then Ok (originating, recovery ++ [es])
           else Ok (originating ++ [es], recovery))
        (Ok (o0, r0)) l = Ok (o, r) →
  o = o0 ++ filter (ofKind h false) l ∧ r = r0 ++ filter (ofKind h true) l
  ∧ Forall (λ p, is_Some (h !! p)) l.
Proof.
  revert o0 r0. induction l as [|es l IH]; intros o0 r0 Hf.
  - simpl in Hf. injection Hf as <- <-. by rewrite !filter_nil, !app_nil_r.
  - apply (foldl_bind_cons
             (λ (a : list ptr * list ptr) es,
                let '(originating, recovery) := a in
                st ← deref h es;
                if isRecoveryState st then Ok (originating, recovery ++ [es])
                else Ok (originating ++ [es], recovery))) in Hf
      as ([o1 r1] & Hstep & Hrest).
    bind_inv Hstep as st Hst. apply deref_Some in Hst.
    apply IH in Hrest as (-> & -> & Hall).
    assert (Hk : ofKind h (isRecoveryState st) es).
    { unfold ofKind. by rewrite Hst. }
    destruct (isRecoveryState st) eqn:Ek; injection Hstep as <- <-.
    + rewrite filter_cons_False, filter_cons_True by
        (done || (unfold ofKind in *; congruence)).
      rewrite <-app_assoc. split; [done|]. split; [done|].
      constructor; [by eexists | done].
    + rewrite filter_cons_True, filter_cons_False by
        (done || (unfold ofKind in *; congruence)).
      rewrite <-app_assoc. split; [done|]. split; [done|].
      constructor; [by eexists | done].
Qed.

Lemma splitStates_spec h l o r :
  splitStates h l = Ok (o, r) →
  o = filter (ofKind h false) l ∧ r = filter (ofKind h true) l
  ∧ Forall (λ p, is_Some (h !! p)) l.
Proof. intros Hf. by apply splitStates_app in Hf. Qed.

Lemma filter_ext_elem {A} (P Q : A → Prop) `{∀ x, Decision (P x)}
    `{∀ x, Decision (Q x)} (l : list A) :
  (∀ x, x ∈ l → P x ↔ Q x) → filter P l = filter Q l.
Proof.
  induction l as [|x l IH]; intros Hpq; [done|].
  assert (Hl : filter P l = filter Q l).
  { apply IH. intros y Hy. apply Hpq. by apply list_elem_of_further. }
  destruct (decide (P x)) as [Hp|Hp].
  - rewrite !filter_cons_True; [by rewrite Hl | | done].
    apply Hpq; [apply list_elem_of_here | done].
  - rewrite !filter_cons_False; [done | | done].
    intros Hq. apply Hp, Hpq; [apply list_elem_of_here | done].
Qed.

Lemma last_is_Some {A} (l : list A) : l ≠ [] → ∃ x, last l = Some x ∧ x ∈ l.
Proof.
  intros Hl. destruct (last l) as [x|] eqn:E.
  - exists x. split; [done|]. apply last_Some in E as [l' ->].
    apply elem_of_app. right. apply list_elem_of_here.
  - by apply last_None in E.
Qed.

(** One half of a splitted searcher over depth-first searchers: the states
    of kind [k] among the added ones come in, the removed ones go. *)
Lemma DFS_update_of_kind h k (s : DFSSearcher) cur added removed s' :
  Forall (ofKind h k) s → NoDup (s ++ added) →
  DFS_update h s cur (filter (ofKind h k) added)
    (filter (ofKind h k) removed) = Ok s' →
  s' = filter (λ p, p ∉ removed) (s ++ filter (ofKind h k) added)
  ∧ Forall (ofKind h k) s'.
Proof.
  intros Hk Hnd Hf. unfold DFS_update in Hf.
  assert (Hall : Forall (ofKind h k) (s ++ filter (ofKind h k) added)).
  { apply Forall_app. split; [done|]. apply Forall_forall.
    intros x Hx. by apply list_elem_of_filter in Hx as [? _]. }
  apply DFS_remove_all in Hf as (_ & _ & ->).
  - split.
    + apply filter_ext_elem. intros x Hx.
      rewrite list_elem_of_filter.
      rewrite Forall_forall in Hall. specialize (Hall x Hx). tauto.
    + apply Forall_forall. intros x Hx.
      apply list_elem_of_filter in Hx as [_ Hx].
      rewrite Forall_forall in Hall. by apply Hall.
  - apply NoDup_app in Hnd as (Hs & Hdis & Ha).
    apply NoDup_app. split; [done|]. split; [|by apply NoDup_filter].
    intros x Hx Hx'. apply list_elem_of_filter in Hx' as [_ Hx'].
    by apply (Hdis x).
Qed.

Definition kindsApart (h : gmap ptr ExecutionState)
    (s : SplittedSearcher DFSSearcher DFSSearcher) : Prop :=
  Forall (ofKind h false) (baseSearcher s)
  ∧ Forall (ofKind h true) (recoverySearcher s).

(** X11.  A splitted searcher over two depth-first searchers keeps the two
    kinds of states apart.  If the base searcher holds only states that are
    not recovery states and the recovery searcher only recovery states, an
    update sends each added and each removed state to the searcher of its
    kind, and the separation still holds afterwards.  As long as a state is
    held, [selectState] returns one: a recovery state when the base searcher
    is empty, or when both hold states and the random draw modulo 100 is
    below the ratio; a state that is not a recovery state otherwise. *)
Theorem Splitted_update_keeps_kinds h
    (s : SplittedSearcher DFSSearcher DFSSearcher) cur added removed s' :
  kindsApart h s →
  NoDup (baseSearcher s ++ added) → NoDup (recoverySearcher s ++ added) →
  Splitted_update h s cur added removed = Ok s' →
  baseSearcher s'
  = filter (λ p, p ∉ removed)
      (baseSearcher s ++ filter (ofKind h false) added)
  ∧ recoverySearcher s'
    = filter (λ p, p ∉ removed)
        (recoverySearcher s ++ filter (ofKind h true) added)
  ∧ ratio s' = ratio s
  ∧ kindsApart h s'
  ∧ ∀ rnd, Splitted_empty s' = false →
      ∃ p, Splitted_selectState rnd s' = Ok p
           ∧ (p ∈ baseSearcher s' ∨ p ∈ recoverySearcher s')
           ∧ ofKind h
               (searcher_empty (baseSearcher s')
                || (negb (searcher_empty (recoverySearcher s'))
                    && (rnd mod 100 <? ratio s))) p.
Proof.
  intros [Hb Hr] Hndb Hndr Hf. unfold Splitted_update in Hf.
  bind_inv Hf as [ao ar] Ha. apply splitStates_spec in Ha as (-> & -> & _).
  bind_inv Hf as [ro rr] Hrm. apply splitStates_spec in Hrm as (-> & -> & _).
  bind_inv Hf as ck Hck. bind_inv Hf as b1 Hb1. bind_inv Hf as r1 Hr1.
  injection Hf as <-. cbn [baseSearcher recoverySearcher ratio].
  apply DFS_update_of_kind in Hb1 as [Eb Hb']; [|done..].
  apply DFS_update_of_kind in Hr1 as [Er Hr']; [|done..].
  split; [done|]. split; [done|]. split; [done|]. split; [by split|].
  intros rnd Hne. unfold Splitted_empty, Splitted_selectState in *.
  cbn [baseSearcher recoverySearcher ratio] in *.
  unfold searcher_empty, DFS_empty in *.
  cbn [searcher_selectState DFS_Searcher]. unfold DFS_selectState.
  rewrite Forall_forall in Hb'. rewrite Forall_forall in Hr'.
  case_bool_decide as Eb1; case_bool_decide as Er1; [done|..];
    cbn [orb andb negb].
  - destruct (last_is_Some r1 Er1) as (x & -> & Hx).
    exists x. split; [done|]. split; [by right | by apply Hr'].
  - destruct (last_is_Some b1 Eb1) as (x & -> & Hx).
    exists x. split; [done|]. split; [by left | by apply Hb'].
  - destruct (rnd mod 100 <? ratio s).
    + destruct (last_is_Some r1 Er1) as (x & -> & Hx).
      exists x. split; [done|]. split; [by right | by apply Hr'].
    + destruct (last_is_Some b1 Eb1) as (x & -> & Hx).
      exists x. split; [done|]. split; [by left | by apply Hb'].
Qed.

Lemma Splitted_update_keeps_kinds_witness :
  ∃ s',
    Splitted_update MoreExamples.mixedHeap MoreExamples.splitOne None
      [2; 3]%nat [1]%nat = Ok s'
    ∧ baseSearcher s' = [3]%nat ∧ recoverySearcher s' = [2]%nat
    ∧ ∃ p, Splitted_selectState 7 s' = Ok p
           ∧ ofKind MoreExamples.mixedHeap true p.
Proof.
  destruct (Splitted_update MoreExamples.mixedHeap MoreExamples.splitOne None
              [2; 3]%nat [1]%nat) as [s'|e] eqn:E; [|by vm_compute in E].
  exists s'. split; [done|].
  destruct (Splitted_update_keeps_kinds MoreExamples.mixedHeap
              MoreExamples.splitOne None [2; 3]%nat [1]%nat s')
    as (Hb & Hr & _ & _ & Hsel).
  - split; [|constructor]. repeat constructor.
  - apply (bool_decide_unpack _). by vm_compute.
  - apply (bool_decide_unpack _). by vm_compute.
  - exact E.
  - split; [by rewrite Hb|]. split; [by rewrite Hr|].
    destruct (Hsel 7) as (p & Hp & _ & Hk).
    + unfold Splitted_empty. by rewrite Hb, Hr.
    + exists p. split; [done|]. by rewrite Hb, Hr in Hk.
Defined.

(** ** Forks that create no state *)

Lemma state_addConstraint_total e s :
  ∃ s', state_addConstraint e s = Ok s'
        ∧ constraints s' = constraints s ++ [e]
        ∧ branchHist s' = branchHist s ∧ depth s' = depth s
        ∧ prefixes s' = prefixes s.
Proof.
  unfold state_addConstraint, getSnapshots, addGuidingConstraint, assert.
  set (s1 := set_constraints _ s).
  destruct (isNormalState s1) eqn:En; cbn [andb mbind Res_bind];
    [|by eexists].
  destruct (negb (isRecoveryState s1)); [|by eexists].
  cbn [mbind Res_bind]. destruct (negb (bool_decide (snapshots s1 = [])));
    [|by eexists].
  cbn [mbind Res_bind]. case_decide; by eexists.
Qed.

Section ForkEdges.
Context {S : Type} {SS : Searcher S} {UB : UnspecifiedBytes}.
Implicit Types ex : Executor (S := S).

(** X12.  A fork the solver cannot decide, met while forking is inhibited
    (memory limit, fork disabled on the path or globally, or the fork limit
    reached), creates no state.  One draw of the random generator picks the
    side; the state takes it, with the condition (or its negation) as a new
    last path constraint and, unless the fork is internal, ['2'] (or ['3'])
    as a new last history character.  The fork counter and the list of added
    states stay as they are. *)
Theorem fork_inhibited ex cur cond isInternal st :
  heap ex !! cur = Some st →
  coreId (config ex) = 0 ∨ shallIRange st = false ∨ isInternal = true →
  solver_evaluate (config ex) st cond = Some Solver_Unknown →
  replayPath (config ex) = None → replayKTest (config ex) = false →
  forkingInhibited ex st = true →
  isConstantExpr cond = false →
  let side := theRNG_getBool (config ex) (rngPos ex) in
  ∃ ex' st',
    fork ex cur cond isInternal
    = Ok (if side then (Some cur, None) else (None, Some cur), ex')
    ∧ heap ex' = <[cur := st']> (heap ex)
    ∧ constraints st'
      = constraints st ++ [if side then cond else createIsZero cond]
    ∧ branchHist st'
      = (if isInternal then branchHist st
         else branchHist st ++ [if side then "2"%char else "3"%char])
    ∧ depth st' = (if isInternal then depth st else incr32 (depth st))
    ∧ rngPos ex' = Datatypes.S (rngPos ex)
    ∧ forks ex' = forks ex
    ∧ addedStates ex' = addedStates ex
    ∧ states ex' = states ex
    ∧ rangingSuspendedStates ex' = rangingSuspendedStates ex.
Proof.
  intros Hc Hsolver Hr Hrp Hrk Hinh Hcond side.
  set (c := if side then cond else createIsZero cond).
  destruct (state_addConstraint_total c st)
    as (st1 & Hadd & Hcs & Hbh & Hd & _).
  assert (Hcc : isConstantExpr c = false).
  { unfold c. destruct side; [done | by apply isConstantExpr_createIsZero]. }
  assert (Hac : addConstraint (with_rngPos (Datatypes.S (rngPos ex)) ex) cur c
                = Ok (store cur st1
                        (with_rngPos (Datatypes.S (rngPos ex)) ex))).
  { unfold addConstraint. destruct c; [done|..];
      cbn [heap with_rngPos]; rewrite (deref_lookup _ _ _ Hc);
      cbn [mbind Res_bind]; rewrite Hadd; done. }
  set (ex1 := store cur st1 (with_rngPos (Datatypes.S (rngPos ex)) ex)).
  assert (Hcommit : fork_commit ex cur cond isInternal Solver_Unknown
                    = Ok (if side then Solver_True else Solver_False, ex1)).
  { unfold fork_commit. rewrite Hrp, Hrk. cbn [negb assert mbind Res_bind].
    rewrite (deref_lookup _ _ _ Hc). cbn [mbind Res_bind]. rewrite Hinh.
    fold side. unfold c in Hac. destruct side; by rewrite Hac. }
  set (st' := if isInternal then st1
              else recordBranch (if side then "2"%char else "3"%char) st1).
  exists (if isInternal then ex1 else store cur st' ex1), st'.
  split.
  - unfold fork.
    rewrite (fork_direction_solver _ _ _ _ _ _ Hc Hsolver Hr).
    cbn [mbind Res_bind]. rewrite Hcommit. cbn [mbind Res_bind].
    assert (Hc1 : deref (heap ex1) cur = Ok st1).
    { apply deref_lookup. apply lookup_insert_eq. }
    unfold fork_branch, modify, st'.
    destruct side, isInternal; cbn [mbind Res_bind]; try done;
      rewrite Hc1; done.
  - unfold st'. destruct isInternal.
    + repeat split; done.
    + split.
      { unfold ex1, store. cbn. by rewrite insert_insert_eq. }
      repeat split; try done; cbn; by rewrite ?Hcs, ?Hbh, ?Hd.
Qed.

End ForkEdges.

Lemma fork_inhibited_witness :
  ∃ ex' st',
    fork (UB := Examples.zeroBytes)
      (Examples.executorOf MoreExamples.inhibitedConfig
         [(1%nat, Examples.blankState)])
      1%nat Examples.x_positive false = Ok ((None, Some 1%nat), ex')
    ∧ heap ex' !! 1%nat = Some st'
    ∧ constraints st' = [IsZeroExpr Examples.x_positive]
    ∧ branchHist st' = ["3"%char].
Proof.
  destruct (fork_inhibited (UB := Examples.zeroBytes)
              (Examples.executorOf MoreExamples.inhibitedConfig
                 [(1%nat, Examples.blankState)])
              1%nat Examples.x_positive false Examples.blankState)
    as (ex' & st' & Hf & Hh & Hc & Hb & _).
  - reflexivity.
  - left. reflexivity.
  - reflexivity.
  - reflexivity.
  - reflexivity.
  - reflexivity.
  - reflexivity.
  - exists ex', st'. split; [exact Hf|]. split.
    + rewrite Hh. apply lookup_insert_eq.
    + split; [exact Hc | exact Hb].
Defined.

(** ** Terminating a chain of dependent states *)

(** [l] is the chain that starts at [p]: each recovery state is followed by
    its dependent state, and the chain ends at the first state that is not a
    recovery state. *)
Inductive depChain (h : gmap ptr ExecutionState) : ptr → list ptr → Prop :=
| depChain_end p st :
    h !! p = Some st → isRecoveryState st = false → depChain h p [p]
| depChain_step p st n l :
    h !! p = Some st → isRecoveryState st = true →
    dependentState st = Some n → depChain h n l → depChain h p (p :: l).

Lemma depChain_head h p l : depChain h p l → ∃ l', l = p :: l'.
Proof. destruct 1; eauto. Qed.

Lemma depChain_agree h h' p l :
  depChain h p l →
  (∀ q st, q ∈ l → h !! q = Some st →
     ∃ st', h' !! q = Some st'
            ∧ isRecoveryState st' = isRecoveryState st
            ∧ dependentState st' = dependentState st) →
  depChain h' p l.
Proof.
  induction 1 as [p st Hp Hr|p st n l Hp Hr Hd Hc IH]; intros Hag.
  - destruct (Hag p st (list_elem_of_here _ _) Hp) as (st' & Hp' & Er & _).
    eapply depChain_end; [done | congruence].
  - destruct (Hag p st (list_elem_of_here _ _) Hp) as (st' & Hp' & Er & Ed).
    eapply depChain_step;
      [exact Hp' | congruence | rewrite Ed; exact Hd |].
    apply IH. intros q sq Hq. apply Hag. by apply list_elem_of_further.
Qed.

Lemma erase_first_filter (l : list nat) p :
  NoDup l →
  match erase_first p l with Some l' => l' | None => l end
  = filter (λ q, q ≠ p) l.
Proof.
  intros Hnd. destruct (decide (p ∈ l)) as [Hin|Hin].
  - by rewrite erase_first_NoDup.
  - rewrite (proj2 (erase_first_None p l) Hin). symmetry.
    apply filter_Forall_id, Forall_forall. by intros x Hx ->.
Qed.

Section Chains.
Context {S : Type} {SS : Searcher S}.
Implicit Types ex : Executor (S := S).

(** [ex'] differs from [ex] at most in the store, the added and removed
    states and the set of non-recovery states. *)
Definition terminationFrame ex ex' : Prop :=
  ex' = with_heap (heap ex')
          (with_addedStates (addedStates ex')
             (with_removedStates (removedStates ex')
                (with_nonRecoveryStates (nonRecoveryStates ex') ex))).

Lemma terminationFrame_trans ex1 ex2 ex3 :
  terminationFrame ex1 ex2 → terminationFrame ex2 ex3 →
  terminationFrame ex1 ex3.
Proof.
  unfold terminationFrame. intros H12 H23. rewrite H23 at 1.
  rewrite H12. by destruct ex1.
Qed.

Lemma terminateState_forward ex p st :
  heap ex !! p = Some st → NoDup (addedStates ex) →
  ∃ ex1,
    terminateState ex p = Ok ex1
    ∧ heap ex1 = (if decide (p ∈ addedStates ex) then delete p (heap ex)
                  else <[p := set_pc (prevPC st) st]> (heap ex))
    ∧ addedStates ex1 = filter (λ q, q ≠ p) (addedStates ex)
    ∧ removedStates ex1
      = removedStates ex ++ (if decide (p ∈ addedStates ex) then [] else [p])
    ∧ nonRecoveryStates ex1 = nonRecoveryStates ex ∖ {[p]}
    ∧ terminationFrame ex ex1.
Proof.
  intros Hp Hnd. unfold terminateState.
  rewrite (deref_lookup _ _ _ Hp). cbn [mbind Res_bind].
  pose proof (erase_first_filter (addedStates ex) p Hnd) as He.
  change (addedStates (with_nonRecoveryStates _ ex)) with (addedStates ex).
  destruct (erase_first p (addedStates ex)) as [added'|] eqn:E.
  - assert (p ∈ addedStates ex) as Hin.
    { destruct (decide (p ∈ addedStates ex)) as [?|Hn]; [done|].
      apply erase_first_None in Hn. congruence. }
    eexists. split; [done|]. rewrite !decide_True by done.
    rewrite app_nil_r. by destruct ex.
  - apply erase_first_None in E. eexists. split; [done|].
    rewrite !decide_False by done. subst. by destruct ex.
Qed.

Lemma terminate_chain l : ∀ ex p fuel,
  depChain (heap ex) p l → NoDup l → NoDup (addedStates ex) →
  (length l ≤ fuel)%nat →
  ∃ ex',
    terminateStateRecursively_loop fuel ex p = Ok ex'
    ∧ (∀ q, q ∉ l → heap ex' !! q = heap ex !! q)
    ∧ (∀ q, q ∈ l →
         heap ex' !! q
         = if decide (q ∈ addedStates ex) then None
           else (λ st, set_pc (prevPC st) st) <$> heap ex !! q)
    ∧ addedStates ex' = filter (λ q, q ∉ l) (addedStates ex)
    ∧ removedStates ex'
      = removedStates ex ++ filter (λ q, q ∉ addedStates ex) l
    ∧ nonRecoveryStates ex' = nonRecoveryStates ex ∖ list_to_set l
    ∧ terminationFrame ex ex'.
Proof.
  induction l as [|p0 l IH]; intros ex p fuel Hc Hnd Hna Hfuel.
  { by apply depChain_head in Hc as [? ?]. }
  destruct fuel as [|fuel]; [simpl in Hfuel; lia|].
  apply NoDup_cons in Hnd as [Hp0 Hnd].
  assert (p0 = p) as -> by (by destruct (depChain_head _ _ _ Hc) as [? [= ->]]).
  assert (∃ st, heap ex !! p = Some st) as [st Hp] by (inversion Hc; eauto).
  destruct (terminateState_forward ex p st Hp Hna)
    as (ex1 & Ht & Hh1 & Ha1 & Hr1 & Hn1 & Hf1).
  assert (Hother : ∀ q, q ≠ p → heap ex1 !! q = heap ex !! q).
  { intros q Hq. rewrite Hh1. case_decide.
    - by rewrite lookup_delete_ne.
    - by rewrite lookup_insert_ne. }
  assert (Hself : heap ex1 !! p
                  = if decide (p ∈ addedStates ex) then None
                    else (λ st, set_pc (prevPC st) st) <$> heap ex !! p).
  { rewrite Hh1, Hp. case_decide.
    - apply lookup_delete_eq.
    - apply lookup_insert_eq. }
  cbn [terminateStateRecursively_loop].
  rewrite (deref_lookup _ _ _ Hp). cbn [mbind Res_bind].
  inversion Hc as [p' st' Hp' Hrec Ep El|p' st' n l' Hp' Hrec Hdep Hc' Ep El];
    subst; rewrite Hp in Hp'; injection Hp' as <-; rewrite Hrec.
  - cbn [mbind Res_bind]. rewrite Ht. cbn [mbind Res_bind].
    exists ex1. split; [done|]. split.
    { intros q Hq. apply Hother. intros ->. apply Hq, list_elem_of_here. }
    split.
    { intros q Hq. apply list_elem_of_singleton in Hq as ->. done. }
    split.
    { rewrite Ha1. apply filter_ext_elem. intros x _.
      rewrite list_elem_of_singleton. tauto. }
    split.
    { rewrite Hr1. f_equal. case_decide.
      - by rewrite filter_cons_False by tauto.
      - by rewrite filter_cons_True. }
    split; [|done]. rewrite Hn1. simpl. by rewrite union_empty_r_L.
  - unfold getDependentState, assert. rewrite Hrec. cbn [mbind Res_bind].
    rewrite Hdep. cbn [mbind Res_bind]. rewrite Ht. cbn [mbind Res_bind].
    destruct (IH ex1 n fuel) as (ex' & Hl & Hout & Hin & Ha & Hr & Hn & Hf).
    { eapply depChain_agree; [exact Hc'|]. intros q sq Hq Hsq.
      exists sq. rewrite Hother by (by intros ->). done. }
    { done. }
    { rewrite Ha1. by apply NoDup_filter. }
    { simpl in Hfuel. lia. }
    assert (Hmem : ∀ q, q ≠ p →
              (q ∈ addedStates ex1 ↔ q ∈ addedStates ex)).
    { intros q Hq. rewrite Ha1, list_elem_of_filter. tauto. }
    exists ex'. split; [done|]. split.
    { intros q Hq. apply not_elem_of_cons in Hq as [Hq1 Hq2].
      rewrite Hout by done. by apply Hother. }
    split.
    { intros q Hq. apply elem_of_cons in Hq as [-> |Hq].
      - rewrite Hout by done. exact Hself.
      - rewrite Hin by done. assert (q ≠ p) by (by intros ->).
        rewrite Hother by done.
        destruct (decide (q ∈ addedStates ex1)) as [H1|H1],
                 (decide (q ∈ addedStates ex)) as [H2|H2]; try done;
          exfalso; rewrite Hmem in H1 by done; done. }
    split.
    { rewrite Ha, Ha1, list_filter_filter. apply filter_ext_elem.
      intros x _. rewrite not_elem_of_cons. tauto. }
    split.
    { rewrite Hr, Hr1, <-app_assoc. f_equal.
      assert (filter (λ q, q ∉ addedStates ex1) l
              = filter (λ q, q ∉ addedStates ex) l) as ->.
      { apply filter_ext_elem. intros x Hx.
        rewrite Hmem; [done|]. by intros ->. }
      case_decide.
      - by rewrite filter_cons_False by tauto.
      - by rewrite filter_cons_True. }
    split.
    { rewrite Hn, Hn1. simpl. by rewrite difference_difference_l_L. }
    by eapply terminationFrame_trans.
Qed.

Lemma depChain_in_heap h p l :
  depChain h p l → Forall (λ q, is_Some (h !! q)) l.
Proof. induction 1; constructor; eauto. Qed.

Lemma NoDup_in_heap_length (h : gmap ptr ExecutionState) (l : list ptr) :
  NoDup l → Forall (λ q, is_Some (h !! q)) l → (length l ≤ size h)%nat.
Proof.
  intros Hnd Hall.
  rewrite <-(size_list_to_set (C := gset ptr) l) by done.
  rewrite <-size_dom. apply subseteq_size. intros x Hx.
  apply elem_of_list_to_set in Hx. rewrite Forall_forall in Hall.
  apply elem_of_dom. by apply Hall.
Qed.

(** What terminating the chain [l] makes of [ex]. *)
Definition chainTerminated ex (l : list ptr) ex' : Prop :=
  (∀ q, q ∉ l → heap ex' !! q = heap ex !! q)
  ∧ (∀ q, q ∈ l →
       heap ex' !! q
       = if decide (q ∈ addedStates ex) then None
         else (λ st, set_pc (prevPC st) st) <$> heap ex !! q)
  ∧ addedStates ex' = filter (λ q, q ∉ l) (addedStates ex)
  ∧ removedStates ex'
    = removedStates ex ++ filter (λ q, q ∉ addedStates ex) l
  ∧ nonRecoveryStates ex' = nonRecoveryStates ex ∖ list_to_set l
  ∧ terminationFrame ex ex'.

Lemma terminateStateEarly_chain ex p l :
  depChain (heap ex) p l → NoDup l → NoDup (addedStates ex) →
  ∃ ex', terminateStateEarly ex p = Ok ex' ∧ chainTerminated ex l ex'.
Proof.
  intros Hc Hnd Hna.
  assert (Hlen : (length l ≤ chainFuel ex)%nat).
  { unfold chainFuel.
    pose proof (NoDup_in_heap_length _ _ Hnd (depChain_in_heap _ _ _ Hc)).
    lia. }
  destruct (terminate_chain l ex p (chainFuel ex) Hc Hnd Hna Hlen)
    as (ex' & Hl & Hrest).
  exists ex'. split; [|exact Hrest]. unfold terminateStateEarly.
  inversion Hc as [p' st Hp Hrec|p' st n l' Hp Hrec Hdep Hc']; subst;
    rewrite (deref_lookup _ _ _ Hp); cbn [mbind Res_bind]; rewrite Hrec;
    [|exact Hl].
  unfold chainFuel in Hl. cbn [terminateStateRecursively_loop] in Hl.
  rewrite (deref_lookup _ _ _ Hp) in Hl. cbn [mbind Res_bind] in Hl.
  rewrite Hrec in Hl. cbn [mbind Res_bind] in Hl.
  by destruct (terminateState ex p).
Qed.

End Chains.

(** X13.  Terminating a state early terminates the whole chain that hangs
    on it: the state itself and, while the state at hand is a recovery
    state, its dependent state.  For a chain without repetition the call
    returns.  A chain state that was still among the added states is
    deleted at once and leaves that list; every other chain state has its
    program counter set back and is put on the removed states, in chain
    order.  No chain state remains among the non-recovery states, and
    nothing else of the executor changes. *)
Theorem terminateStateEarly_ends_chain {S : Type} {SS : Searcher S}
    (ex : Executor (S := S)) p l :
  depChain (heap ex) p l → NoDup l → NoDup (addedStates ex) →
  ∃ ex', terminateStateEarly ex p = Ok ex' ∧ chainTerminated ex l ex'.
Proof. apply terminateStateEarly_chain. Qed.


Lemma terminateStateEarly_ends_chain_witness :
  ∃ ex',
    terminateStateEarly (Examples.recoveryOf []) 2%nat = Ok ex'
    ∧ removedStates ex' = [2; 1]%nat.
Proof.
  destruct (terminateStateEarly_ends_chain (Examples.recoveryOf []) 2%nat
              [2; 1]%nat) as (ex' & He & _ & _ & _ & Hr & _).
  - eapply depChain_step; [reflexivity..|].
    eapply depChain_end; reflexivity.
  - apply (bool_decide_unpack _). by vm_compute.
  - constructor.
  - exists ex'. split; [exact He|]. rewrite Hr. reflexivity.
Defined.

(** X14.  When the solver fails on the condition of a fork, the fork gives
    no state at all and the state, with the chain that hangs on it, is
    terminated: chain states not yet known to the searcher are deleted, the
    others have their program counter set back and are put on the removed
    states.  Nothing is forked, constrained or recorded. *)
Theorem fork_solver_failure {S : Type} {SS : Searcher S}
    {UB : UnspecifiedBytes} (ex : Executor (S := S)) cur cond isInternal
    st l :
  heap ex !! cur = Some st →
  coreId (config ex) = 0 ∨ shallIRange st = false ∨ isInternal = true →
  solver_evaluate (config ex) st cond = None →
  depChain (heap ex) cur l → NoDup l → NoDup (addedStates ex) →
  ∃ ex', fork ex cur cond isInternal = Ok ((None, None), ex')
         ∧ chainTerminated ex l ex'.
Proof.
  intros Hc Hsolver Hnone Hch Hnd Hna.
  set (ex0 := store cur (set_pc (prevPC st) st) ex).
  assert (Hch0 : depChain (heap ex0) cur l).
  { eapply depChain_agree; [exact Hch|]. intros q sq Hq Hsq.
    destruct (decide (q = cur)) as [-> |Hne].
    - rewrite Hc in Hsq. injection Hsq as <-. eexists.
      split; [apply lookup_insert_eq|]. done.
    - exists sq. split; [|done]. unfold ex0. simpl.
      by rewrite lookup_insert_ne. }
  destruct (terminateStateEarly_chain ex0 cur l Hch0 Hnd Hna)
    as (ex' & Ht & Hout & Hin & Ha & Hr & Hn & Hf).
  exists ex'. split.
  - unfold fork, fork_direction, fork_evaluate.
    rewrite (deref_lookup _ _ _ Hc). cbn [mbind Res_bind].
    assert ((coreId (config ex) =? 0) || negb (shallIRange st) || isInternal
            = true) as ->.
    { destruct Hsolver as [->|[->| ->]]; simpl; [done| |];
        destruct (coreId (config ex) =? 0); simpl; try done;
        by destruct (negb _). }
    cbn [mbind Res_bind]. rewrite Hnone. fold ex0. by rewrite Ht.
  - assert (Hl : cur ∈ l).
    { destruct (depChain_head _ _ _ Hch) as [l' ->]. apply list_elem_of_here. }
    split; [|split; [|split; [done|split; [done|split; [done|]]]]].
    + intros q Hq. rewrite Hout by done. unfold ex0. simpl.
      apply lookup_insert_ne. by intros ->.
    + intros q Hq. rewrite Hin by done.
      change (addedStates ex0) with (addedStates ex).
      case_decide; [done|]. unfold ex0. simpl.
      destruct (decide (q = cur)) as [-> |Hne].
      * rewrite lookup_insert_eq, Hc. by destruct st.
      * by rewrite lookup_insert_ne.
    + unfold terminationFrame in *. rewrite Hf at 1. by destruct ex.
Qed.

Lemma fork_solver_failure_witness :
  ∃ ex',
    fork (UB := Examples.zeroBytes)
      (Examples.executorOf MoreExamples.timeoutConfig
         [(1%nat, Examples.waitingState []); (2%nat, Examples.recoveringState)])
      2%nat Examples.x_positive false = Ok ((None, None), ex')
    ∧ removedStates ex' = [2; 1]%nat.
Proof.
  destruct (fork_solver_failure (UB := Examples.zeroBytes)
              (Examples.executorOf MoreExamples.timeoutConfig
                 [(1%nat, Examples.waitingState []);
                  (2%nat, Examples.recoveringState)])
              2%nat Examples.x_positive false Examples.recoveringState
              [2; 1]%nat) as (ex' & He & _ & _ & _ & Hr & _).
  - reflexivity.
  - left. reflexivity.
  - reflexivity.
  - eapply depChain_step; [reflexivity..|].
    eapply depChain_end; reflexivity.
  - apply (bool_decide_unpack _). by vm_compute.
  - constructor.
  - exists ex'. split; [exact He|]. rewrite Hr. reflexivity.
Defined.

(** ** Propagating a constraint along a chain of dependent states *)

Lemma state_addConstraint_fields e s :
  ∃ g, state_addConstraint e s
       = Ok (set_guidingConstraints g
               (set_constraints (constraints s ++ [e]) s))
       ∧ (g = guidingConstraints s ∨ g = guidingConstraints s ++ [e]).
Proof.
  unfold state_addConstraint, getSnapshots, addGuidingConstraint, assert,
    ConstraintManager_addConstraint.
  set (s1 := set_constraints _ s).
  assert (Hid : s1 = set_guidingConstraints (guidingConstraints s) s1)
    by (by destruct s).
  destruct (isNormalState s1) eqn:En; cbn [andb mbind Res_bind];
    [|exists (guidingConstraints s); split; [by rewrite <-Hid | by left]].
  destruct (negb (isRecoveryState s1));
    [|exists (guidingConstraints s); split; [by rewrite <-Hid | by left]].
  cbn [mbind Res_bind]. destruct (negb (bool_decide (snapshots s1 = [])));
    [|exists (guidingConstraints s); split; [by rewrite <-Hid | by left]].
  cbn [mbind Res_bind]. case_decide.
  - exists (guidingConstraints s); split; [by rewrite <-Hid | by left].
  - exists (guidingConstraints s ++ [e]). split; [done | by right].
Qed.

Section MergeChain.
Context {S : Type} {SS : Searcher S}.
Implicit Types ex : Executor (S := S).

(** [st] with [cond] as a new last path constraint and the guiding
    constraints [g]. *)
Definition constrained (cond : Expr) (g : list Expr) (st : ExecutionState)
    : ExecutionState :=
  set_guidingConstraints g (set_constraints (constraints st ++ [cond]) st).

Lemma merge_chain cond l : ∀ ex p fuel,
  depChain (heap ex) p l → NoDup l →
  Forall (λ q, isNormalState <$> heap ex !! q = Some true) l →
  isConstantExpr cond = false →
  (length l ≤ fuel)%nat →
  ∃ ex',
    mergeConstraintsForAll_loop fuel ex p cond = Ok ex'
    ∧ (∀ q, q ∉ l → heap ex' !! q = heap ex !! q)
    ∧ (∀ q st, q ∈ l → heap ex !! q = Some st →
         ∃ g, heap ex' !! q = Some (constrained cond g st)
              ∧ (g = guidingConstraints st
                 ∨ g = guidingConstraints st ++ [cond]))
    ∧ ex' = with_heap (heap ex') ex.
Proof.
  induction l as [|p0 l IH]; intros ex p fuel Hc Hnd Hnorm Hcond Hfuel.
  { by apply depChain_head in Hc as [? ?]. }
  destruct fuel as [|fuel]; [simpl in Hfuel; lia|].
  apply NoDup_cons in Hnd as [Hp0 Hnd].
  assert (p0 = p) as -> by (by destruct (depChain_head _ _ _ Hc) as [? [= ->]]).
  assert (∃ st, heap ex !! p = Some st) as [st Hp] by (inversion Hc; eauto).
  apply Forall_cons in Hnorm as [Hpn Hnorm]. rewrite Hp in Hpn.
  injection Hpn as Hpn.
  destruct (state_addConstraint_fields cond st) as (g & Hadd & Hg).
  set (ex1 := store p (constrained cond g st) ex).
  assert (Hm : mergeConstraints ex p cond = Ok ex1).
  { unfold mergeConstraints, addConstraint, assert.
    rewrite (deref_lookup _ _ _ Hp). cbn [mbind Res_bind]. rewrite Hpn.
    cbn [mbind Res_bind]. destruct cond; [done|..];
      cbn [mbind Res_bind]; by rewrite Hadd. }
  assert (Hp1 : heap ex1 !! p = Some (constrained cond g st))
    by apply lookup_insert_eq.
  assert (Hother : ∀ q, q ≠ p → heap ex1 !! q = heap ex !! q).
  { intros q Hq. unfold ex1. simpl. by rewrite lookup_insert_ne. }
  cbn [mergeConstraintsForAll_loop]. rewrite Hm. cbn [mbind Res_bind].
  rewrite (deref_lookup _ _ _ Hp1). cbn [mbind Res_bind].
  change (isRecoveryState (constrained cond g st))
    with (isRecoveryState st).
  inversion Hc as [p' st' Hp' Hrec Ep El|p' st' n l' Hp' Hrec Hdep Hc' Ep El];
    subst; rewrite Hp in Hp'; injection Hp' as <-; rewrite Hrec.
  - exists ex1. split; [done|]. split.
    { intros q Hq. apply Hother. intros ->. apply Hq, list_elem_of_here. }
    split; [|done].
    intros q sq Hq Hsq. apply list_elem_of_singleton in Hq as ->.
    rewrite Hp in Hsq. injection Hsq as <-. by exists g.
  - unfold getDependentState, assert.
    change (isRecoveryState (constrained cond g st))
      with (isRecoveryState st).
    rewrite Hrec. cbn [mbind Res_bind].
    change (dependentState (constrained cond g st))
      with (dependentState st).
    rewrite Hdep.
    destruct (IH ex1 n fuel) as (ex' & Hl & Hout & Hin & Hf).
    { eapply depChain_agree; [exact Hc'|]. intros q sq Hq Hsq.
      exists sq. rewrite Hother by (by intros ->). done. }
    { done. }
    { apply Forall_forall. intros q Hq. rewrite Forall_forall in Hnorm.
      rewrite Hother by (by intros ->). by apply Hnorm. }
    { done. }
    { simpl in Hfuel. lia. }
    exists ex'. split; [done|]. split.
    { intros q Hq. apply not_elem_of_cons in Hq as [Hq1 Hq2].
      rewrite Hout by done. by apply Hother. }
    split.
    { intros q sq Hq Hsq. apply elem_of_cons in Hq as [-> |Hq].
      - rewrite Hout by done. rewrite Hp in Hsq. injection Hsq as <-.
        by exists g.
      - apply Hin; [done|]. rewrite Hother by (by intros ->). done. }
    rewrite Hf at 1. by destruct ex.
Qed.

Lemma mergeConstraintsForAll_chain ex r cond rst n o l :
  heap ex !! r = Some rst → isRecoveryState rst = true →
  dependentState rst = Some n → originatingState rst = Some o →
  depChain (heap ex) n l → NoDup l → r ∉ l → o ∈ l →
  Forall (λ q, isNormalState <$> heap ex !! q = Some true) l →
  isConstantExpr cond = false →
  ∃ ex',
    mergeConstraintsForAll ex r cond = Ok ex'
    ∧ (∀ q, q ∉ l → heap ex' !! q = heap ex !! q)
    ∧ (∀ q st, q ∈ l → heap ex !! q = Some st →
         ∃ g, heap ex' !! q = Some (constrained cond g st)
              ∧ (g = guidingConstraints st
                 ∨ g = guidingConstraints st ++ [cond])
              ∧ (q = o → cond ∈ g))
    ∧ ex' = with_heap (heap ex') ex.
Proof.
  intros Hr Hrec Hdep Horig Hc Hnd Hrl Hol Hnorm Hcond.
  assert (Hlen : (length l ≤ chainFuel ex)%nat).
  { unfold chainFuel.
    pose proof (NoDup_in_heap_length _ _ Hnd (depChain_in_heap _ _ _ Hc)).
    lia. }
  destruct (merge_chain cond l ex n (chainFuel ex) Hc Hnd Hnorm Hcond Hlen)
    as (ex1 & Hl & Hout & Hin & Hf).
  assert (∃ ost, heap ex !! o = Some ost ∧ isNormalState ost = true)
    as (ost & Ho & Hon).
  { rewrite Forall_forall in Hnorm. specialize (Hnorm o Hol).
    destruct (heap ex !! o) as [ost|]; [|done]. injection Hnorm as Hn.
    by exists ost. }
  destruct (Hin o ost Hol Ho) as (g & Ho1 & Hg).
  set (g' := if decide (cond ∈ g) then g else g ++ [cond]).
  assert (Hadd : addGuidingConstraint cond (constrained cond g ost)
                 = Ok (constrained cond g' ost)).
  { unfold addGuidingConstraint, assert.
    change (isNormalState (constrained cond g ost)) with (isNormalState ost).
    rewrite Hon. cbn [mbind Res_bind]. unfold g'.
    change (guidingConstraints (constrained cond g ost)) with g.
    by case_decide. }
  exists (store o (constrained cond g' ost) ex1). split.
  - unfold mergeConstraintsForAll, getDependentState, getOriginatingState,
      assert.
    rewrite (deref_lookup _ _ _ Hr). cbn [mbind Res_bind]. rewrite Hrec.
    cbn [mbind Res_bind]. rewrite Hdep, Hl. cbn [mbind Res_bind].
    assert (Hr1 : heap ex1 !! r = Some rst) by (by rewrite Hout).
    rewrite (deref_lookup _ _ _ Hr1). cbn [mbind Res_bind]. rewrite Hrec.
    cbn [mbind Res_bind]. rewrite Horig.
    rewrite (deref_lookup _ _ _ Ho1). cbn [mbind Res_bind].
    by rewrite Hadd.
  - split; [|split].
    + intros q Hq. simpl. rewrite lookup_insert_ne by (by intros ->).
      by apply Hout.
    + intros q st Hq Hst. destruct (decide (q = o)) as [-> |Hne].
      * rewrite Ho in Hst. injection Hst as <-. exists g'.
        split; [apply lookup_insert_eq|]. unfold g'. split.
        -- case_decide as Hd; [done|]. destruct Hg as [-> | ->]; [by right|].
           exfalso. apply Hd, elem_of_app. right. apply list_elem_of_here.
        -- intros _. case_decide; [done|]. apply elem_of_app. right.
           apply list_elem_of_here.
      * destruct (Hin q st Hq Hst) as (gq & Hq1 & Hgq). exists gq.
        split; [|by split]. simpl. by rewrite lookup_insert_ne.
    + rewrite Hf at 1. by destruct ex.
Qed.

End MergeChain.

(** X15.  A branch condition met by a recovery state is passed down the
    whole chain of states that depend on it.  For a chain without
    repetition whose states are all normal states the call returns; every
    state of the chain has the condition as its new last path constraint,
    the originating state at the end of the chain also has it among its
    guiding constraints, and a chain state changes in nothing but these two
    lists.  Every state outside the chain, the recovery state included, and
    the rest of the executor stay as they are. *)
Theorem mergeConstraintsForAll_reaches_chain {S : Type} {SS : Searcher S}
    (ex : Executor (S := S)) r cond rst n o l :
  heap ex !! r = Some rst → isRecoveryState rst = true →
  dependentState rst = Some n → originatingState rst = Some o →
  depChain (heap ex) n l → NoDup l → r ∉ l → o ∈ l →
  Forall (λ q, isNormalState <$> heap ex !! q = Some true) l →
  isConstantExpr cond = false →
  ∃ ex',
    mergeConstraintsForAll ex r cond = Ok ex'
    ∧ (∀ q, q ∉ l → heap ex' !! q = heap ex !! q)
    ∧ (∀ q st, q ∈ l → heap ex !! q = Some st →
         ∃ g, heap ex' !! q = Some (constrained cond g st)
              ∧ (g = guidingConstraints st
                 ∨ g = guidingConstraints st ++ [cond])
              ∧ (q = o → cond ∈ g))
    ∧ ex' = with_heap (heap ex') ex.
Proof. apply mergeConstraintsForAll_chain. Qed.

Lemma mergeConstraintsForAll_reaches_chain_witness :
  ∃ ex' st',
    mergeConstraintsForAll (Examples.recoveryOf []) 2%nat Examples.x_positive
    = Ok ex'
    ∧ heap ex' !! 1%nat = Some st'
    ∧ constraints st' = [Examples.x_positive]
    ∧ (Examples.x_positive ∈ guidingConstraints st').
Proof.
  destruct (mergeConstraintsForAll_reaches_chain (Examples.recoveryOf [])
              2%nat Examples.x_positive Examples.recoveringState 1%nat 1%nat
              [1%nat]) as (ex' & He & _ & Hin & _).
  - reflexivity.
  - reflexivity.
  - reflexivity.
  - reflexivity.
  - eapply depChain_end; reflexivity.
  - apply (bool_decide_unpack _). by vm_compute.
  - apply (bool_decide_unpack _). by vm_compute.
  - apply list_elem_of_here.
  - repeat constructor.
  - reflexivity.
  - destruct (Hin 1%nat (Examples.waitingState []) (list_elem_of_here _ _)
                eq_refl) as (g & Hh & _ & Hg).
    exists ex', (constrained Examples.x_positive g (Examples.waitingState [])).
    split; [exact He|]. split; [exact Hh|]. split; [reflexivity|].
    by apply Hg.
Defined.


(** ** What [updateStates] leaves behind *)

Section UpdateStates.
Context {S : Type} {SS : Searcher S} {UB : UnspecifiedBytes}.
Implicit Types ex : Executor (S := S).

(** [ex'] has the pools, the live states and the searcher of [ex]. *)
Definition samePools ex ex' : Prop :=
  states ex' = states ex ∧ searcher ex' = searcher ex
  ∧ addedStates ex' = addedStates ex ∧ removedStates ex' = removedStates ex
  ∧ suspendedStates ex' = suspendedStates ex
  ∧ resumedStates ex' = resumedStates ex
  ∧ rangingSuspendedStates ex' = rangingSuspendedStates ex
  ∧ nonRecoveryStates ex' = nonRecoveryStates ex.

Lemma fileSuspended_heap l : ∀ ex ex',
  fileSuspended ex l = Ok ex' →
  samePools ex ex'
  ∧ ∀ q, heap ex' !! q
         = if decide (q ∈ l) then clearPrefixes <$> heap ex !! q
           else heap ex !! q.
Proof.
  induction l as [|p l IH]; intros ex ex' Hf; simpl in Hf.
  - injection Hf as <-. split; [by repeat split|]. intros q.
    rewrite decide_False; [done|]. apply not_elem_of_nil.
  - bind_inv Hf as st Hst. apply deref_Some in Hst.
    match type of Hf with
    | fileSuspended ?e _ = _ => set (ex1 := e) in Hf
    end.
    assert (Hh1 : heap ex1 = <[p := clearPrefixes st]> (heap ex)).
    { unfold ex1. by destruct (prefixSuspendedStatesMap _ !! _). }
    assert (Hp1 : samePools ex ex1).
    { unfold ex1.
      destruct (prefixSuspendedStatesMap _ !! _); by repeat split. }
    apply IH in Hf as [Hpools Hheap]. split.
    + destruct Hpools as (? & ? & ? & ? & ? & ? & ? & ?).
      destruct Hp1 as (? & ? & ? & ? & ? & ? & ? & ?).
      repeat split; congruence.
    + intros q. rewrite Hheap, Hh1. destruct (decide (q = p)) as [-> |Hne].
      * rewrite lookup_insert_eq, Hst.
        rewrite (decide_True (P := p ∈ p :: l)) by apply list_elem_of_here.
        by case_decide.
      * rewrite lookup_insert_ne by done.
        destruct (decide (q ∈ l)) as [Hl|Hl].
        -- rewrite decide_True; [done|]. by apply list_elem_of_further.
        -- rewrite decide_False; [done|]. rewrite not_elem_of_cons. tauto.
Qed.

Lemma deleteRemoved_heap l : ∀ ex ex',
  deleteRemoved ex l = Ok ex' →
  states ex' = filter (λ q, q ∉ l) (states ex)
  ∧ (∀ q, heap ex' !! q
          = if decide (q ∈ l ∧ q ∈ states ex) then None else heap ex !! q)
  ∧ Forall (λ q, q ∉ states ex →
                 ∃ st, heap ex !! q = Some st ∧ isNormalState st = true
                       ∧ isSuspended st = true) l
  ∧ searcher ex' = searcher ex
  ∧ addedStates ex' = addedStates ex ∧ removedStates ex' = removedStates ex
  ∧ suspendedStates ex' = suspendedStates ex
  ∧ resumedStates ex' = resumedStates ex
  ∧ rangingSuspendedStates ex' = rangingSuspendedStates ex
  ∧ nonRecoveryStates ex' = nonRecoveryStates ex.
Proof.
  induction l as [|es l IH]; intros ex ex' Hf; simpl in Hf.
  - injection Hf as <-. split.
    { symmetry. apply filter_Forall_id, Forall_forall. intros x _.
      apply not_elem_of_nil. }
    split.
    { intros q. rewrite decide_False; [done|]. intros [Hq1 _].
      by apply not_elem_of_nil in Hq1. }
    by repeat split.
  - case_bool_decide as Hes.
    + apply IH in Hf
        as (Hst & Hheap & Hall & ? & ? & ? & ? & ? & ? & ?).
      cbn [states heap with_heap with_states] in Hst, Hheap, Hall.
      unfold set_erase in *. split.
      { rewrite Hst, list_filter_filter. apply filter_ext_elem.
        intros x _. rewrite not_elem_of_cons. tauto. }
      split.
      { intros q. rewrite Hheap. destruct (decide (q = es)) as [-> |Hne].
        - rewrite lookup_delete_eq.
          rewrite (decide_True (P := es ∈ es :: l ∧ es ∈ states ex));
            [by case_decide|]. split; [apply list_elem_of_here | done].
        - rewrite lookup_delete_ne by done.
          destruct (decide (q ∈ l ∧ q ∈ states ex)) as [[Hq1 Hq2]|Hqn].
          + rewrite decide_True.
            * rewrite decide_True; [done|].
              split; [by apply list_elem_of_further | done].
            * split; [done|]. apply list_elem_of_filter. by split.
          + rewrite decide_False.
            * rewrite decide_False; [done|]. rewrite elem_of_cons. tauto.
            * rewrite list_elem_of_filter. tauto. }
      split; [|by repeat split].
      constructor; [done|]. apply Forall_forall. intros q Hq Hn.
      rewrite Forall_forall in Hall. destruct (decide (q = es)) as [-> |Hne];
        [done|].
      destruct (Hall q Hq) as (st & Hs & ?).
      { rewrite list_elem_of_filter. tauto. }
      rewrite lookup_delete_ne in Hs by done. eauto.
    + bind_inv Hf as st Hs. apply deref_Some in Hs. inv_assert Hf.
      apply andb_true_iff in Hassert as [Hn Hsu].
      apply IH in Hf
        as (Hst & Hheap & Hall & ? & ? & ? & ? & ? & ? & ?).
      split.
      { rewrite Hst. apply filter_ext_elem. intros x Hx.
        rewrite not_elem_of_cons. split; [|tauto]. intros Hxl.
        split; [by intros ->|done]. }
      split.
      { intros q. rewrite Hheap.
        destruct (decide (q ∈ l ∧ q ∈ states ex)) as [[Hq1 Hq2]|Hqn].
        - rewrite decide_True; [done|].
          split; [by apply list_elem_of_further | done].
        - rewrite decide_False; [done|]. intros [Hq1 Hq2].
          apply elem_of_cons in Hq1 as [-> |Hq1]; tauto. }
      split; [|by repeat split]. constructor; [|done]. eauto.
Qed.

(** X16.  What [updateStates] leaves behind when load balancing is off.
    The pools of added, removed, suspended, resumed and offloaded states are
    empty.  The live states are the old live states and the added states
    without the removed ones, and exactly the removed states that were live
    are deleted from the store.  A removed state that was not live is a
    suspended normal state (anything else stops at an assertion) and stays
    in the store.  A state offloaded in this round loses its prefixes; all
    other states are untouched. *)
Theorem updateStates_flushes junk ex cur ex' :
  updateStates false junk ex cur = Ok ex' →
  let live q := q ∈ states ex ∨ q ∈ addedStates ex in
  addedStates ex' = [] ∧ removedStates ex' = []
  ∧ suspendedStates ex' = [] ∧ resumedStates ex' = []
  ∧ rangingSuspendedStates ex' = []
  ∧ (∀ q, q ∈ states ex' ↔ live q ∧ q ∉ removedStates ex)
  ∧ (∀ q, heap ex' !! q
          = if decide (q ∈ removedStates ex ∧ live q) then None
            else if decide (q ∈ rangingSuspendedStates ex)
                 then clearPrefixes <$> heap ex !! q
                 else heap ex !! q)
  ∧ Forall (λ q, ¬ live q →
                 ∃ st, heap ex !! q = Some st ∧ isNormalState st = true
                       ∧ isSuspended st = true) (removedStates ex)
  ∧ nonRecoveryStates ex' = nonRecoveryStates ex.
Proof.
  intros Hf live. unfold updateStates in Hf.
  bind_inv Hf as filtered Hfi. bind_inv Hf as s1 Hs1.
  bind_inv Hf as s2 Hs2. bind_inv Hf as s3 Hs3.
  bind_inv Hf as ex3 H3. bind_inv Hf as ex5 H5. injection Hf as <-.
  apply fileSuspended_heap in H3 as [Hpools Hheap3].
  destruct Hpools as (Est & _ & Ea & Er & Esu & Ere & Era & En).
  cbn in Est, Ea, Er, Esu, Ere, Era, En, Hheap3.
  apply deleteRemoved_heap in H5
    as (Est5 & Hheap5 & Hall & _ & Ea5 & Er5 & Esu5 & Ere5 & Era5 & En5).
  cbn in Est5, Hheap5, Hall, Ea5, Er5, Esu5, Ere5, Era5, En5.
  rewrite Er in *. rewrite Est in *.
  assert (Hlive : ∀ q,
    q ∈ foldl (λ l p, set_insert p l) (states ex) (addedStates ex)
    ↔ live q) by (intros q; apply elem_of_foldl_set_insert).
  cbn. split; [done|]. split; [done|]. split; [congruence|].
  split; [congruence|]. split; [done|]. split.
  { intros q. rewrite Est5, list_elem_of_filter, Hlive. tauto. }
  split.
  { intros q. rewrite Hheap5, Hheap3.
    destruct (decide (q ∈ removedStates ex ∧ live q)) as [[Hq1 Hq2]|Hqn].
    - rewrite decide_True; [done|]. by rewrite Hlive.
    - rewrite decide_False; [done|]. rewrite Hlive. tauto. }
  split; [|congruence].
  apply Forall_forall. intros q Hq Hnl. rewrite Forall_forall in Hall.
  destruct (Hall q Hq) as (st & Hst & Hn & Hs).
  { by rewrite Hlive. }
  rewrite Hheap3 in Hst. case_decide.
  - destruct (heap ex !! q) as [st0|]; [|done]. injection Hst as <-.
    by exists st0.
  - by exists st.
Qed.

End UpdateStates.


Lemma updateStates_flushes_witness :
  ∃ ex',
    updateStates false 0 MoreExamples.roundEnd None = Ok ex'
    ∧ (3%nat ∈ states ex') ∧ (2%nat ∉ states ex')
    ∧ heap ex' !! 2%nat = None.
Proof.
  destruct (updateStates false 0 MoreExamples.roundEnd None) as [ex'|e] eqn:E;
    [|by vm_compute in E].
  exists ex'. split; [done|].
  destruct (updateStates_flushes _ _ _ _ E)
    as (_ & _ & _ & _ & _ & Hst & Hheap & _).
  split; [|split].
  - apply Hst. split; [right|]; apply (bool_decide_unpack _); by vm_compute.
  - intros H2. apply Hst in H2 as [_ H2]. apply H2.
    apply (bool_decide_unpack _). by vm_compute.
  - rewrite Hheap. rewrite decide_True; [done|].
    split; [|left]; apply (bool_decide_unpack _); by vm_compute.
Defined.

(** ** A load that blocks *)

Section BlockingLoadProps.
Context {S : Type} {SS : Searcher S}.
Implicit Types ex : Executor (S := S).



End BlockingLoadProps.


(** ** Forking a chain of dependent states *)

(** The clone of the chain state [s]: linked back to [prev] and, when
    another clone follows, forward to it. *)
Definition linked (s : ExecutionState) (prev : ptr) (next : option ptr)
    : ExecutionState :=
  let s1 := set_recoveryState (Some prev) s in
  match next with
  | Some n => set_dependentState (Some n) s1
  | None => s1
  end.

(** [s] with the originating state [o] if it is a recovery state. *)
Definition originatingAt (o : ptr) (s : ExecutionState) : ExecutionState :=
  if isRecoveryState s then set_originatingState (Some o) s else s.

(** The clones of the chain states [ss] at the addresses [fs], behind the
    state at [prev]. *)
Fixpoint clones (prev : ptr) (ss : list ExecutionState) (fs : list ptr)
    : list ExecutionState :=
  match ss, fs with
  | s :: ss', q :: fs' => linked s prev (head fs') :: clones q ss' fs'
  | _, _ => []
  end.

Lemma Forall2_heap_agree (h h' : gmap ptr ExecutionState) l ss :
  Forall2 (λ c s, h !! c = Some s) l ss →
  (∀ x, x ∈ l → h' !! x = h !! x) →
  Forall2 (λ c s, h' !! c = Some s) l ss.
Proof.
  induction 1 as [|c s l ss Hc _ IH]; intros Hag; constructor.
  - rewrite Hag; [done | apply list_elem_of_here].
  - apply IH. intros x Hx. apply Hag. by apply list_elem_of_further.
Qed.

Lemma Forall2_heap_map (h h' : gmap ptr ExecutionState)
    (g : ExecutionState → ExecutionState) fs cs :
  Forall2 (λ q s', h !! q = Some s') fs cs →
  (∀ q, q ∈ fs → h' !! q = g <$> h !! q) →
  Forall2 (λ q s', h' !! q = Some s') fs (g <$> cs).
Proof.
  induction 1 as [|q s fs cs Hq _ IH]; intros Hag; simpl; constructor.
  - rewrite Hag by apply list_elem_of_here. by rewrite Hq.
  - apply IH. intros x Hx. apply Hag. by apply list_elem_of_further.
Qed.

Lemma originatingAt_links o s :
  isRecoveryState (originatingAt o s) = isRecoveryState s
  ∧ dependentState (originatingAt o s) = dependentState s.
Proof. unfold originatingAt. by destruct (isRecoveryState s) eqn:E. Qed.

Section ForkChain.
Context {S : Type} {SS : Searcher S}.
Implicit Types ex : Executor (S := S).

Lemma fork_step fuel ex c cst p pst :
  heap ex !! c = Some cst → heap ex !! p = Some pst → c ≠ p →
  isSuspended cst = true → isNormalState cst = true →
  isRecoveryState pst = true →
  let q := fresh (dom (heap ex)) in
  let ex3 := store p (set_dependentState (Some q) pst)
               (store q (set_recoveryState (Some p) cst) (store q cst ex)) in
  forkDependentStates_fork (Datatypes.S fuel) ex c p
  = if isRecoveryState cst then
      match dependentState cst with
      | Some next => forkDependentStates_fork fuel ex3 next q
      | None => Ok (ex3, None)
      end
    else Ok (ex3, Some q).
Proof.
  intros Hc Hp Hcp Hsus Hnorm Hrec q ex3.
  assert (Hqc : q ≠ c).
  { intros Heq. pose proof (fresh_heap (heap ex)) as Hfr. fold q in Hfr.
    rewrite Heq in Hfr. congruence. }
  assert (Hqp : q ≠ p).
  { intros Heq. pose proof (fresh_heap (heap ex)) as Hfr. fold q in Hfr.
    rewrite Heq in Hfr. congruence. }
  cbn [forkDependentStates_fork]. rewrite (deref_lookup _ _ _ Hc).
  cbn [mbind Res_bind]. unfold ExecutionState_copy, new_state. fold q.
  unfold assert at 1. rewrite Hsus. cbn [mbind Res_bind].
  assert (H1 : deref (heap (store q cst ex)) p = Ok pst).
  { apply deref_lookup. simpl. by rewrite lookup_insert_ne. }
  rewrite H1. cbn [mbind Res_bind].
  unfold setRecoveryState, assert. rewrite Hnorm, Hrec.
  cbn [mbind Res_bind].
  assert (H2 : deref (heap (store q (set_recoveryState (Some p) cst)
                              (store q cst ex))) p = Ok pst).
  { apply deref_lookup. simpl. by rewrite !lookup_insert_ne. }
  rewrite H2. cbn [mbind Res_bind].
  unfold setDependentState, assert. rewrite Hrec.
  change (isNormalState (set_recoveryState (Some p) cst))
    with (isNormalState cst). rewrite Hnorm. cbn [mbind Res_bind].
  fold ex3.
  assert (H3 : deref (heap ex3) c = Ok cst).
  { apply deref_lookup. unfold ex3. simpl.
    by rewrite !lookup_insert_ne by done. }
  rewrite H3. cbn [mbind Res_bind].
  destruct (isRecoveryState cst) eqn:Erc; [|done].
  unfold getDependentState, assert. rewrite Erc. done.
Qed.

Lemma fork_loop l : ∀ ss ex c p pst fuel,
  depChain (heap ex) c l → NoDup l → p ∉ l →
  Forall2 (λ c s, heap ex !! c = Some s) l ss →
  Forall (λ s, isNormalState s = true ∧ isSuspended s = true) ss →
  heap ex !! p = Some pst → isRecoveryState pst = true →
  (length l ≤ fuel)%nat →
  ∃ ex1 fs o,
    forkDependentStates_fork fuel ex c p = Ok (ex1, Some o)
    ∧ last fs = Some o ∧ length fs = length l ∧ NoDup fs
    ∧ Forall (λ q, heap ex !! q = None) fs
    ∧ (∀ q, q ≠ p → q ∉ fs → heap ex1 !! q = heap ex !! q)
    ∧ heap ex1 !! p = Some (set_dependentState (head fs) pst)
    ∧ Forall2 (λ q s', heap ex1 !! q = Some s') fs (clones p ss fs)
    ∧ ex1 = with_heap (heap ex1) ex.
Proof.
  induction l as [|c0 l IH];
    intros ss ex c p pst fuel Hc Hnd Hpl Hss Hall Hp Hrec Hfuel.
  { by apply depChain_head in Hc as [? ?]. }
  destruct fuel as [|fuel]; [simpl in Hfuel; lia|].
  apply NoDup_cons in Hnd as [Hc0 Hnd].
  assert (c0 = c) as -> by (by destruct (depChain_head _ _ _ Hc) as [? [= ->]]).
  apply Forall2_cons_inv_l in Hss as (cst & ss' & Hcst & Hss & ->).
  apply Forall_cons in Hall as [[Hnorm Hsus] Hall].
  apply not_elem_of_cons in Hpl as [Hpc Hpl].
  set (q := fresh (dom (heap ex))).
  assert (Hq : heap ex !! q = None) by apply fresh_heap.
  assert (Hqc : q ≠ c) by (intros Heq; rewrite Heq in Hq; congruence).
  assert (Hqp : q ≠ p) by (intros Heq; rewrite Heq in Hq; congruence).
  set (ex3 := store p (set_dependentState (Some q) pst)
                (store q (set_recoveryState (Some p) cst) (store q cst ex))).
  assert (Hq3 : heap ex3 !! q = Some (set_recoveryState (Some p) cst)).
  { unfold ex3. simpl.
    by rewrite lookup_insert_ne, lookup_insert_eq by done. }
  assert (Hp3 : heap ex3 !! p = Some (set_dependentState (Some q) pst)).
  { unfold ex3. simpl. by rewrite lookup_insert_eq. }
  assert (Ho3 : ∀ x, x ≠ p → x ≠ q → heap ex3 !! x = heap ex !! x).
  { intros x Hx1 Hx2. unfold ex3. simpl.
    by rewrite !lookup_insert_ne by done. }
  assert (Hf3 : ex3 = with_heap (heap ex3) ex) by (by destruct ex).
  rewrite (fork_step fuel ex c cst p pst) by done. fold q ex3.
  inversion Hc as [c' st' Hc' Hrc Ec El|c' st' n l' Hc' Hrc Hdep Hch Ec El];
    subst; rewrite Hcst in Hc'; injection Hc' as <-; rewrite Hrc.
  - inversion Hss; subst.
    exists ex3, [q], q. split; [done|]. split; [done|]. split; [done|].
    split; [apply NoDup_singleton|]. split; [by constructor|]. split.
    { intros x Hx1 Hx2. apply Ho3; [done|]. intros ->. apply Hx2.
      apply list_elem_of_here. }
    split; [done|]. split; [|done].
    constructor; [|constructor]. exact Hq3.
  - rewrite Hdep.
    assert (Hql : q ∉ l).
    { intros Hin. pose proof (depChain_in_heap _ _ _ Hch) as Hh.
      rewrite Forall_forall in Hh. destruct (Hh q Hin) as [? ?].
      congruence. }
    destruct (IH ss' ex3 n q (set_recoveryState (Some p) cst) fuel)
      as (ex1 & fs & o & Hl & Hlast & Hlen & Hndf & Hfresh & Hout & Hq1
          & Hcl & Hf1).
    { eapply depChain_agree; [exact Hch|]. intros x sx Hx Hsx.
      exists sx. rewrite Ho3; [done| |]; by intros ->. }
    { done. }
    { done. }
    { eapply Forall2_heap_agree; [exact Hss|]. intros x Hx.
      apply Ho3; by intros ->. }
    { done. }
    { exact Hq3. }
    { done. }
    { simpl in Hfuel. lia. }
    assert (Hqf : q ∉ fs).
    { intros Hin. rewrite Forall_forall in Hfresh.
      specialize (Hfresh q Hin). congruence. }
    assert (Hpf : p ∉ fs).
    { intros Hin. rewrite Forall_forall in Hfresh.
      specialize (Hfresh p Hin). congruence. }
    assert (Hne : ∃ f1 fs', fs = f1 :: fs').
    { destruct fs as [|f1 fs']; [|by eauto].
      apply depChain_head in Hch as [l'' ->]. done. }
    destruct Hne as (f1 & fs' & ->).
    exists ex1, (q :: f1 :: fs'), o. split; [done|]. split; [done|].
    split; [simpl in *; lia|]. split; [by apply NoDup_cons|]. split.
    { constructor; [done|]. apply Forall_forall. intros x Hx.
      rewrite Forall_forall in Hfresh. specialize (Hfresh x Hx).
      destruct (decide (x = p)) as [-> |?]; [congruence|].
      destruct (decide (x = q)) as [-> |?]; [done|].
      by rewrite <-Ho3. }
    split.
    { intros x Hx1 Hx2. apply not_elem_of_cons in Hx2 as [Hx2 Hx3].
      rewrite Hout by done. by apply Ho3. }
    split.
    { rewrite Hout by done. exact Hp3. }
    split; [|by rewrite Hf1 at 1; rewrite Hf3].
    constructor; [|exact Hcl]. exact Hq1.
Qed.

Lemma originating_loop ps : ∀ ex p o fuel,
  depChain (heap ex) p ps → NoDup ps →
  isNormalState <$> heap ex !! o = Some true →
  (length ps ≤ fuel)%nat →
  ∃ ex',
    forkDependentStates_originating fuel ex p (Some o) = Ok ex'
    ∧ (∀ q, q ∉ ps → heap ex' !! q = heap ex !! q)
    ∧ (∀ q, q ∈ ps → heap ex' !! q = originatingAt o <$> heap ex !! q)
    ∧ ex' = with_heap (heap ex') ex.
Proof.
  induction ps as [|p0 ps IH]; intros ex p o fuel Hc Hnd Ho Hfuel.
  { by apply depChain_head in Hc as [? ?]. }
  destruct fuel as [|fuel]; [simpl in Hfuel; lia|].
  apply NoDup_cons in Hnd as [Hp0 Hnd].
  assert (p0 = p) as -> by (by destruct (depChain_head _ _ _ Hc) as [? [= ->]]).
  cbn [forkDependentStates_originating].
  inversion Hc as [p' st Hp Hrec Ep El|p' st n l' Hp Hrec Hdep Hch Ep El];
    subst; rewrite (deref_lookup _ _ _ Hp); cbn [mbind Res_bind];
    rewrite Hrec.
  - exists ex. split; [done|]. split; [done|]. split; [|by destruct ex].
    intros q Hq. apply list_elem_of_singleton in Hq as ->.
    rewrite Hp. simpl. unfold originatingAt. by rewrite Hrec.
  - destruct (heap ex !! o) as [ost|] eqn:Eo; [|done].
    injection Ho as Hon. rewrite (deref_lookup _ _ _ Eo).
    cbn [mbind Res_bind]. unfold setOriginatingState, assert.
    rewrite Hrec, Hon. cbn [mbind Res_bind].
    unfold getDependentState, assert.
    change (isRecoveryState (set_originatingState (Some o) st))
      with (isRecoveryState st). rewrite Hrec. cbn [mbind Res_bind].
    change (dependentState (set_originatingState (Some o) st))
      with (dependentState st). rewrite Hdep.
    set (ex1 := store p (set_originatingState (Some o) st) ex).
    assert (Hother : ∀ q, q ≠ p → heap ex1 !! q = heap ex !! q).
    { intros q Hq. unfold ex1. simpl. by rewrite lookup_insert_ne. }
    destruct (IH ex1 n o fuel) as (ex' & Hl & Hout & Hin & Hf).
    { eapply depChain_agree; [exact Hch|]. intros q sq Hq Hsq.
      exists sq. rewrite Hother by (by intros ->). done. }
    { done. }
    { destruct (decide (o = p)) as [-> |Hne].
      - unfold ex1. simpl. rewrite lookup_insert_eq. simpl.
        rewrite Hp in Eo. injection Eo as <-. by f_equal.
      - rewrite Hother by done. by rewrite Eo; simpl; f_equal. }
    { simpl in Hfuel. lia. }
    exists ex'. split; [done|]. split.
    { intros q Hq. apply not_elem_of_cons in Hq as [Hq1 Hq2].
      rewrite Hout by done. by apply Hother. }
    split; [|by rewrite Hf at 1; destruct ex].
    intros q Hq. apply elem_of_cons in Hq as [-> |Hq].
    + rewrite Hout by done. unfold ex1. simpl. rewrite lookup_insert_eq, Hp.
      simpl. unfold originatingAt. by rewrite Hrec.
    + rewrite Hin by done. rewrite Hother by (by intros ->). done.
Qed.

Lemma clones_normal p ss fs :
  Forall (λ s, isNormalState s = true ∧ isSuspended s = true) ss →
  Forall (λ s, isNormalState s = true) (clones p ss fs).
Proof.
  revert p fs. induction ss as [|s ss IH]; intros p fs Hall; [constructor|].
  apply Forall_cons in Hall as [[Hn _] Hall].
  destruct fs as [|q fs]; [constructor|]. simpl. constructor; [|by apply IH].
  unfold linked. by destruct (head fs).
Qed.

Lemma clones_chain h h' c l : ∀ ss fs p,
  depChain h c l → Forall2 (λ c s, h !! c = Some s) l ss →
  Forall2 (λ q s', h' !! q = Some s') fs (clones p ss fs) →
  length fs = length l →
  ∃ f1, head fs = Some f1 ∧ depChain h' f1 fs.
Proof.
  intros ss fs p Hc. revert ss fs p.
  induction Hc as [c st Hst Hrec|c st n l Hst Hrec Hdep Hc IH];
    intros ss fs p Hss Hcl Hlen.
  - apply Forall2_cons_inv_l in Hss as (s & ss' & Hs & Hss & ->).
    inversion Hss; subst. rewrite Hst in Hs. injection Hs as <-.
    destruct fs as [|q [|? ?]]; [done| |done]. simpl in Hcl.
    apply Forall2_cons_1 in Hcl as [Hq _].
    exists q. split; [done|]. eapply depChain_end; [exact Hq|]. done.
  - apply Forall2_cons_inv_l in Hss as (s & ss' & Hs & Hss & ->).
    rewrite Hst in Hs. injection Hs as <-.
    destruct fs as [|q fs]; [done|]. simpl in Hcl, Hlen.
    apply Forall2_cons_1 in Hcl as [Hq Hcl].
    destruct (IH ss' fs q Hss Hcl) as (f2 & Hhead & Hch); [lia|].
    exists q. split; [done|]. rewrite Hhead in Hq. simpl in Hq.
    eapply depChain_step; [exact Hq| | |exact Hch]; done.
Qed.

Lemma forkDependentStates_chain ex t f tst fst c l ss :
  heap ex !! t = Some tst → isRecoveryState tst = true →
  dependentState tst = Some c →
  heap ex !! f = Some fst → isRecoveryState fst = true →
  depChain (heap ex) c l → NoDup l → f ∉ l →
  Forall2 (λ c s, heap ex !! c = Some s) l ss →
  Forall (λ s, isNormalState s = true ∧ isSuspended s = true) ss →
  ∃ ex' fs o,
    forkDependentStates ex t f = Ok ex'
    ∧ length fs = length l ∧ NoDup fs
    ∧ Forall (λ q, heap ex !! q = None) fs
    ∧ last fs = Some o
    ∧ (∀ q, q ≠ f → q ∉ fs → heap ex' !! q = heap ex !! q)
    ∧ heap ex' !! f
      = Some (set_originatingState (Some o)
                (set_dependentState (head fs) fst))
    ∧ Forall2 (λ q s', heap ex' !! q = Some s') fs
        (originatingAt o <$> clones f ss fs)
    ∧ depChain (heap ex') f (f :: fs)
    ∧ ex' = with_heap (heap ex') ex.
Proof.
  intros Ht Htr Htd Hf Hfr Hc Hnd Hfl Hss Hall.
  assert (Hlen : (length l ≤ chainFuel ex)%nat).
  { unfold chainFuel.
    pose proof (NoDup_in_heap_length _ _ Hnd (depChain_in_heap _ _ _ Hc)).
    lia. }
  destruct (fork_loop l ss ex c f fst (chainFuel ex) Hc Hnd Hfl Hss Hall Hf
              Hfr Hlen)
    as (ex1 & fs & o & Hl1 & Hlast & Hlenf & Hndf & Hfresh & Hout1 & Hf1
        & Hcl & Hshape1).
  destruct (clones_chain (heap ex) (heap ex1) c l ss fs f Hc Hss Hcl Hlenf)
    as (f1 & Hhead & Hch1).
  assert (Hff : f ∉ fs).
  { intros Hin. rewrite Forall_forall in Hfresh.
    specialize (Hfresh f Hin). congruence. }
  assert (Hchain : depChain (heap ex1) f (f :: fs)).
  { eapply depChain_step; [exact Hf1|done| |exact Hch1]. done. }
  assert (Hndc : NoDup (f :: fs)) by (by apply NoDup_cons).
  assert (Hof : o ∈ fs).
  { apply last_Some in Hlast as [fs' ->]. apply elem_of_app. right.
    apply list_elem_of_here. }
  assert (Ho1 : isNormalState <$> heap ex1 !! o = Some true).
  { pose proof (clones_normal f ss fs Hall) as Hn.
    apply list_elem_of_lookup in Hof as [i Hi].
    destruct (Forall2_lookup_l _ _ _ _ _ Hcl Hi) as (s' & Hs' & Ho).
    rewrite Ho. simpl. f_equal. rewrite Forall_forall in Hn. apply Hn.
    by eapply list_elem_of_lookup_2. }
  assert (Hlen2 : (length (f :: fs) ≤ chainFuel ex1)%nat).
  { unfold chainFuel.
    pose proof (NoDup_in_heap_length _ _ Hndc
                  (depChain_in_heap _ _ _ Hchain)).
    lia. }
  destruct (originating_loop (f :: fs) ex1 f o (chainFuel ex1) Hchain Hndc
              Ho1 Hlen2) as (ex' & Hl2 & Hout2 & Hin2 & Hshape2).
  exists ex', fs, o. split.
  { unfold forkDependentStates, getDependentState, assert.
    rewrite (deref_lookup _ _ _ Ht). cbn [mbind Res_bind]. rewrite Htr.
    cbn [mbind Res_bind]. rewrite Htd, Hl1. cbn [mbind Res_bind].
    exact Hl2. }
  split; [done|]. split; [done|]. split; [done|]. split; [done|]. split.
  { intros q Hq1 Hq2. rewrite Hout2.
    - by apply Hout1.
    - rewrite not_elem_of_cons. by split. }
  split.
  { rewrite Hin2 by apply list_elem_of_here. rewrite Hf1. simpl.
    unfold originatingAt.
    change (isRecoveryState (set_dependentState (head fs) fst))
      with (isRecoveryState fst). by rewrite Hfr. }
  split.
  { eapply Forall2_heap_map; [exact Hcl|]. intros q Hq. apply Hin2.
    by apply list_elem_of_further. }
  split; [|by rewrite Hshape2 at 1; rewrite Hshape1].
  eapply depChain_agree; [exact Hchain|]. intros q sq Hq Hsq.
  exists (originatingAt o sq). rewrite Hin2, Hsq by done.
  split; [done|]. apply originatingAt_links.
Qed.

End ForkChain.

(** X18.  When a recovery state is branched, the chain of states that
    depend on it is cloned for the new sibling.  For a chain without
    repetition of suspended normal states the call returns.  Every chain
    state gets one clone at a fresh address; the clones form the chain of
    the sibling, each linked back to its predecessor as its recovery state
    and forward to its successor as dependent state, and the clone of the
    last chain state becomes the originating state of the sibling and of
    every recovery state among the clones.  The original chain is
    untouched, and the clones are put on no list of the executor: only the
    store changes. *)
Theorem forkDependentStates_clones_chain {S : Type} {SS : Searcher S}
    (ex : Executor (S := S)) t f tst fst c l ss :
  heap ex !! t = Some tst → isRecoveryState tst = true →
  dependentState tst = Some c →
  heap ex !! f = Some fst → isRecoveryState fst = true →
  depChain (heap ex) c l → NoDup l → f ∉ l →
  Forall2 (λ c s, heap ex !! c = Some s) l ss →
  Forall (λ s, isNormalState s = true ∧ isSuspended s = true) ss →
  ∃ ex' fs o,
    forkDependentStates ex t f = Ok ex'
    ∧ length fs = length l ∧ NoDup fs
    ∧ Forall (λ q, heap ex !! q = None) fs
    ∧ last fs = Some o
    ∧ (∀ q, q ≠ f → q ∉ fs → heap ex' !! q = heap ex !! q)
    ∧ heap ex' !! f
      = Some (set_originatingState (Some o)
                (set_dependentState (head fs) fst))
    ∧ Forall2 (λ q s', heap ex' !! q = Some s') fs
        (originatingAt o <$> clones f ss fs)
    ∧ depChain (heap ex') f (f :: fs)
    ∧ ex' = with_heap (heap ex') ex.
Proof. apply forkDependentStates_chain. Qed.

Lemma forkDependentStates_clones_chain_witness :
  ∃ ex' q,
    forkDependentStates MoreExamples.branchedRecovery 2%nat 5%nat = Ok ex'
    ∧ heap MoreExamples.branchedRecovery !! q = None
    ∧ heap ex' !! q
      = Some (set_recoveryState (Some 5%nat) (Examples.waitingState []))
    ∧ heap ex' !! 5%nat
      = Some (set_originatingState (Some q)
                (set_dependentState (Some q) Examples.recoveringState))
    ∧ heap ex' !! 1%nat = Some (Examples.waitingState []).
Proof.
  destruct (forkDependentStates_clones_chain MoreExamples.branchedRecovery
              2%nat 5%nat Examples.recoveringState Examples.recoveringState
              1%nat [1%nat] [Examples.waitingState []])
    as (ex' & fs & o & He & Hlen & _ & Hfresh & Hlast & Hout & Hf & Hcl & _).
  - reflexivity.
  - reflexivity.
  - reflexivity.
  - reflexivity.
  - reflexivity.
  - eapply depChain_end; reflexivity.
  - apply (bool_decide_unpack _). by vm_compute.
  - apply (bool_decide_unpack _). by vm_compute.
  - repeat constructor.
  - repeat constructor.
  - destruct fs as [|q [|? ?]]; [done| |done].
    injection Hlast as <-. exists ex', q. split; [exact He|].
    apply Forall_cons in Hfresh as [Hq _]. split; [exact Hq|].
    apply Forall2_cons_1 in Hcl as [Hc _]. split; [exact Hc|].
    split; [exact Hf|]. apply Hout.
    + discriminate.
    + intros Hin. apply list_elem_of_singleton in Hin as <-.
      vm_compute in Hq. discriminate.
Defined.
